(** * pfs-parser: the ABNF recursive-descent parser (RFC 5234)

    A shallow embedding of [include/pfs/parser/abnf/parser.hpp]: the
    decimal conversion, the leaf advancers and the mutually recursive
    structural advancers, together with the observer they report to.

    Conventions of the embedding.
    - The input is a [list ascii]; a [ForwardIterator] is the offset of a
      character in it and [last] is the length of the input.
    - [*p] is [deref]: reading at offset [last] is the read of an end
      iterator, which the model reports as [ReadAtEnd] and stops.
    - The observer ([ctx]) is a state transformer answering every callback;
      the run logs each callback with the observer's answer.
    - [long] is a 64-bit two's complement integer, [Z] with the
      wrap-around written out. *)

From Stdlib Require Import ZArith List Ascii String Bool Lia Arith.
Import ListNotations.

Local Open Scope Z_scope.

(** ** Machine integers *)

Module Long.

Definition min : Z := - 2 ^ 63.
Definition max : Z := 2 ^ 63 - 1.

(** Two's complement wrap-around of a 64-bit signed result. *)
Definition wrap (z : Z) : Z := (z + 2 ^ 63) mod 2 ^ 64 - 2 ^ 63.

Definition in_range (z : Z) : Prop := min <= z <= max.

End Long.

(** ** Characters *)

(** The code of a character as an unsigned byte. *)
Definition code (ch : ascii) : Z := Z.of_N (N_of_ascii ch).

(** [uint32_t(ch)] for a [char] that is signed: bytes from 0x80 on are
    sign-extended before the conversion. *)
Definition uint32_t (ch : ascii) : Z :=
  if code ch <? 128 then code ch else code ch + (2 ^ 32 - 256).

(** ** Decimal conversion: [to_decimal_number] *)

Definition radix : Z := 10.

(** [std::numeric_limits<long>::min() / radix] and [% radix], which truncate
    towards zero, each multiplied by -1. *)
Definition cutoff_value : Z := Long.wrap (Z.quot Long.min radix * -1).
Definition cutoff_limit : Z := Long.wrap (Z.rem Long.min radix * -1).

(** [uint32_t( *first) - uint32_t(char_type('0'))], an unsigned 32-bit
    subtraction. *)
Definition digit_of (ch : ascii) : Z :=
  (uint32_t ch - uint32_t "0"%char) mod 2 ^ 32.

(** The body of the [for] loop, from the accumulator [result] on the
    characters left in the span. *)
Fixpoint to_decimal_loop (result : Z) (span : list ascii) : Z * bool :=
  match span with
  | [] => (result, true)
  | ch :: rest =>
      let digit := digit_of ch in
      if (digit <? 0) || (9 <? digit) then (0, false)
      else if (result <? cutoff_value)
              || ((result =? cutoff_value) && (digit <=? cutoff_limit))
      then to_decimal_loop (Long.wrap (Long.wrap (result * radix) + digit)) rest
      else (Long.max, false)
  end.

(** [to_decimal_number (first, last)] on the characters of the span. *)
Definition to_decimal_number (span : list ascii) : Z * bool :=
  to_decimal_loop 0 span.

(** The number a run of decimal digits denotes (Horner's rule), the
    reference [to_decimal_number] is compared with. *)
Definition is_decimal_digit (ch : ascii) : bool :=
  (48 <=? code ch) && (code ch <=? 57).

Definition decimal_value (span : list ascii) : Z :=
  fold_left (fun acc ch => acc * 10 + (code ch - 48)) span 0.

Definition chars (str : string) : list ascii := list_ascii_of_string str.

(** ** Character classes

    [is_prose_value_char] is in [parser.hpp]; the others are declared in
    [core_rules.hpp]. *)

(** The code of [ch] is between [lo] and [hi]. *)
Definition in_codes (lo hi : Z) (ch : ascii) : bool :=
  (lo <=? code ch) && (code ch <=? hi).

Definition is_prose_value_char (ch : ascii) : bool :=
  let a := (uint32_t " "%char <=? uint32_t ch) && (uint32_t ch <=? uint32_t "="%char) in
  a || ((uint32_t "?"%char <=? uint32_t ch) && (uint32_t ch <=? uint32_t "~"%char)).

(** Modelled from the spec: [is_alpha_char] of [core_rules.hpp], which is
    not among the sources; section 4.1: ALPHA is A-Z and a-z. *)
Definition is_alpha_char (ch : ascii) : bool :=
  in_codes 65 90 ch || in_codes 97 122 ch.

(** Modelled from the spec: [is_digit_char] of [core_rules.hpp] (missing);
    section 4.1: DIGIT is 0-9. *)
Definition is_digit_char (ch : ascii) : bool := in_codes 48 57 ch.

(** Modelled from the spec: [is_hexdigit_char] of [core_rules.hpp]
    (missing); section 4.1: HEXDIG is DIGIT, A-F and a-f. *)
Definition is_hexdigit_char (ch : ascii) : bool :=
  is_digit_char ch || in_codes 65 70 ch || in_codes 97 102 ch.

(** Modelled from the spec: [is_bit_char] of [core_rules.hpp] (missing);
    section 4.1: BIT is 0 or 1. *)
Definition is_bit_char (ch : ascii) : bool := in_codes 48 49 ch.

(** Modelled from the spec: [is_space_char] of [core_rules.hpp] (missing);
    section 4.1: SP is 0x20. *)
Definition is_space_char (ch : ascii) : bool := code ch =? 32.

(** Modelled from the spec: [is_whitespace_char] of [core_rules.hpp]
    (missing); section 4.1: WSP is SP or HTAB, 0x09. *)
Definition is_whitespace_char (ch : ascii) : bool :=
  is_space_char ch || (code ch =? 9).

(** Modelled from the spec: [is_cr_char] of [core_rules.hpp] (missing);
    section 4.1: CR is 0x0D. *)
Definition is_cr_char (ch : ascii) : bool := code ch =? 13.

(** Modelled from the spec: [is_lf_char] of [core_rules.hpp] (missing);
    section 4.1: LF is 0x0A. *)
Definition is_lf_char (ch : ascii) : bool := code ch =? 10.

(** Modelled from the spec: [is_dquote_char] of [core_rules.hpp] (missing);
    section 4.1: DQUOTE is 0x22. *)
Definition is_dquote_char (ch : ascii) : bool := code ch =? 34.

(** Modelled from the spec: [is_visible_char] of [core_rules.hpp]
    (missing); section 4.1: VCHAR is 0x21-0x7E. *)
Definition is_visible_char (ch : ascii) : bool := in_codes 33 126 ch.

(** ** The observer *)

Inductive number_flag : Type := unspecified | binary | decimal | hexadecimal.

(** Modelled from the spec: the enumeration [errc] of [error.hpp], which is
    not among the sources; section 7 lists its codes. *)
Inductive errc : Type :=
  unbalanced_quote | bad_quoted_char | max_length_exceeded | bad_repeat_range.

(** One constructor per callback of the context ([ctx]); a span is the pair
    of the offsets of its two iterators. *)
Inductive event : Type :=
| ev_prose (first last : nat)
| ev_first_number (flag : number_flag) (first last : nat)
| ev_last_number (flag : number_flag) (first last : nat)
| ev_next_number (flag : number_flag) (first last : nat)
| ev_quoted_string (first last : nat)
| ev_error (ec : errc) (near_pos : nat)
| ev_repeat (from to : Z)
| ev_rulename (first last : nat)
| ev_comment (first last : nat)
| ev_begin_repetition
| ev_end_repetition (success : bool)
| ev_begin_concatenation
| ev_end_concatenation (success : bool)
| ev_begin_alternation
| ev_end_alternation (success : bool)
| ev_begin_group
| ev_end_group (success : bool)
| ev_begin_option
| ev_end_option (success : bool)
| ev_begin_rule (first last : nat) (is_incremental_alternatives : bool)
| ev_end_rule (first last : nat) (is_incremental_alternatives success : bool)
| ev_begin_document
| ev_end_document (success : bool).

(** A context over its own state [S]: [notify] answers a callback (the
    answer of [error], which returns nothing, is not looked at) and may
    change the state; [max_quoted_string_length] is a [size_t]. *)
Record observer (S : Type) : Type := {
  notify : event -> S -> bool * S;
  max_quoted_string_length : S -> N
}.
Arguments notify {S}.
Arguments max_quoted_string_length {S}.

(** What a run has done to the context: the callbacks so far, each with
    the answer it got, and the state of the context. *)
Record run_state (S : Type) : Type := {
  trace : list (event * bool);
  ctx : S
}.
Arguments trace {S}.
Arguments ctx {S}.
Arguments Build_run_state {S}.

(** ** Results *)

(** A call returns, or reads through an end iterator, or (in the model
    only) exhausts the bound put on its loops. *)
Inductive res (A : Type) : Type :=
| Ret (a : A)
| ReadAtEnd
| OutOfFuel.
Arguments Ret {A}.
Arguments ReadAtEnd {A}.
Arguments OutOfFuel {A}.

Definition res_bind {A B} (c : res A) (k : A -> res B) : res B :=
  match c with
  | Ret a => k a
  | ReadAtEnd => ReadAtEnd
  | OutOfFuel => OutOfFuel
  end.

Definition M (S A : Type) : Type := run_state S -> res (A * run_state S).

Definition ret {S A} (a : A) : M S A := fun st => Ret (a, st).

Definition bind {S A B} (c : M S A) (k : A -> M S B) : M S B :=
  fun st => res_bind (c st) (fun r => k (fst r) (snd r)).

Definition lift {S A} (c : res A) : M S A :=
  fun st => res_bind c (fun a => Ret (a, st)).

Declare Scope pure_scope.
Delimit Scope pure_scope with pure.
Declare Scope run_scope.
Delimit Scope run_scope with run.

Notation "x <- c ;; k" := (res_bind c (fun x => k))
  (at level 61, c at next level, right associativity) : pure_scope.
Notation "' pat <- c ;; k" := (res_bind c (fun x => match x with pat => k end))
  (at level 61, pat pattern, c at next level, right associativity) : pure_scope.
Notation "x <- c ;; k" := (bind c (fun x => k))
  (at level 61, c at next level, right associativity) : run_scope.
Notation "' pat <- c ;; k" := (bind c (fun x => match x with pat => k end))
  (at level 61, pat pattern, c at next level, right associativity) : run_scope.

(** A callback: the context answers and the run logs the call. *)
Definition call {S} (O : observer S) (e : event) : M S bool :=
  fun st =>
    let (answer, c) := notify O e (ctx st) in
    Ret (answer, {| trace := trace st ++ [(e, answer)]; ctx := c |}).

(** [success && ctx.callback(...)]: no call when [success] is false. *)
Definition and_call {S} (O : observer S) (success : bool) (e : event) : M S bool :=
  if success then call O e else ret false.

(** ** The advancers *)

Local Open Scope nat_scope.

Section Advancers.

(** The input sequence; [pos], [p] and the spans are offsets into it. *)
Variable s : list ascii.

Definition last : nat := List.length s.

(** [*p] *)
Definition deref (p : nat) : res ascii :=
  match nth_error s p with
  | Some ch => Ret ch
  | None => ReadAtEnd
  end.

(** The characters of the span [(first, last)]. *)
Definition span (first_pos last_pos : nat) : list ascii :=
  firstn (last_pos - first_pos) (skipn first_pos s).

(** [while (p != last && f( *p)) ++p;] on the characters from [p] on. *)
Fixpoint advance_while_from (f : ascii -> bool) (rest : list ascii) (p : nat) : nat :=
  match rest with
  | [] => p
  | ch :: rest' => if f ch then advance_while_from f rest' (S p) else p
  end.

Definition advance_while (f : ascii -> bool) (p : nat) : nat :=
  advance_while_from f (skipn p s) p.

(** Modelled from the spec: [compare_and_assign] of [generator.hpp], which
    is not among the sources; the commit of section 5: the caller's cursor
    takes the local one, and the answer is whether it moved. *)
Definition compare_and_assign (pos p : nat) : bool * nat :=
  if pos =? p then (false, pos) else (true, p).

(** [return success && compare_and_assign(pos, p);] *)
Definition commit (success : bool) (pos p : nat) : bool * nat :=
  if success then compare_and_assign pos p else (false, pos).

(** Modelled from the spec: the token advancers of [core_rules.hpp], which
    is not among the sources; section 2: each advances past one run of its
    class ([1*DIGIT], [1*HEXDIG], [1*BIT]) and answers whether it moved. *)
Definition advance_chars (f : ascii -> bool) (pos : nat) : bool * nat :=
  compare_and_assign pos (advance_while f pos).

(** Modelled from the spec: [advance_digit_chars] of [core_rules.hpp]
    (missing); section 2: past [1*DIGIT]. *)
Definition advance_digit_chars : nat -> bool * nat := advance_chars is_digit_char.

(** Modelled from the spec: [advance_hexdigit_chars] of [core_rules.hpp]
    (missing); section 2: past [1*HEXDIG]. *)
Definition advance_hexdigit_chars : nat -> bool * nat := advance_chars is_hexdigit_char.

(** Modelled from the spec: [advance_bit_chars] of [core_rules.hpp]
    (missing); section 2: past [1*BIT]. *)
Definition advance_bit_chars : nat -> bool * nat := advance_chars is_bit_char.

(** Modelled from the spec: [advance_newline] of [core_rules.hpp], which is
    not among the sources; sections 3 and 4.4: a line ends with CR LF, a
    bare LF or a bare CR, and CR LF is one terminator. *)
Definition advance_newline (pos : nat) : bool * nat :=
  match nth_error s pos with
  | None => (false, pos)
  | Some ch =>
      if is_cr_char ch then
        match nth_error s (S pos) with
        | Some ch' => if is_lf_char ch' then (true, S (S pos)) else (true, S pos)
        | None => (true, S pos)
        end
      else if is_lf_char ch then (true, S pos)
      else (false, pos)
  end.

(** Modelled from the spec: [advance_linear_whitespace] of
    [core_rules.hpp], which is not among the sources; section 4.4 names the
    run [*LWSP], RFC 5234's [*(WSP / CRLF WSP)]: white space, or a line end
    followed by white space, as long as there is some. *)
Fixpoint linear_whitespace_from (fuel : nat) (p : nat) : nat :=
  match fuel with
  | O => p
  | S fuel' =>
      match nth_error s p with
      | None => p
      | Some ch =>
          if is_whitespace_char ch then linear_whitespace_from fuel' (S p)
          else
            let (nl, q) := advance_newline p in
            if nl then
              match nth_error s q with
              | Some ch' =>
                  if is_whitespace_char ch' then linear_whitespace_from fuel' (S q)
                  else p
              | None => p
              end
            else p
      end
  end.

(** Modelled from the spec: [advance_linear_whitespace] of
    [core_rules.hpp] (missing): past the run above; the answer is whether
    the cursor moved. *)
Definition advance_linear_whitespace (pos : nat) : bool * nat :=
  compare_and_assign pos (linear_whitespace_from (last - pos) pos).

(** *** Comments and white space: no context is passed *)

Definition advance_comment (pos : nat) : res (bool * nat) :=
  (let p := pos in
   if p =? last then Ret (false, pos) else
   ch <- deref p ;;
   if negb (Ascii.eqb ch ";") then Ret (false, pos) else
   let p := S p in
   let first_pos := p in
   let p := advance_while (fun ch => negb (is_cr_char ch || is_lf_char ch)) p in
   let p := if negb (p =? last) then snd (advance_newline p) else p in
   Ret (compare_and_assign pos p))%pure.

Definition advance_comment_newline (pos : nat) : res (bool * nat) :=
  let (nl, p) := advance_newline pos in
  if nl then Ret (true, p) else advance_comment p.

Definition advance_comment_whitespace (pos : nat) : res (bool * nat) :=
  (if pos =? last then Ret (false, pos) else
   let p := pos in
   ch <- deref p ;;
   if is_whitespace_char ch then Ret (compare_and_assign pos (S p))
   else
     '(cnl, p) <- advance_comment_newline p ;;
     if cnl then
       if p =? last then Ret (false, pos) else
       ch' <- deref p ;;
       if negb (is_whitespace_char ch') then Ret (false, pos) else
       Ret (compare_and_assign pos (S p))
     else Ret (false, pos))%pure.

(** [while (advance_comment_whitespace(p, last)) ;] Every round that
    goes on has moved [p], so [S (last - p)] rounds are never used up. *)
Fixpoint skip_comment_whitespace_from (fuel : nat) (p : nat) : res nat :=
  match fuel with
  | O => OutOfFuel
  | S fuel' =>
      ('(more, q) <- advance_comment_whitespace p ;;
       if more then skip_comment_whitespace_from fuel' q else Ret q)%pure
  end.

Definition skip_comment_whitespace (p : nat) : res nat :=
  skip_comment_whitespace_from (S (last - p)) p.

(** Helper function for [advance_rulename] and [advance_rule]: the answer,
    [pos], [rulename_first] and [rulename_last] on return. *)
Definition advance_rulename_helper (pos rulename_first rulename_last : nat)
  : res (bool * nat * nat * nat) :=
  (let p := pos in
   ch <- deref p ;;
   if negb (is_alpha_char ch) then Ret (false, pos, rulename_first, rulename_last) else
   let first_pos := p in
   let p := S p in
   let p := advance_while
              (fun ch => is_alpha_char ch || is_digit_char ch || Ascii.eqb ch "-") p in
   let (moved, pos') := compare_and_assign pos p in
   Ret (moved, pos', first_pos, p))%pure.

(** [advance_defined_as]: the answer, [pos] and
    [is_incremental_alternatives] on return. *)
Definition advance_defined_as (pos : nat) : res (bool * nat * bool) :=
  (if pos =? last then Ret (false, pos, false) else
   let p := pos in
   p <- skip_comment_whitespace p ;;
   if p =? last then Ret (false, pos, false) else
   ch <- deref p ;;
   if Ascii.eqb ch "=" then
     let p := S p in
     '(p, incremental) <-
        (if negb (p =? last) then
           ch' <- deref p ;;
           if Ascii.eqb ch' "/" then Ret (S p, true) else Ret (p, false)
         else Ret (p, false)) ;;
     p <- skip_comment_whitespace p ;;
     let (moved, pos') := compare_and_assign pos p in
     Ret (moved, pos', incremental)
   else Ret (false, pos, false))%pure.

(** *** The advancers that report to a context *)

Variable C : Type.
Variable cx : observer C.

(** An advancer takes [pos] and returns its answer with [pos] as the
    call leaves it. *)
Definition advancer : Type := nat -> M C (bool * nat).

Local Open Scope run_scope.

Definition advance_prose : advancer := fun pos =>
  let p := pos in
  if p =? last then ret (false, pos) else
  ch <- lift (deref p) ;;
  if negb (Ascii.eqb ch "<") then ret (false, pos) else
  let p := S p in
  let first_pos := p in
  let p := advance_while is_prose_value_char p in
  if p =? last then ret (false, pos) else
  ch' <- lift (deref p) ;;
  if negb (Ascii.eqb ch' ">") then ret (false, pos) else
  success <- call cx (ev_prose first_pos p) ;;
  let p := S p in
  ret (commit success pos p).

(** The choice of [advance_func], [is_digit_func] and [flag] on the
    character after the percent sign. *)
Definition number_kind (ch : ascii)
  : option ((nat -> bool * nat) * (ascii -> bool) * number_flag) :=
  if Ascii.eqb ch "x" then Some (advance_hexdigit_chars, is_hexdigit_char, hexadecimal)
  else if Ascii.eqb ch "d" then Some (advance_digit_chars, is_digit_char, decimal)
  else if Ascii.eqb ch "b" then Some (advance_bit_chars, is_bit_char, binary)
  else None.

(** [while ( *p == '.') { ... }] of [advance_number]: [None] when the body
    returns false from the advancer, otherwise [success] and [p] at the
    exit. Every round moves [p], by two characters at least. *)
Fixpoint number_sequence (fuel : nat) (advance_func : nat -> bool * nat)
    (is_digit_func : ascii -> bool) (flag : number_flag)
    (success : bool) (p : nat) : M C (option (bool * nat)) :=
  match fuel with
  | O => fun _ => OutOfFuel
  | S fuel' =>
      ch <- lift (deref p) ;;
      if negb (Ascii.eqb ch ".") then ret (Some (success, p)) else
      let p := S p in
      (* At least one digit character must exists *)
      ch' <- lift (deref p) ;;
      if negb (is_digit_func ch') then ret None else
      let first_pos := p in
      let (moved, p) := advance_func p in
      if negb moved then ret None else
      success <- and_call cx success (ev_next_number flag first_pos p) ;;
      number_sequence fuel' advance_func is_digit_func flag success p
  end.

Definition advance_number : advancer := fun pos =>
  let p := pos in
  if p =? last then ret (false, pos) else
  ch <- lift (deref p) ;;
  if negb (Ascii.eqb ch "%") then ret (false, pos) else
  let p := S p in
  if p =? last then ret (false, pos) else
  ch' <- lift (deref p) ;;
  match number_kind ch' with
  | None => ret (false, pos)
  | Some (advance_func, is_digit_func, flag) =>
      let p := S p in
      if p =? last then ret (false, pos) else
      let first_pos := p in
      let (moved, p) := advance_func p in
      if negb moved then ret (false, pos) else
      success <- call cx (ev_first_number flag first_pos p) ;;
      if negb (p =? last) then
        ch'' <- lift (deref p) ;;
        if Ascii.eqb ch'' "-" then
          let p := S p in
          (* At least one digit character must exists *)
          d <- lift (deref p) ;;
          if negb (is_digit_func d) then ret (false, pos) else
          let first_pos := p in
          let (moved, p) := advance_func p in
          if negb moved then ret (false, pos) else
          success <- and_call cx success (ev_last_number flag first_pos p) ;;
          ret (commit success pos p)
        else if Ascii.eqb ch'' "." then
          r <- number_sequence (S (last - p)) advance_func is_digit_func
                 flag success p ;;
          match r with
          | None => ret (false, pos)
          | Some (success, p) =>
              (* Notify observer no more valid elements parsed *)
              success <- and_call cx success (ev_last_number flag p p) ;;
              ret (commit success pos p)
          end
        else
          success <- and_call cx success (ev_last_number flag p p) ;;
          ret (commit success pos p)
      else
        success <- and_call cx success (ev_last_number flag p p) ;;
        ret (commit success pos p)
  end.

(** [std::numeric_limits<size_t>::max()] *)
Definition size_t_max : Z := (2 ^ 64 - 1)%Z.

(** The loop of [advance_quoted_string] on the characters from [p] on: the
    error it reports, or [p] at the exit. *)
Fixpoint quoted_string_from (rest : list ascii) (first_pos p : nat)
    (length max_length : Z) : (errc * nat) + nat :=
  match rest with
  | [] => inr p
  | ch :: rest' =>
      if is_dquote_char ch then inr p
      else if negb (is_visible_char ch || is_space_char ch)
      then inl (bad_quoted_char, p)
      else if (length =? max_length)%Z then inl (max_length_exceeded, first_pos)
      else quoted_string_from rest' first_pos (S p) (length + 1)%Z max_length
  end.

(** [ctx.error(ec, near_pos); return false;] *)
Definition fail_with (ec : errc) (near_pos pos : nat) : M C (bool * nat) :=
  _ <- call cx (ev_error ec near_pos) ;;
  ret (false, pos).

Definition advance_quoted_string : advancer := fun pos =>
  let p := pos in
  if p =? last then ret (false, pos) else
  ch <- lift (deref p) ;;
  if negb (is_dquote_char ch) then ret (false, pos) else
  let p := S p in
  let first_pos := p in
  if p =? last then fail_with unbalanced_quote first_pos pos else
  fun st =>
    let max_length := Z.of_N (max_quoted_string_length cx (ctx st)) in
    let max_length := if (max_length =? 0)%Z then size_t_max else max_length in
    match quoted_string_from (skipn p s) first_pos p 0%Z max_length with
    | inl (ec, near_pos) => fail_with ec near_pos pos st
    | inr p =>
        (if p =? last then fail_with unbalanced_quote first_pos pos else
         success <- call cx (ev_quoted_string first_pos p) ;;
         let p := S p in (* Skip DQUOTE *)
         ret (commit success pos p)) st
    end.

(** The [do { ... } while (false)] block of [advance_repeat]: [p],
    [last_from], [first_to] and [last_to] at its exit ([first_from] stays
    [pos]). *)
Definition repeat_scan (pos : nat) : res (nat * nat * nat * nat) :=
  (let p := pos in
   let first_from := pos in
   let last_from := pos in
   let first_to := pos in
   let last_to := pos in
   ch <- deref p ;;
   let '(p, last_from, exact) :=
     if is_digit_char ch then
       let p := snd (advance_digit_chars p) in
       (p, p, p =? last)
     else (p, last_from, false) in
   if exact then
     (* Success, is exact limit *)
     Ret (p, last_from, first_from, last_from)
   else
     ch' <- deref p ;;
     if Ascii.eqb ch' "*" then
       let p := S p in
       if p =? last then Ret (p, last_from, first_to, last_to)
       else
         d <- deref p ;;
         if is_digit_char d then
           let first_to := p in
           let p := snd (advance_digit_chars p) in
           Ret (p, last_from, first_to, p)
         else Ret (p, last_from, first_to, last_to)
     else Ret (p, last_from, first_to, last_to))%pure.

Definition advance_repeat : advancer := fun pos =>
  let success := true in
  if pos =? last then ret (false, pos) else
  let first_from := pos in
  '(p, last_from, first_to, last_to) <- lift (repeat_scan pos) ;;
  if negb (p =? pos) then
    let from := to_decimal_number (span first_from last_from) in
    let to := to_decimal_number (span first_to last_to) in
    if negb (snd from) then fail_with bad_repeat_range first_from pos else
    if negb (snd to) then fail_with bad_repeat_range first_to pos else
    let to_first := if first_to =? last_to then Long.max else fst to in
    if (to_first <? fst from)%Z then fail_with bad_repeat_range first_from pos else
    success <- and_call cx success (ev_repeat (fst from) to_first) ;;
    ret (commit success pos p)
  else ret (commit success pos p).

(** [advance_rulename] hands [pos] itself to the helper. *)
Definition advance_rulename : advancer := fun pos =>
  if pos =? last then ret (false, pos) else
  '(moved, pos, rulename_first, rulename_last) <-
      lift (advance_rulename_helper pos pos pos) ;;
  if negb moved then ret (false, pos) else
  success <- call cx (ev_rulename rulename_first rulename_last) ;;
  ret (success, pos).

(** *** The repetition driver *)

(** [std::numeric_limits<int>::max()] *)
Definition INT_MAX : Z := (2 ^ 31 - 1)%Z.

(** Modelled from the spec: [unlimited_range] of [generator.hpp], which is
    not among the sources; the bounds [(low, high)] of section 4.2 with the
    sentinel of section 3, [INT_MAX], for no upper bound. *)
Definition unlimited_range : Z * Z := (0%Z, INT_MAX).

(** Modelled from the spec: [make_range] of [generator.hpp] (missing) with
    its one argument, as [parser.hpp] calls it: from [from] on, no upper
    bound. *)
Definition make_range (from : Z) : Z * Z := (from, INT_MAX).

(** Modelled from the spec: the loop of [advance_repetition_by_range]:
    [op] is applied to the cursor again as long as it succeeds and fewer
    than [high] applications have succeeded; the result is the count and the
    cursor. [fuel] bounds the rounds: an [op] that moves the cursor whenever
    it succeeds stops within [S (last - p)] of them. *)
Fixpoint repetition_loop (fuel : nat) (op : advancer) (high count : Z) (p : nat)
  : M C (Z * nat) :=
  if (high <=? count)%Z then ret (count, p) else
  match fuel with
  | O => fun _ => OutOfFuel
  | S fuel' =>
      '(success, p) <- op p ;;
      if success then repetition_loop fuel' op high (count + 1)%Z p
      else ret (count, p)
  end.

(** Modelled from the spec: [advance_repetition_by_range] of
    [generator.hpp], which is not among the sources; section 4.2: apply
    [op] repeatedly and count; success iff the count is within
    [[low, high]]; on failure the cursor is the initial one; [low > high]
    fails at once. *)
Definition advance_repetition_by_range (pos : nat) (range : Z * Z) (op : advancer)
  : M C (bool * nat) :=
  let (low, high) := range in
  if (high <? low)%Z then ret (false, pos) else
  '(count, p) <- repetition_loop (S (last - pos)) op high 0%Z pos ;;
  if (low <=? count)%Z && (count <=? high)%Z then ret (true, p)
  else ret (false, pos).

(** [a || b] on advancers: [b] runs, from where [a] left [pos], when [a]
    answers false. *)
Definition or_else (a b : advancer) : advancer := fun pos =>
  '(success, pos) <- a pos ;;
  if success then ret (true, pos) else b pos.

(** [success && advance(pos, last, ctx)] *)
Definition and_then (success : bool) (a : advancer) : advancer := fun pos =>
  if success then a pos else ret (false, pos).

(** *** The mutually recursive advancers

    [advance_element] reaches [advance_alternation] again through
    [advance_group] and [advance_option], one bracket deeper. The
    advancers are first written over the alternation advancer used inside
    brackets; [advance_alternation_at] then ties the knot, its argument
    bounding the depth of the brackets. *)
Section Level.

Variable alternation_inside : advancer.

(** Helper function of [advance_group] and [advance_option]. *)
Definition advance_group_or_option_with : advancer := fun pos =>
  if pos =? last then ret (false, pos) else
  let p := pos in
  ch <- lift (deref p) ;;
  match (if Ascii.eqb ch "(" then Some ")"%char
         else if Ascii.eqb ch "[" then Some "]"%char
         else None) with
  | None => ret (false, pos)
  | Some closing_bracket =>
      let p := S p in
      (* *c-wsp *)
      p <- lift (skip_comment_whitespace p) ;;
      if p =? last then ret (false, pos) else
      '(success, p) <- alternation_inside p ;;
      if negb success then ret (false, pos) else
      (* *c-wsp *)
      p <- lift (skip_comment_whitespace p) ;;
      ch' <- lift (deref p) ;;
      if negb (Ascii.eqb ch' closing_bracket) then ret (false, pos) else
      let p := S p in
      ret (compare_and_assign pos p)
  end.

Definition advance_group_with : advancer := fun pos =>
  if pos =? last then ret (false, pos) else
  let p := pos in
  ch <- lift (deref p) ;;
  if negb (Ascii.eqb ch "(") then ret (false, pos) else
  success <- call cx ev_begin_group ;;
  '(success, pos) <- and_then success advance_group_or_option_with pos ;;
  answer <- call cx (ev_end_group success) ;;
  ret (answer && success, pos).

Definition advance_option_with : advancer := fun pos =>
  if pos =? last then ret (false, pos) else
  let p := pos in
  ch <- lift (deref p) ;;
  if negb (Ascii.eqb ch "[") then ret (false, pos) else
  success <- call cx ev_begin_option ;;
  '(success, pos) <- and_then success advance_group_or_option_with pos ;;
  answer <- call cx (ev_end_option success) ;;
  ret (answer && success, pos).

Definition advance_element_with : advancer := fun pos =>
  if pos =? last then ret (false, pos) else
  or_else advance_rulename
    (or_else advance_group_with
       (or_else advance_option_with
          (or_else advance_number
             (or_else advance_quoted_string advance_prose)))) pos.

Definition advance_repetition_with : advancer := fun pos =>
  if pos =? last then ret (false, pos) else
  success <- call cx ev_begin_repetition ;;
  '(_, pos) <- advance_repeat pos ;;
  '(success, pos) <- and_then success advance_element_with pos ;;
  answer <- call cx (ev_end_repetition success) ;;
  ret (answer && success, pos).

Definition advance_concatenation_with : advancer := fun pos =>
  if pos =? last then ret (false, pos) else
  success <- call cx ev_begin_concatenation ;;
  (* At least one repetition need *)
  '(success, pos) <- and_then success advance_repetition_with pos ;;
  (* *(1*c-wsp repetition) *)
  '(success, pos) <-
     and_then success
       (fun pos =>
          advance_repetition_by_range pos unlimited_range
            (fun pos =>
               let p := pos in
               (* 1*c-wsp *)
               '(spaced, p) <-
                  advance_repetition_by_range p (make_range 1)
                    (fun pos => lift (advance_comment_whitespace pos)) ;;
               if negb spaced then ret (false, pos) else
               '(repeated, p) <- advance_repetition_with p ;;
               if negb repeated then ret (false, pos) else
               ret (compare_and_assign pos p))) pos ;;
  answer <- call cx (ev_end_concatenation success) ;;
  ret (answer && success, pos).

Definition advance_alternation_with : advancer := fun pos =>
  if pos =? last then ret (false, pos) else
  success <- call cx ev_begin_alternation ;;
  '(success, pos) <- and_then success advance_concatenation_with pos ;;
  (* *( *c-wsp "/" *c-wsp concatenation) *)
  '(success, pos) <-
     and_then success
       (fun pos =>
          advance_repetition_by_range pos unlimited_range
            (fun pos =>
               let p := pos in
               (* *c-wsp *)
               p <- lift (skip_comment_whitespace p) ;;
               if p =? last then ret (false, pos) else
               ch <- lift (deref p) ;;
               if negb (Ascii.eqb ch "/") then ret (false, pos) else
               let p := S p in
               if p =? last then ret (false, pos) else
               (* *c-wsp *)
               p <- lift (skip_comment_whitespace p) ;;
               '(concatenated, p) <- advance_concatenation_with p ;;
               if negb concatenated then ret (false, pos) else
               ret (compare_and_assign pos p))) pos ;;
  answer <- call cx (ev_end_alternation success) ;;
  ret (answer && success, pos).

End Level.

Fixpoint advance_alternation_at (depth : nat) : advancer :=
  match depth with
  | O => fun _ _ => OutOfFuel
  | S depth' => advance_alternation_with (advance_alternation_at depth')
  end.

(** Every bracket that is entered has taken a character of the input, so
    no input nests brackets deeper than its length. *)
Definition advance_alternation : advancer := advance_alternation_at (S last).
Definition advance_group_or_option : advancer :=
  advance_group_or_option_with advance_alternation.
Definition advance_group : advancer := advance_group_with advance_alternation.
Definition advance_option : advancer := advance_option_with advance_alternation.
Definition advance_element : advancer := advance_element_with advance_alternation.
Definition advance_repetition : advancer := advance_repetition_with advance_alternation.
Definition advance_concatenation : advancer :=
  advance_concatenation_with advance_alternation.

(** *** Rules and the rule list *)

Definition advance_elements : advancer := fun pos =>
  let p := pos in
  '(success, p) <- advance_alternation p ;;
  if negb success then ret (false, pos) else
  (* *c-wsp *)
  p <- lift (skip_comment_whitespace p) ;;
  ret (compare_and_assign pos p).

(** [while (success && advance_linear_whitespace(p, last)) ;] A round
    that goes on has moved [p]. *)
Fixpoint skip_linear_whitespace_from (fuel : nat) (p : nat) : res nat :=
  match fuel with
  | O => OutOfFuel
  | S fuel' =>
      let (more, q) := advance_linear_whitespace p in
      if more then skip_linear_whitespace_from fuel' q else Ret q
  end.

Definition skip_linear_whitespace (p : nat) : res nat :=
  skip_linear_whitespace_from (S (last - p)) p.

Definition advance_rule : advancer := fun pos =>
  let p := pos in
  if pos =? last then ret (false, pos) else
  '(named, p, rulename_first, rulename_last) <-
      lift (advance_rulename_helper p p p) ;;
  if negb named then ret (false, pos) else
  '(defined, p, is_incremental_alternatives) <- lift (advance_defined_as p) ;;
  if negb defined then ret (false, pos) else
  success <- call cx (ev_begin_rule rulename_first rulename_last
                        is_incremental_alternatives) ;;
  '(success, p) <- and_then success advance_elements p ;;
  '(success, p) <-
     (if negb (p =? last)
      then and_then success (fun p => lift (advance_comment_newline p)) p
      else ret (success, p)) ;;
  p <- (if success then lift (skip_linear_whitespace p) else ret p) ;;
  answer <- call cx (ev_end_rule rulename_first rulename_last
                       is_incremental_alternatives success) ;;
  let success := answer && success in
  ret (commit success pos p).

Definition advance_rulelist : advancer := fun pos =>
  success <- call cx ev_begin_document ;;
  '(success, pos) <-
     and_then success
       (fun pos =>
          advance_repetition_by_range pos (make_range 1)
            (fun pos =>
               let p := pos in
               '(ruled, p) <- advance_rule p ;;
               if ruled then ret (compare_and_assign pos p) else
               (* *c-wsp *)
               p <- lift (skip_comment_whitespace p) ;;
               if negb (p =? last) then
                 '(cnl, p) <- lift (advance_comment_newline p) ;;
                 if negb cnl then ret (false, pos) else
                 ret (compare_and_assign pos p)
               else ret (compare_and_assign pos p))) pos ;;
  answer <- call cx (ev_end_document success) ;;
  ret (answer && success, pos).

End Advancers.

Arguments advance_prose s {C}.
Arguments number_sequence s {C}.
Arguments advance_number s {C}.
Arguments fail_with {C}.
Arguments advance_quoted_string s {C}.
Arguments advance_repeat s {C}.
Arguments advance_rulename s {C}.
Arguments repetition_loop {C}.
Arguments advance_repetition_by_range s {C}.
Arguments advance_group_or_option_with s {C}.
Arguments advance_group_with s {C}.
Arguments advance_option_with s {C}.
Arguments advance_element_with s {C}.
Arguments advance_repetition_with s {C}.
Arguments advance_concatenation_with s {C}.
Arguments advance_alternation_with s {C}.
Arguments advance_alternation_at s {C}.
Arguments advance_alternation s {C}.
Arguments advance_group_or_option s {C}.
Arguments advance_group s {C}.
Arguments advance_option s {C}.
Arguments advance_element s {C}.
Arguments advance_repetition s {C}.
Arguments advance_concatenation s {C}.
Arguments advance_elements s {C}.
Arguments advance_rule s {C}.
Arguments advance_rulelist s {C}.
Arguments or_else {C}.
Arguments and_then {C}.


(** ** Inputs and contexts used in the examples *)

Definition CR : string := String "013" EmptyString.
Definition LF : string := String "010" EmptyString.
Definition CRLF : string := (CR ++ LF)%string.
Definition DQUOTE : string := String "034" EmptyString.

(** A context without state that accepts every callback and puts no limit
    on the length of quoted strings. *)
Definition accept_all : observer unit :=
  {| notify := fun _ st => (true, st); max_quoted_string_length := fun _ => 0%N |}.

(** A context that accepts every callback but [rulename]. *)
Definition veto_rulename : observer unit :=
  {| notify := fun e st => (match e with ev_rulename _ _ => false | _ => true end, st);
     max_quoted_string_length := fun _ => 0%N |}.

Definition start : run_state unit := {| trace := []; ctx := tt |}.

(** The callbacks of a run, in the order they were made. *)
Definition events {C} (st : run_state C) : list event := map fst (trace st).

Definition is_error (e : event) : bool :=
  match e with ev_error _ _ => true | _ => false end.

Definition is_comment (e : event) : bool :=
  match e with ev_comment _ _ => true | _ => false end.

Definition is_number (e : event) : bool :=
  match e with
  | ev_first_number _ _ _ | ev_next_number _ _ _ | ev_last_number _ _ _ => true
  | _ => false
  end.

Definition is_repeat (e : event) : bool :=
  match e with ev_repeat _ _ => true | _ => false end.

(** The rule of scenario S5: a quoted string that is still open at the end
    of the line. *)
Definition unterminated : list ascii :=
  chars ("r = " ++ DQUOTE ++ "unterminated" ++ CRLF).

(** The rule of scenario S4 with a sequence of decimal numbers. *)
Definition number_rule : list ascii := chars ("r = %d48.49.50" ++ CRLF).

(** *** Sequences of numbers

    The digit class and the flag that the letter after the percent sign
    selects. *)
Definition digit_class (ch : ascii) : option ((ascii -> bool) * number_flag) :=
  if Ascii.eqb ch "x" then Some (is_hexdigit_char, hexadecimal)
  else if Ascii.eqb ch "d" then Some (is_digit_char, decimal)
  else if Ascii.eqb ch "b" then Some (is_bit_char, binary)
  else None.

(** The text of the runs of a sequence, a dot before each. *)
Fixpoint dotted (runs : list (list ascii)) : list ascii :=
  match runs with
  | [] => []
  | run :: runs' => "."%char :: run ++ dotted runs'
  end.

(** The callbacks expected for the runs that follow the first one, the
    first dot being at offset [p]: [next_number] on each run, then
    [last_number] on the empty span where the sequence ends. *)
Fixpoint next_number_events (flag : number_flag) (p : nat) (runs : list (list ascii))
  : list event :=
  match runs with
  | [] => [ev_last_number flag p p]
  | run :: runs' =>
      ev_next_number flag (S p) (S p + List.length run)
      :: next_number_events flag (S p + List.length run) runs'
  end.

(** A run of the class [f]: one character at least, all in the class. *)
Definition is_run (f : ascii -> bool) (run : list ascii) : Prop :=
  run <> [] /\ Forall (fun ch => f ch = true) run.

(** *** Brackets

    The callbacks that open and close a production. A rule is opened and
    closed with the span of its name and its kind. *)
Inductive bracket : Type :=
| in_document
| in_rule (first last : nat) (is_incremental_alternatives : bool)
| in_alternation
| in_concatenation
| in_repetition
| in_group
| in_option.

Definition bracket_eqb (a b : bracket) : bool :=
  match a, b with
  | in_document, in_document => true
  | in_rule f l i, in_rule f' l' i' => (f =? f') && (l =? l') && Bool.eqb i i'
  | in_alternation, in_alternation => true
  | in_concatenation, in_concatenation => true
  | in_repetition, in_repetition => true
  | in_group, in_group => true
  | in_option, in_option => true
  | _, _ => false
  end.

(** The bracket a [begin_*] callback opens. *)
Definition begins (e : event) : option bracket :=
  match e with
  | ev_begin_document => Some in_document
  | ev_begin_rule f l i => Some (in_rule f l i)
  | ev_begin_alternation => Some in_alternation
  | ev_begin_concatenation => Some in_concatenation
  | ev_begin_repetition => Some in_repetition
  | ev_begin_group => Some in_group
  | ev_begin_option => Some in_option
  | _ => None
  end.

(** The bracket an [end_*] callback closes, and the success it carries. *)
Definition ends (e : event) : option (bracket * bool) :=
  match e with
  | ev_end_document b => Some (in_document, b)
  | ev_end_rule f l i b => Some (in_rule f l i, b)
  | ev_end_alternation b => Some (in_alternation, b)
  | ev_end_concatenation b => Some (in_concatenation, b)
  | ev_end_repetition b => Some (in_repetition, b)
  | ev_end_group b => Some (in_group, b)
  | ev_end_option b => Some (in_option, b)
  | _ => None
  end.

(** The brackets left open, innermost first, after the callbacks [es] made
    with [open] open; [None] when a bracket is closed that is not the
    innermost open one. *)
Fixpoint nesting (open : list bracket) (es : list event) : option (list bracket) :=
  match es with
  | [] => Some open
  | e :: es' =>
      match begins e with
      | Some b => nesting (b :: open) es'
      | None =>
          match ends e with
          | Some (b, _) =>
              match open with
              | b' :: open' => if bracket_eqb b b' then nesting open' es' else None
              | [] => None
              end
          | None => nesting open es'
          end
      end
  end.

(** Every bracket is closed, by its own [end_*], after those opened inside
    it. *)
Definition well_bracketed (es : list event) : Prop := nesting [] es = Some [].





(** The callbacks of a call that opens a bracket: [begin], what the
    production inside calls, and [end] carrying [success]; the call returns
    the context's answer to [end] and [success], both. *)
Definition bracketed_by (e_begin : event) (e_end : bool -> event)
    (r : bool) (delta : list (event * bool)) : Prop :=
  exists answer_begin inner success answer_end,
    delta = (e_begin, answer_begin) :: inner ++ [(e_end success, answer_end)] /\
    well_bracketed (map fst inner) /\
    r = answer_end && success.

(** *** Runs that return

    [holds st c Q]: the run of [c] from [st] does not use up the bound on
    its loops and, when it returns, [Q] holds of the result and the state. *)
Definition holds {C A} (st : run_state C) (c : M C A)
    (Q : A -> run_state C -> Prop) : Prop :=
  match c st with
  | Ret (a, st') => Q a st'
  | ReadAtEnd => True
  | OutOfFuel => False
  end.

(** The same for a computation that has no context. *)
Definition returns {A} (c : res A) (Q : A -> Prop) : Prop :=
  match c with
  | Ret a => Q a
  | ReadAtEnd => True
  | OutOfFuel => False
  end.

(** The brackets of a log are neutral: whatever is open before is open
    after. *)
Definition neutral (delta : list (event * bool)) : Prop :=
  forall open, nesting open (map fst delta) = Some open.

(** What is true of every advancer when it returns from [pos] in [st]: the
    cursor has not gone back nor beyond the end, and [Q] holds of the answer,
    the cursor and the callbacks made. *)
Definition post {C} (s : list ascii) (Q : bool -> nat -> list (event * bool) -> Prop)
    (pos : nat) (st : run_state C) (x : bool * nat) (st' : run_state C) : Prop :=
  pos <= snd x <= last s /\
  exists delta, trace st' = trace st ++ delta /\ Q (fst x) (snd x) delta.

Definition sound {C} (s : list ascii) (Q : nat -> bool -> nat -> list (event * bool) -> Prop)
    (a : advancer C) (pos : nat) : Prop :=
  forall st, holds st (a pos) (post s (Q pos) pos st).

(** The callbacks are neutral. *)
Definition quiet (pos : nat) (r : bool) (pos' : nat) (delta : list (event * bool)) : Prop :=
  neutral delta.

(** The callbacks are neutral and success has moved the cursor. *)
Definition moving (pos : nat) (r : bool) (pos' : nat) (delta : list (event * bool))
  : Prop :=
  neutral delta /\ (r = true -> pos < pos').

(** A computation without context that always returns. *)
Definition always {A} (c : res A) (Q : A -> Prop) : Prop :=
  exists a, c = Ret a /\ Q a.

(** What is true of the answer and the cursor of every token advancer
    called at [pos]: the cursor has not gone back nor beyond the end, and it
    has moved exactly when the answer is true. *)
Definition stepped (s : list ascii) (pos : nat) (x : bool * nat) : Prop :=
  pos <= snd x <= last s /\
  (fst x = true -> pos < snd x) /\
  (fst x = false -> snd x = pos).

(** The log of [st'] is that of [st] followed by neutral callbacks. *)
Definition grown {C} (st st' : run_state C) : Prop :=
  exists delta, trace st' = trace st ++ delta /\ neutral delta.

(** An advancer that opens a bracket unless it returns false at once. *)
Definition may_bracket (e_begin : event) (e_end : bool -> event)
    (pos : nat) (r : bool) (pos' : nat) (delta : list (event * bool)) : Prop :=
  (delta = [] /\ r = false) \/ bracketed_by e_begin e_end r delta.

Definition may_bracket_rule
    (pos : nat) (r : bool) (pos' : nat) (delta : list (event * bool)) : Prop :=
  (delta = [] /\ r = false) \/
  exists first_pos last_pos incremental,
    bracketed_by (ev_begin_rule first_pos last_pos incremental)
      (ev_end_rule first_pos last_pos incremental) r delta.

(** *** The structural advancers *)

(** [advance_defined_as] as an advancer: it has no context and makes no
    callback. *)
Definition advance_defined_as_run {C} (s : list ascii) : advancer C := fun pos =>
  bind (lift (advance_defined_as s pos))
       (fun x => let '(moved, pos', _) := x in ret (moved, pos')).

Definition structural_advancers {C} (s : list ascii) (cx : observer C)
  : list (advancer C) :=
  [ advance_prose s cx; advance_number s cx; advance_quoted_string s cx;
    advance_repeat s cx; advance_rulename s cx; advance_element s cx;
    advance_repetition s cx; advance_concatenation s cx; advance_alternation s cx;
    advance_group s cx; advance_option s cx; advance_defined_as_run s;
    advance_elements s cx; advance_rule s cx; advance_rulelist s cx ].


(** Failure has left the cursor where it was. *)
Definition rolled_back {C} (pos : nat) (x : bool * nat) (st' : run_state C) : Prop :=
  fst x = false -> snd x = pos.

(** The advancers that work on a copy of the cursor and commit it with the
    answer they return. *)
Definition committing_advancers {C} (s : list ascii) (cx : observer C)
  : list (advancer C) :=
  [ advance_prose s cx; advance_number s cx; advance_quoted_string s cx;
    advance_repeat s cx; advance_defined_as_run s; advance_elements s cx;
    advance_rule s cx ].

(** *** Calls seen from outside *)

(** The answer of the context to the callback [e] in the state [st], and
    the state after the call. *)
Definition answered {C} (cx : observer C) (e : event) (st : run_state C) : bool :=
  fst (notify cx e (ctx st)).

Definition logged {C} (cx : observer C) (e : event) (st : run_state C) : run_state C :=
  {| trace := trace st ++ [(e, answered cx e st)];
     ctx := snd (notify cx e (ctx st)) |}.

(** The run of a production that makes the one callback [e] and commits
    the cursor [p'] when the context accepts it. *)
Definition reported {C} (cx : observer C) (e : event) (pos p' : nat) (st : run_state C)
  : res (bool * nat * run_state C) :=
  Ret (answered cx e st, if answered cx e st then p' else pos, logged cx e st).

(** The result of a call that makes the callback [e1] and, when it is
    accepted, the callback [e2]: success when both are accepted, with the
    cursor at [p'] then, at [pos] otherwise. *)
Definition reported_both {C} (cx : observer C) (e1 e2 : event) (pos p' : nat)
    (st : run_state C) : res (bool * nat * run_state C) :=
  if answered cx e1 st then reported cx e2 pos p' (logged cx e1 st)
  else Ret (false, pos, logged cx e1 st).

(** The run that reports the error [ec] and fails. *)
Definition failed_with {C} (cx : observer C) (ec : errc) (near_pos pos : nat)
    (st : run_state C) : res (bool * nat * run_state C) :=
  Ret (false, pos, logged cx (ev_error ec near_pos) st).

(** *** The text of the productions *)

(** [rest] does not go on a run of the class [f]: it is empty or begins
    with a character outside the class. *)
Definition ends_run (f : ascii -> bool) (rest : list ascii) : Prop :=
  match rest with
  | [] => True
  | ch :: _ => f ch = false
  end.

(** A character that may stand inside a quoted string: SP or VCHAR, and
    not the quote. *)
Definition quotable (ch : ascii) : bool :=
  negb (is_dquote_char ch) && (is_visible_char ch || is_space_char ch).

(** The limit on the length of a quoted string in force in [st]: that of
    the context, none when it answers 0. *)
Definition length_limit {C} (cx : observer C) (st : run_state C) : Z :=
  let max_length := Z.of_N (max_quoted_string_length cx (ctx st)) in
  if (max_length =? 0)%Z then size_t_max else max_length.

(** The upper bound [advance_repeat] reports for the digits after the
    star: none, [LONG_MAX], when there is no digit. *)
Definition upper_bound (high : list ascii) : Z :=
  match high with
  | [] => Long.max
  | _ :: _ => decimal_value high
  end.

(** A character that may follow the first letter of a rule name:
    [ALPHA / DIGIT / "-"]. *)
Definition is_rulename_char (ch : ascii) : bool :=
  is_alpha_char ch || is_digit_char ch || Ascii.eqb ch "-".

(** A character with which a [c-wsp] can begin: white space, a line end
    or the semicolon of a comment. *)
Definition begins_c_wsp (ch : ascii) : bool :=
  is_whitespace_char ch || is_cr_char ch || is_lf_char ch || Ascii.eqb ch ";".

(** *** Further contexts and operations of the examples *)

(** A context that accepts every callback and limits quoted strings to two
    characters. *)
Definition short_strings : observer unit :=
  {| notify := fun _ st => (true, st); max_quoted_string_length := fun _ => 2%N |}.

(** A context that refuses the document and accepts every other
    callback. *)
Definition refuse_document : observer unit :=
  {| notify := fun e st => (match e with ev_begin_document => false | _ => true end, st);
     max_quoted_string_length := fun _ => 0%N |}.

(** A context that refuses every rule at [begin_rule] and accepts every
    other callback. *)
Definition refuse_rules : observer unit :=
  {| notify := fun e st => (match e with ev_begin_rule _ _ _ => false | _ => true end, st);
     max_quoted_string_length := fun _ => 0%N |}.

(** The operation that the test of [advance_repetition_by_range] in
    [tests/generator.cpp] repeats: past one letter; the character is read
    with no test for the end of the data. *)
Definition advance_letter {C} (s : list ascii) : advancer C := fun first =>
  bind (lift (deref s first))
       (fun ch => if is_alpha_char ch then ret (true, S first) else ret (false, first)).

(** *** Runs that are sure to return

    [surely st c Q]: the run of [c] from [st] returns, with no read through
    the end iterator, and [Q] holds of the result and the state. *)
Definition surely {C A} (st : run_state C) (c : M C A)
    (Q : A -> run_state C -> Prop) : Prop :=
  exists a st', c st = Ret (a, st') /\ Q a st'.

(** The advancers with a context that read no character before they have
    compared the cursor with the end. *)
Definition guarded_advancers {C} (s : list ascii) (cx : observer C)
  : list (advancer C) :=
  [ advance_prose s cx; advance_quoted_string s cx; advance_repeat s cx;
    advance_rulename s cx ].

(** *** Success advances the cursor

    What the documentation of every advancer promises of the answer true:
    the cursor has advanced by at least one position; whatever the answer,
    it has not gone back nor beyond the end. *)
Definition advanced {C} (s : list ascii) (pos : nat) (x : bool * nat)
    (st' : run_state C) : Prop :=
  pos <= snd x <= last s /\ (fst x = true -> pos < snd x).

Definition advancing {C} (s : list ascii) (a : advancer C) (pos : nat) : Prop :=
  forall st, holds st (a pos) (advanced s pos).

(** *** Productions refused, and the end of the input *)

(** The character at [pos] is [ch]; false at the end of the input. *)
Definition stands_at (s : list ascii) (ch : ascii) (pos : nat) : bool :=
  match nth_error s pos with
  | Some ch' => Ascii.eqb ch' ch
  | None => false
  end.

(** The advancers whose production the context can refuse at its
    [begin_*] callback before any character is read, with their two
    callbacks and the test on the cursor that lets them make the first one:
    [advance_rulelist] always does, [advance_alternation] and
    [advance_concatenation] do unless the cursor is at the end, and
    [advance_group] and [advance_option] do at their opening bracket.
    [advance_repetition] is not among them: it runs [advance_repeat] whatever
    [begin_repetition] answers. *)
Definition vetoable_advancers {C} (s : list ascii) (cx : observer C)
  : list (advancer C * event * (bool -> event) * (nat -> bool)) :=
  [ (advance_rulelist s cx, ev_begin_document, ev_end_document, fun _ => true);
    (advance_alternation s cx, ev_begin_alternation, ev_end_alternation,
     fun pos => negb (pos =? last s));
    (advance_concatenation s cx, ev_begin_concatenation, ev_end_concatenation,
     fun pos => negb (pos =? last s));
    (advance_group s cx, ev_begin_group, ev_end_group, stands_at s "(");
    (advance_option s cx, ev_begin_option, ev_end_option, stands_at s "[") ].

(** Every advancer but [advance_rulelist], the last of the list. *)
Definition inner_advancers {C} (s : list ascii) (cx : observer C)
  : list (advancer C) :=
  removelast (structural_advancers s cx).

(** *** The positions handed to the context

    The positions that a callback carries lie within the input, the end
    included, and the first of a span is not after its last. *)
Definition spans_within (s : list ascii) (e : event) : bool :=
  match e with
  | ev_prose first_pos last_pos
  | ev_quoted_string first_pos last_pos
  | ev_rulename first_pos last_pos
  | ev_comment first_pos last_pos
  | ev_first_number _ first_pos last_pos
  | ev_last_number _ first_pos last_pos
  | ev_next_number _ first_pos last_pos
  | ev_begin_rule first_pos last_pos _
  | ev_end_rule first_pos last_pos _ _ =>
      (first_pos <=? last_pos) && (last_pos <=? last s)
  | ev_error _ near_pos => near_pos <=? last s
  | _ => true
  end.

(** The log of [st'] is that of [st] followed by callbacks whose positions
    lie within the input. *)
Definition ranged {C} (s : list ascii) (st st' : run_state C) : Prop :=
  exists delta,
    trace st' = trace st ++ delta /\
    forallb (fun x => spans_within s (fst x)) delta = true.

(** An advancer that advances on success and hands positions of the input
    to the context. *)
Definition ranging {C} (s : list ascii) (a : advancer C) (pos : nat) : Prop :=
  forall st, holds st (a pos) (fun x st' => advanced s pos x st' /\ ranged s st st').

(** *** Inputs that end with a line

    The last character of the input is CR or LF, as after the last rule of
    a grammar. *)
Definition ends_line (s : list ascii) : bool :=
  match nth_error s (last s - 1) with
  | Some nl => is_cr_char nl || is_lf_char nl
  | None => false
  end.

(** A class of characters that holds neither CR nor LF. *)
Definition within_line (f : ascii -> bool) : Prop :=
  forall ch, f ch = true -> is_cr_char ch || is_lf_char ch = false.

(** The cursor has advanced on success and, if it was before the end of
    the input, it still is. *)
Definition kept {C} (s : list ascii) (pos : nat) (x : bool * nat)
    (st' : run_state C) : Prop :=
  advanced s pos x st' /\ (pos < last s -> snd x < last s).

(** An advancer that returns from [pos], whatever the state of the context,
    with the cursor kept before the end. *)
Definition returning {C} (s : list ascii) (a : advancer C) (pos : nat) : Prop :=
  forall st, surely st (a pos) (kept s pos).

(** * Properties *)

Local Open Scope Z_scope.

(** ** Machine integers and characters *)

Lemma wrap_in_range z : Long.in_range z -> Long.wrap z = z.
Proof.
  unfold Long.in_range, Long.wrap, Long.min, Long.max; intros H.
  rewrite Z.mod_small by lia. lia.
Qed.

Lemma code_range ch : 0 <= code ch < 256.
Proof.
  unfold code. pose proof (N_ascii_bounded ch). lia.
Qed.

Lemma cutoff_value_eq : cutoff_value = 922337203685477580.
Proof. reflexivity. Qed.

Lemma cutoff_limit_eq : cutoff_limit = 8.
Proof. reflexivity. Qed.

(** The unsigned subtraction gives the digit on a decimal digit, and a
    number above 9 on any other character. *)
Lemma digit_of_digit ch :
  is_decimal_digit ch = true -> digit_of ch = code ch - 48 /\ 0 <= code ch - 48 <= 9.
Proof.
  unfold is_decimal_digit, digit_of, uint32_t; intros H.
  apply andb_true_iff in H as [H1 H2].
  apply Z.leb_le in H1, H2.
  replace (code ch <? 128) with true by (symmetry; apply Z.ltb_lt; lia).
  change (code "0") with 48. change (48 <? 128) with true.
  cbv iota. rewrite Z.mod_small; lia.
Qed.

Lemma digit_of_other ch :
  is_decimal_digit ch = false -> (digit_of ch <? 0) || (9 <? digit_of ch) = true.
Proof.
  unfold is_decimal_digit, digit_of, uint32_t; intros H.
  pose proof (code_range ch) as R.
  change (code "0") with 48. change (48 <? 128) with true. cbv iota.
  apply orb_true_iff; right. apply Z.ltb_lt.
  apply andb_false_iff in H as [H | H]; [apply Z.leb_gt in H | apply Z.leb_gt in H].
  - replace (code ch <? 128) with true by (symmetry; apply Z.ltb_lt; lia).
    replace ((code ch - 48) mod 2 ^ 32) with (code ch - 48 + 2 ^ 32).
    + lia.
    + apply Z.mod_unique with (q := -1); lia.
  - destruct (code ch <? 128) eqn:E;
      [apply Z.ltb_lt in E | apply Z.ltb_ge in E].
    + rewrite Z.mod_small; lia.
    + rewrite Z.mod_small; lia.
Qed.

(** ** [to_decimal_number] *)

Lemma decimal_value_from acc span :
  fold_left (fun a ch => a * 10 + (code ch - 48)) span acc =
  acc * 10 ^ Z.of_nat (List.length span) + decimal_value span.
Proof.
  unfold decimal_value. revert acc.
  induction span as [|ch span IH]; intros acc.
  - simpl. lia.
  - cbn [fold_left List.length]. rewrite IH, (IH (0 * 10 + _)).
    rewrite Nat2Z.inj_succ, Z.pow_succ_r by lia. ring.
Qed.

(** Within eighteen digits the accumulator stays below the cutoff and the
    loop is Horner's rule. *)
Lemma to_decimal_loop_digits span : forall acc,
  Forall (fun ch => is_decimal_digit ch = true) span ->
  0 <= acc ->
  (acc + 1) * 10 ^ Z.of_nat (List.length span) <= 10 ^ 18 ->
  to_decimal_loop acc span =
  (fold_left (fun a ch => a * 10 + (code ch - 48)) span acc, true).
Proof.
  induction span as [|ch span IH]; intros acc Hd Hacc Hb.
  - reflexivity.
  - inversion Hd as [|? ? Hch Hrest]; subst.
    destruct (digit_of_digit ch Hch) as [Hdig Hr].
    cbn [to_decimal_loop fold_left List.length] in *.
    rewrite Nat2Z.inj_succ, Z.pow_succ_r in Hb by lia.
    assert (Hp : 1 <= 10 ^ Z.of_nat (List.length span))
      by (apply Z.lt_pred_le, Z.pow_pos_nonneg; lia).
    assert (Hsmall : acc + 1 <= 10 ^ 17) by (change (10 ^ 18) with (10 * 10 ^ 17) in Hb; nia).
    rewrite Hdig.
    replace ((code ch - 48 <? 0) || (9 <? code ch - 48)) with false
      by (symmetry; apply orb_false_iff; split; apply Z.ltb_ge; lia).
    rewrite cutoff_value_eq.
    replace (acc <? 922337203685477580) with true
      by (symmetry; apply Z.ltb_lt; change (10 ^ 17) with 100000000000000000 in Hsmall; lia).
    cbn [orb]. unfold radix.
    change (10 ^ 17) with 100000000000000000 in Hsmall.
    rewrite (wrap_in_range (acc * 10))
      by (unfold Long.in_range, Long.min, Long.max; lia).
    rewrite wrap_in_range
      by (unfold Long.in_range, Long.min, Long.max; lia).
    apply IH; [assumption | lia | nia].
Qed.

(** A character that is not a digit, met while the conversion is still
    within range, gives [(0, false)]. *)
Lemma to_decimal_loop_other digits ch rest : forall acc v,
  to_decimal_loop acc digits = (v, true) ->
  is_decimal_digit ch = false ->
  to_decimal_loop acc (digits ++ ch :: rest) = (0, false).
Proof.
  induction digits as [|d digits IH]; intros acc v Hok Hch.
  - cbn [app to_decimal_loop]. now rewrite (digit_of_other ch Hch).
  - cbn [app to_decimal_loop] in *.
    destruct ((digit_of d <? 0) || (9 <? digit_of d)); [discriminate|].
    destruct ((acc <? cutoff_value) ||
              ((acc =? cutoff_value) && (digit_of d <=? cutoff_limit)));
      [|discriminate].
    eapply IH; eassumption.
Qed.

(** C6 (as amended). [to_decimal_number] returns [(0, true)] on the empty
    span; [(v, true)] on every span of at most eighteen decimal digits that
    denotes [v]; [(LONG_MAX, false)] on twenty nines; and [(0, false)] on
    every span whose first character that is not a decimal digit comes
    after digits that convert without overflow. *)
Theorem to_decimal_number_cases :
  to_decimal_number [] = (0, true) /\
  (forall span,
      Forall (fun ch => is_decimal_digit ch = true) span ->
      (List.length span <= 18)%nat ->
      to_decimal_number span = (decimal_value span, true)) /\
  to_decimal_number (chars "99999999999999999999") = (Long.max, false) /\
  (forall digits ch rest v,
      to_decimal_number digits = (v, true) ->
      is_decimal_digit ch = false ->
      to_decimal_number (digits ++ ch :: rest) = (0, false)).
Proof.
  split; [reflexivity|]. split; [|split; [reflexivity|]].
  - intros span Hd Hlen. unfold to_decimal_number.
    rewrite to_decimal_loop_digits; try assumption; try lia.
    + reflexivity.
    + change (0 + 1) with 1. rewrite Z.mul_1_l.
      apply Z.pow_le_mono_r; lia.
  - intros digits ch rest v. apply to_decimal_loop_other.
Qed.

Lemma to_decimal_number_cases_witness :
  to_decimal_number (chars "909") = (909, true) /\
  to_decimal_number (chars "0b") = (0, false).
Proof.
  destruct to_decimal_number_cases as (_ & Hdigits & _ & Hother).
  split.
  - apply (Hdigits (chars "909")).
    + repeat constructor.
    + simpl. lia.
  - apply (Hother (chars "0") "b"%char [] 0); reflexivity.
Defined.

(** C6, as stated, fails: a span may contain a character that is not a
    digit and still give [(LONG_MAX, false)], when the digits before it
    overflow first. *)
Lemma to_decimal_number_other_after_overflow :
  ~ (forall span,
        Exists (fun ch => is_decimal_digit ch = false) span ->
        to_decimal_number span = (0, false)).
Proof.
  intros H.
  specialize (H (chars "99999999999999999999a")).
  assert (E : Exists (fun ch => is_decimal_digit ch = false)
                (chars "99999999999999999999a")).
  { apply Exists_exists. exists "a"%char. split; [|reflexivity].
    simpl. repeat (try (left; reflexivity); right). }
  specialize (H E). vm_compute in H. discriminate.
Qed.

(** C9. The digits of [LONG_MAX + 1] are accepted: the last digit 8 passes
    the test against [cutoff_limit], the accumulation goes beyond
    [LONG_MAX] and wraps around to [LONG_MIN], and no overflow is
    reported. *)
Theorem to_decimal_number_overflow_undetected :
  decimal_value (chars "9223372036854775808") = Long.max + 1 /\
  cutoff_value * radix + cutoff_limit = Long.max + 1 /\
  to_decimal_number (chars "9223372036854775808") = (Long.min, true).
Proof.
  repeat split; vm_compute; reflexivity.
Qed.

Local Open Scope nat_scope.

(** ** The scenarios of the specification, run on the model *)

(** C1. Two advancers give [pos] itself to the advancers they call, and
    return failure with the cursor moved although no error was reported:
    [advance_repetition] on the input "3", where the repeat is consumed and
    no element follows, and [advance_rulename] when the context refuses the
    name. *)
Theorem advance_repetition_no_rollback :
  (exists st,
      advance_repetition (chars "3") accept_all 0 start = Ret (false, 1, st) /\
      filter is_error (events st) = []) /\
  (exists st,
      advance_rulename (chars "a") veto_rulename 0 start = Ret (false, 1, st) /\
      filter is_error (events st) = []).
Proof.
  split; eexists; (split; [vm_compute; reflexivity | reflexivity]).
Qed.

(** C2. A number that is followed by the element it repeats is reported
    with the upper bound [LONG_MAX], not as the exact bound: [repeat (3, 3)]
    is never called for "3DIGIT". *)
Theorem advance_repeat_bare_number :
  advance_repeat (chars "3DIGIT") accept_all 0 start =
    Ret (true, 1, {| trace := [(ev_repeat 3 Long.max, true)]; ctx := tt |}) /\
  (exists st,
      advance_rulelist (chars ("r = 3DIGIT" ++ CRLF)) accept_all 0 start =
        Ret (true, 12, st) /\
      filter is_repeat (events st) = [ev_repeat 3 Long.max]).
Proof.
  split; [vm_compute; reflexivity|].
  eexists; split; [vm_compute; reflexivity | reflexivity].
Qed.

(** C5, as stated, fails: no [error (unbalanced_quote, ...)] is among the
    callbacks of the run on the rule of S5. *)
Lemma unterminated_quote_not_unbalanced :
  ~ (exists p st near_pos,
        advance_rulelist unterminated accept_all 0 start = Ret (false, p, st) /\
        In (ev_error unbalanced_quote near_pos) (events st)).
Proof.
  intros (p & st & near_pos & Hrun & Hin).
  vm_compute in Hrun. injection Hrun as _ <-.
  vm_compute in Hin.
  repeat (destruct Hin as [Hin | Hin]; [discriminate|]).
  exact Hin.
Qed.

(** C8. [advance_number] reads through the end iterator after a hyphen and
    after a digit run that follows a dot, whatever the context is, and
    [advance_group_or_option] does so when it tests the closing bracket. *)
Theorem advance_number_reads_at_end :
  (forall C (cx : observer C) st,
      advance_number (chars "%d1-") cx 0 st = ReadAtEnd) /\
  (forall C (cx : observer C) st,
      advance_number (chars "%d1.2") cx 0 st = ReadAtEnd) /\
  advance_group (chars "(a") accept_all 0 start = ReadAtEnd.
Proof.
  split; [|split].
  - intros C cx st. unfold advance_number, bind, call. cbn.
    destruct (notify cx _ _); reflexivity.
  - intros C cx st. unfold advance_number, bind, call. cbn.
    destruct (notify cx _ _) as [[|] c]; cbn; [|reflexivity].
    unfold bind, call; cbn.
    destruct (notify cx _ _); reflexivity.
  - vm_compute; reflexivity.
Qed.

(** ** Offsets into the input *)

Lemma skipn_length_app {A} (pre l : list A) : skipn (List.length pre) (pre ++ l) = l.
Proof. induction pre; simpl; auto. Qed.

Lemma skipn_length_app_plus {A} (pre l : list A) n :
  skipn (List.length pre + n) (pre ++ l) = skipn n l.
Proof. induction pre; simpl; auto. Qed.

Lemma nth_error_length_app {A} (pre l : list A) n :
  nth_error (pre ++ l) (List.length pre + n) = nth_error l n.
Proof. induction pre; simpl; auto. Qed.

Lemma advance_while_from_all f rest : forall p,
  Forall (fun ch => f ch = true) rest ->
  advance_while_from f rest p = p + List.length rest.
Proof.
  induction rest as [|ch rest IH]; intros p H; simpl.
  - lia.
  - inversion H as [|? ? Hch Hrest]; subst. rewrite Hch, IH by assumption. lia.
Qed.

Lemma advance_while_from_stop f run ch rest : forall p,
  Forall (fun ch => f ch = true) run ->
  f ch = false ->
  advance_while_from f (run ++ ch :: rest) p = p + List.length run.
Proof.
  induction run as [|c run IH]; intros p H Hch; simpl.
  - rewrite Hch. lia.
  - inversion H as [|? ? Hc Hrun]; subst. rewrite Hc, IH by assumption. lia.
Qed.

Lemma advance_while_from_bounds f rest : forall p,
  p <= advance_while_from f rest p <= p + List.length rest.
Proof.
  induction rest as [|ch rest IH]; intros p; simpl.
  - lia.
  - destruct (f ch); [specialize (IH (S p))|]; lia.
Qed.

Lemma length_skipn_last (s : list ascii) p : List.length (skipn p s) = last s - p.
Proof. unfold last. apply length_skipn. Qed.

Lemma advance_while_bounds s f p :
  p <= last s -> p <= advance_while s f p <= last s.
Proof.
  intros Hp. unfold advance_while.
  pose proof (advance_while_from_bounds f (skipn p s) p) as H.
  rewrite length_skipn_last in H. lia.
Qed.

Lemma deref_ok s p : p < last s -> exists ch, deref s p = Ret ch /\ nth_error s p = Some ch.
Proof.
  unfold last, deref; intros Hp.
  destruct (nth_error s p) as [ch|] eqn:E.
  - eauto.
  - apply nth_error_None in E. lia.
Qed.

Lemma deref_inv s p ch : deref s p = Ret ch -> nth_error s p = Some ch /\ p < last s.
Proof.
  unfold deref, last. destruct (nth_error s p) eqn:E; intros H; inversion H; subst.
  split; [reflexivity|]. apply nth_error_Some. congruence.
Qed.

(** ** Comments *)

(** C10. A comment that runs to the end of the input, with no line end
    after it, is accepted: from the semicolon on, [advance_comment] returns
    true and leaves the cursor at the end position. *)
Theorem advance_comment_without_newline (pre body : list ascii) :
  Forall (fun ch => is_cr_char ch = false /\ is_lf_char ch = false) body ->
  advance_comment (pre ++ ";"%char :: body) (List.length pre) =
  Ret (true, last (pre ++ ";"%char :: body)).
Proof.
  intros Hbody.
  assert (Hlast : last (pre ++ ";"%char :: body) = S (List.length pre + List.length body)).
  { unfold last. rewrite length_app. simpl. lia. }
  unfold advance_comment.
  replace (List.length pre =? last _) with false
    by (symmetry; apply Nat.eqb_neq; lia).
  unfold deref.
  rewrite <- (Nat.add_0_r (List.length pre)) at 1.
  rewrite nth_error_length_app. cbn [nth_error res_bind Ascii.eqb negb].
  change (Ascii.eqb ";" ";") with true. cbn [negb].
  unfold advance_while.
  replace (S (List.length pre)) with (List.length pre + 1) by lia.
  rewrite skipn_length_app_plus. cbn [skipn].
  rewrite advance_while_from_all.
  2:{ eapply Forall_impl; [|exact Hbody]. intros ch [Hcr Hlf]. now rewrite Hcr, Hlf. }
  replace (List.length pre + 1 + List.length body) with (last (pre ++ ";"%char :: body))
    by lia.
  rewrite Nat.eqb_refl. cbn [negb].
  unfold compare_and_assign.
  replace (List.length pre =? last _) with false
    by (symmetry; apply Nat.eqb_neq; lia).
  reflexivity.
Qed.

Lemma advance_comment_without_newline_witness :
  advance_comment (chars "r ; to the end") 2 = Ret (true, 14).
Proof.
  apply (advance_comment_without_newline (chars "r ") (chars " to the end")).
  repeat constructor.
Defined.

Lemma advance_newline_at (pre rest : list ascii) nl :
  is_cr_char nl || is_lf_char nl = true ->
  advance_newline (pre ++ nl :: rest) (List.length pre) =
  (true,
   List.length pre +
   match rest with
   | ch :: _ => if is_cr_char nl && is_lf_char ch then 2 else 1
   | [] => 1
   end).
Proof.
  intros Hnl. unfold advance_newline.
  replace (S (List.length pre)) with (List.length pre + 1) by lia.
  rewrite (nth_error_length_app pre (nl :: rest) 1).
  replace (nth_error (pre ++ nl :: rest) (List.length pre)) with (Some nl)
    by (rewrite <- (Nat.add_0_r (List.length pre)), nth_error_length_app; reflexivity).
  cbn [nth_error].
  destruct (is_cr_char nl) eqn:Hcr.
  - destruct rest as [|ch rest]; cbn [nth_error andb].
    + f_equal.
    + destruct (is_lf_char ch); f_equal; lia.
  - cbn [orb] in Hnl. rewrite Hnl.
    destruct rest; cbn [andb]; f_equal.
Qed.

(** Where a comment stands in the input, a semicolon, a run of characters
    other than CR and LF, and a line end, [advance_comment] returns true with
    the cursor after the line end (CR LF counting as one). *)
Lemma advance_comment_recognizes (pre body rest : list ascii) (nl : ascii) :
  Forall (fun ch => is_cr_char ch = false /\ is_lf_char ch = false) body ->
  is_cr_char nl || is_lf_char nl = true ->
  let s := pre ++ ";"%char :: body ++ nl :: rest in
  let p := List.length pre + 1 + List.length body +
           match rest with
           | ch :: _ => if is_cr_char nl && is_lf_char ch then 2 else 1
           | [] => 1
           end in
  advance_comment s (List.length pre) = Ret (true, p).
Proof.
  intros Hbody Hnl s p.
  { assert (Hlast : last s =
                    List.length pre + 1 + List.length body + 1 + List.length rest).
    { unfold last, s. rewrite length_app. cbn [List.length].
      rewrite length_app. cbn [List.length]. lia. }
    unfold advance_comment.
    replace (List.length pre =? last s) with false
      by (symmetry; apply Nat.eqb_neq; lia).
    unfold deref, s.
    rewrite <- (Nat.add_0_r (List.length pre)) at 1.
    rewrite nth_error_length_app. cbn [nth_error res_bind].
    change (Ascii.eqb ";" ";") with true. cbn [negb].
    unfold advance_while.
    replace (S (List.length pre)) with (List.length pre + 1) by lia.
    rewrite skipn_length_app_plus. cbn [skipn].
    rewrite advance_while_from_stop.
    2:{ eapply Forall_impl; [|exact Hbody]. intros ch [Hcr Hlf]. now rewrite Hcr, Hlf. }
    2:{ now rewrite Hnl. }
    fold s.
    replace (List.length pre + 1 + List.length body =? last s) with false
      by (symmetry; apply Nat.eqb_neq; lia).
    cbn [negb]. unfold s.
    replace (pre ++ ";"%char :: body ++ nl :: rest)
      with ((pre ++ ";"%char :: body) ++ nl :: rest)
      by (rewrite <- app_assoc; reflexivity).
    replace (List.length pre + 1 + List.length body)
      with (List.length (pre ++ ";"%char :: body))
      by (rewrite length_app; cbn [List.length]; lia).
    rewrite advance_newline_at by assumption. cbn [snd].
    unfold compare_and_assign.
    rewrite length_app. cbn [List.length].
    match goal with |- context [?a =? ?b] =>
      replace (a =? b) with false
        by (symmetry; apply Nat.eqb_neq; destruct rest as [|ch ?];
            [|destruct (is_cr_char nl && is_lf_char ch)]; lia)
    end.
    f_equal. f_equal. unfold p. lia. }
Qed.

(** ** Sequences of numbers *)

Lemma deref_at (pre rest : list ascii) ch :
  deref (pre ++ ch :: rest) (List.length pre) = Ret ch.
Proof.
  unfold deref. rewrite <- (Nat.add_0_r (List.length pre)), nth_error_length_app.
  reflexivity.
Qed.

Lemma last_app_cons (pre rest : list ascii) ch :
  last (pre ++ ch :: rest) = List.length pre + S (List.length rest).
Proof. unfold last. rewrite length_app. reflexivity. Qed.

Lemma number_kind_class s ch :
  number_kind s ch =
  match digit_class ch with
  | Some (f, flag) => Some (advance_chars s f, f, flag)
  | None => None
  end.
Proof.
  unfold number_kind, digit_class.
  destruct (Ascii.eqb ch "x"); [reflexivity|].
  destruct (Ascii.eqb ch "d"); [reflexivity|].
  destruct (Ascii.eqb ch "b"); reflexivity.
Qed.

Lemma digit_class_not_dot k f flag : digit_class k = Some (f, flag) -> f "."%char = false.
Proof.
  unfold digit_class.
  destruct (Ascii.eqb k "x"); [intros H; inversion H; reflexivity|].
  destruct (Ascii.eqb k "d"); [intros H; inversion H; reflexivity|].
  destruct (Ascii.eqb k "b"); intros H; inversion H; reflexivity.
Qed.

Lemma skipn_cons s : forall p (ch : ascii) rest,
  skipn p s = ch :: rest ->
  nth_error s p = Some ch /\ skipn (S p) s = rest /\ p < last s.
Proof.
  unfold last.
  induction s as [|c s' IH]; intros p ch rest H.
  - destruct p; discriminate.
  - destruct p as [|p].
    + inversion H; subst. cbn. repeat split; lia.
    + cbn [skipn] in H. destruct (IH p ch rest H) as (Hn & Hs & Hl).
      cbn [nth_error List.length]. repeat split; [assumption | assumption | lia].
Qed.

Lemma skipn_app_run s run : forall p (rest : list ascii),
  skipn p s = run ++ rest -> skipn (p + List.length run) s = rest.
Proof.
  induction run as [|c run IH]; intros p rest H.
  - now rewrite Nat.add_0_r.
  - cbn [app] in H. apply skipn_cons in H as (_ & H & _).
    cbn [List.length]. rewrite Nat.add_succ_r. apply (IH (S p)). exact H.
Qed.

Lemma deref_skipn s p ch rest : skipn p s = ch :: rest -> deref s p = Ret ch.
Proof.
  intros H. apply skipn_cons in H as (H & _). unfold deref. now rewrite H.
Qed.

(** A digit run is taken whole when a character outside the class
    follows it. *)
Lemma advance_chars_run s f p (run rest : list ascii) ch :
  is_run f run ->
  f ch = false ->
  skipn p s = run ++ ch :: rest ->
  advance_chars s f p = (true, p + List.length run).
Proof.
  intros [Hne Hrun] Hch Hs.
  unfold advance_chars, advance_while.
  rewrite Hs, advance_while_from_stop by assumption.
  unfold compare_and_assign.
  destruct run as [|c run]; [contradiction|]. cbn [List.length].
  replace (p =? _) with false by (symmetry; apply Nat.eqb_neq; lia).
  reflexivity.
Qed.

Lemma dotted_then_stop f runs ch rest :
  f "."%char = false -> f ch = false ->
  exists ch' rest', dotted runs ++ ch :: rest = ch' :: rest' /\ f ch' = false.
Proof.
  intros Hdot Hch. destruct runs as [|run runs]; cbn [dotted app]; eauto.
Qed.

Lemma events_call {C} (cx : observer C) e st answer st' :
  call cx e st = Ret (answer, st') ->
  answer = fst (notify cx e (ctx st)) /\ trace st' = trace st ++ [(e, answer)].
Proof.
  unfold call. destruct (notify cx e (ctx st)) as [a c]. intros H.
  inversion H; subst. split; reflexivity.
Qed.

(** A context that accepts the callback answers true and the call is
    logged. *)
Lemma call_accepted {C} (cx : observer C) e st :
  fst (notify cx e (ctx st)) = true ->
  exists st', call cx e st = Ret (true, st') /\ events st' = events st ++ [e].
Proof.
  unfold call, events. destruct (notify cx e (ctx st)) as [a c]. cbn [fst].
  intros ->. eexists. split; [reflexivity|].
  cbn [trace]. rewrite map_app. reflexivity.
Qed.

(** The loop over the dotted runs: it calls [next_number] on each run and
    exits, still successful, on the character after the last run. *)
Lemma number_sequence_runs {C} (cx : observer C) s f flag ch rest :
  (forall e c, is_number e = true -> fst (notify cx e c) = true) ->
  f "."%char = false -> f ch = false -> ch <> "."%char ->
  forall runs p fuel st,
    Forall (is_run f) runs ->
    List.length runs < fuel ->
    skipn p s = dotted runs ++ ch :: rest ->
    exists st',
      number_sequence s cx fuel (advance_chars s f) f flag true p st =
      Ret (Some (true, p + List.length (dotted runs)), st') /\
      events st' ++ [ev_last_number flag (p + List.length (dotted runs))
                       (p + List.length (dotted runs))] =
      events st ++ next_number_events flag p runs.
Proof.
  intros Hcx Hdot Hch Hne.
  induction runs as [|run runs IH]; intros p fuel st Hruns Hfuel Hs.
  - destruct fuel as [|fuel]; [inversion Hfuel|].
    cbn [dotted app] in Hs.
    cbn [dotted number_sequence List.length next_number_events].
    unfold bind, lift. rewrite (deref_skipn _ _ _ _ Hs). cbn [res_bind fst snd].
    replace (Ascii.eqb ch ".") with false
      by (symmetry; apply Ascii.eqb_neq; assumption).
    cbn [negb]. rewrite Nat.add_0_r. eexists; split; reflexivity.
  - destruct fuel as [|fuel]; [inversion Hfuel|].
    inversion Hruns as [|? ? Hrun Hrest]; subst.
    cbn [dotted app] in Hs. rewrite <- app_assoc in Hs.
    destruct (skipn_cons _ _ _ _ Hs) as (_ & Hs1 & _).
    destruct (dotted_then_stop f runs ch rest Hdot Hch) as (ch' & rest' & Htail & Hch').
    pose proof Hs1 as Hs2. rewrite Htail in Hs2.
    pose proof (skipn_app_run _ _ _ _ Hs1) as Hs3.
    destruct Hrun as [Hnonempty Hall].
    destruct run as [|d run]; [contradiction|].
    inversion Hall as [|? ? Hd Hall']; subst.
    cbn [number_sequence].
    unfold bind at 1. unfold lift at 1.
    rewrite (deref_skipn _ _ _ _ Hs). cbn [res_bind fst snd].
    change (Ascii.eqb "." ".") with true. cbn [negb].
    unfold bind at 1. unfold lift at 1.
    rewrite (deref_skipn _ _ _ _ Hs1). cbn [res_bind fst snd]. rewrite Hd. cbn [negb].
    rewrite (advance_chars_run s f (S p) (d :: run) rest' ch')
      by (first [split; [discriminate | assumption] | assumption]).
    cbn [negb]. unfold bind at 1. cbn [and_call].
    destruct (call_accepted cx
                (ev_next_number flag (S p) (S p + List.length (d :: run))) st)
      as (st1 & Hcall & Hev1).
    { apply Hcx. reflexivity. }
    rewrite Hcall. cbn [res_bind fst snd].
    destruct (IH (S p + List.length (d :: run)) fuel st1 Hrest) as (st' & Hrun & Hev).
    { cbn [List.length] in Hfuel. lia. }
    { exact Hs3. }
    exists st'.
    assert (Hlen : S p + List.length (d :: run) + List.length (dotted runs) =
                   p + List.length (dotted ((d :: run) :: runs))).
    { cbn [dotted List.length]. rewrite length_app. cbn [List.length]. lia. }
    rewrite <- Hlen. split; [exact Hrun|].
    rewrite Hev, Hev1, <- app_assoc. reflexivity.
Qed.

Lemma dotted_length runs : List.length runs <= List.length (dotted runs).
Proof.
  induction runs as [|run runs IH]; cbn [dotted List.length]; [lia|].
  rewrite length_app. lia.
Qed.

(** C7. On the rule "r = %d48.49.50" the numbers are reported as
    [first_number] on "48", [next_number] on "49" and on "50", and
    [last_number] on the empty span where the sequence ends. In general,
    where the input holds a percent sign, a radix letter, a digit run and one
    or more runs each after a dot, followed by a character that ends the
    sequence, [advance_number] succeeds and, the context accepting the number
    callbacks, calls [first_number] on the first run, [next_number] on each
    later run in order, and at last [last_number] on an empty span. *)
Theorem advance_number_sequence :
  (exists st,
      advance_rulelist number_rule accept_all 0 start = Ret (true, 16, st) /\
      filter is_number (events st) =
        [ev_first_number decimal 6 8; ev_next_number decimal 9 11;
         ev_next_number decimal 12 14; ev_last_number decimal 14 14] /\
      span number_rule 6 8 = chars "48" /\
      span number_rule 9 11 = chars "49" /\
      span number_rule 12 14 = chars "50" /\
      span number_rule 14 14 = []) /\
  (forall C (cx : observer C) st s pos k f flag first_run runs ch rest,
      digit_class k = Some (f, flag) ->
      is_run f first_run ->
      Forall (is_run f) runs ->
      runs <> [] ->
      f ch = false ->
      ch <> "."%char ->
      skipn pos s = "%"%char :: k :: first_run ++ dotted runs ++ ch :: rest ->
      (forall e c, is_number e = true -> fst (notify cx e c) = true) ->
      let p := S (S pos) + List.length first_run in
      exists st',
        advance_number s cx pos st = Ret (true, p + List.length (dotted runs), st') /\
        events st' =
          events st ++ ev_first_number flag (S (S pos)) p :: next_number_events flag p runs).
Proof.
  split.
  { eexists. split; [vm_compute; reflexivity|]. repeat split. }
  intros C cx st s pos k f flag first_run runs ch rest
         Hk Hfirst Hruns Hsome Hch Hne Hs Hcx p.
  pose proof (digit_class_not_dot _ _ _ Hk) as Hdot.
  destruct (skipn_cons _ _ _ _ Hs) as (_ & Hs1 & Hlt0).
  destruct (skipn_cons _ _ _ _ Hs1) as (_ & Hs2 & Hlt1).
  pose proof (skipn_app_run _ _ _ _ Hs2) as Hs3. fold p in Hs3.
  destruct runs as [|run runs]; [contradiction|].
  assert (Hlt2 : S (S pos) < last s).
  { destruct Hfirst as [Hnonempty _]. destruct first_run; [contradiction|].
    apply skipn_cons in Hs2. tauto. }
  assert (Hlt3 : p < last s).
  { cbn [dotted app] in Hs3. apply skipn_cons in Hs3. tauto. }
  assert (Hfuel : List.length (run :: runs) < S (last s - p)).
  { pose proof (dotted_length (run :: runs)) as Hd.
    pose proof (f_equal (@List.length ascii) Hs3) as Hl.
    unfold last in *. rewrite length_skipn, length_app in Hl. lia. }
  unfold advance_number.
  replace (pos =? last s) with false by (symmetry; apply Nat.eqb_neq; lia).
  unfold bind at 1. unfold lift at 1.
  rewrite (deref_skipn _ _ _ _ Hs). cbn [res_bind fst snd].
  change (Ascii.eqb "%" "%") with true. cbn [negb].
  replace (S pos =? last s) with false by (symmetry; apply Nat.eqb_neq; lia).
  unfold bind at 1. unfold lift at 1.
  rewrite (deref_skipn _ _ _ _ Hs1). cbn [res_bind fst snd].
  rewrite number_kind_class, Hk.
  replace (S (S pos) =? last s) with false by (symmetry; apply Nat.eqb_neq; lia).
  rewrite (advance_chars_run s f (S (S pos)) first_run
             (run ++ dotted runs ++ ch :: rest) "."%char Hfirst Hdot)
    by (rewrite Hs2; cbn [dotted app]; rewrite <- app_assoc; reflexivity).
  cbn [negb]. fold p.
  destruct (call_accepted cx (ev_first_number flag (S (S pos)) p) st)
    as (st0 & Hcall0 & Hev0).
  { apply Hcx. reflexivity. }
  unfold bind at 1. rewrite Hcall0. cbn [res_bind fst snd].
  replace (p =? last s) with false by (symmetry; apply Nat.eqb_neq; lia).
  cbn [negb].
  pose proof Hs3 as Hs4. cbn [dotted app] in Hs4.
  unfold bind at 1. unfold lift at 1.
  rewrite (deref_skipn _ _ _ _ Hs4). cbn [res_bind fst snd].
  change (Ascii.eqb "." "-") with false. change (Ascii.eqb "." ".") with true.
  cbv iota.
  destruct (number_sequence_runs cx s f flag ch rest Hcx Hdot Hch Hne
              (run :: runs) p (S (last s - p)) st0 Hruns Hfuel Hs3)
    as (st1 & Hseq & Hev1).
  unfold bind at 1. rewrite Hseq. cbn [res_bind fst snd and_call].
  destruct (call_accepted cx
              (ev_last_number flag (p + List.length (dotted (run :: runs)))
                 (p + List.length (dotted (run :: runs)))) st1)
    as (st2 & Hcall2 & Hev2).
  { apply Hcx. reflexivity. }
  unfold bind at 1. rewrite Hcall2. cbn [res_bind fst snd].
  exists st2. split.
  - unfold ret, commit, compare_and_assign.
    replace (pos =? p + List.length (dotted (run :: runs))) with false
      by (symmetry; apply Nat.eqb_neq; unfold p; lia).
    reflexivity.
  - rewrite Hev2, Hev1, Hev0, <- app_assoc. reflexivity.
Qed.

Lemma advance_number_sequence_witness :
  exists st',
    advance_number number_rule accept_all 4 start = Ret (true, 14, st') /\
    events st' =
      [ev_first_number decimal 6 8; ev_next_number decimal 9 11;
       ev_next_number decimal 12 14; ev_last_number decimal 14 14].
Proof.
  destruct advance_number_sequence as [_ Hgeneral].
  apply (Hgeneral unit accept_all start number_rule 4 "d"%char is_digit_char decimal
           (chars "48") [chars "49"; chars "50"] "013"%char (chars LF)).
  - reflexivity.
  - split; [discriminate | repeat constructor].
  - repeat constructor; discriminate.
  - discriminate.
  - reflexivity.
  - discriminate.
  - reflexivity.
  - reflexivity.
Defined.

(** ** Brackets *)

Lemma bracket_eqb_eq a b : bracket_eqb a b = true <-> a = b.
Proof.
  split.
  - destruct a, b; cbn; intros H; try discriminate; try reflexivity.
    apply andb_true_iff in H as [H Hi]. apply andb_true_iff in H as [Hf Hl].
    apply Nat.eqb_eq in Hf, Hl. apply Bool.eqb_prop in Hi. congruence.
  - intros <-. destruct a; cbn; try reflexivity.
    rewrite !Nat.eqb_refl, Bool.eqb_reflx. reflexivity.
Qed.

Lemma bracket_eqb_refl a : bracket_eqb a a = true.
Proof. now apply bracket_eqb_eq. Qed.

Lemma nesting_app es1 : forall es2 open,
  nesting open (es1 ++ es2) =
  match nesting open es1 with
  | Some open' => nesting open' es2
  | None => None
  end.
Proof.
  induction es1 as [|e es1 IH]; intros es2 open; cbn [app nesting].
  - reflexivity.
  - destruct (begins e); [apply IH|].
    destruct (ends e) as [[b _]|]; [|apply IH].
    destruct open as [|b' open]; [reflexivity|].
    destruct (bracket_eqb b b'); [apply IH | reflexivity].
Qed.

(** Brackets that were open before do not matter to what is opened and
    closed later. *)
Lemma nesting_frame es : forall open open' base,
  nesting open es = Some open' ->
  nesting (open ++ base) es = Some (open' ++ base).
Proof.
  induction es as [|e es IH]; intros open open' base H; cbn [nesting] in *.
  - inversion H; reflexivity.
  - destruct (begins e) as [b|].
    + apply (IH (b :: open)). exact H.
    + destruct (ends e) as [[b _]|]; [|now apply IH].
      destruct open as [|b' open]; [discriminate|]. cbn [app].
      destruct (bracket_eqb b b'); [now apply IH | discriminate].
Qed.

Lemma well_bracketed_neutral delta : well_bracketed (map fst delta) <-> neutral delta.
Proof.
  split.
  - intros H open. apply (nesting_frame _ [] [] open) in H. exact H.
  - intros H. apply H.
Qed.



Lemma neutral_nil : neutral [].
Proof. intros open. reflexivity. Qed.

Lemma neutral_app d1 d2 : neutral d1 -> neutral d2 -> neutral (d1 ++ d2).
Proof.
  intros H1 H2 open. rewrite map_app, nesting_app, H1. apply H2.
Qed.

(** A callback that is neither a [begin_*] nor an [end_*]. *)
Lemma neutral_leaf e answer : begins e = None -> ends e = None -> neutral [(e, answer)].
Proof.
  intros Hb He open. cbn [map fst nesting]. now rewrite Hb, He.
Qed.

Lemma neutral_wrap e0 a0 inner e1 a1 b flag :
  begins e0 = Some b -> ends e1 = Some (b, flag) -> neutral inner ->
  neutral ((e0, a0) :: inner ++ [(e1, a1)]).
Proof.
  intros Hb He Hin open.
  assert (Hb1 : begins e1 = None) by (destruct e1; try discriminate; reflexivity).
  cbn [map fst nesting]. rewrite Hb, map_app, nesting_app, Hin.
  cbn [map fst nesting]. rewrite Hb1, He, bracket_eqb_refl. reflexivity.
Qed.


(** ** Runs *)

Lemma holds_ret {C A} (st : run_state C) (a : A) (Q : A -> run_state C -> Prop) :
  Q a st -> holds st (ret a) Q.
Proof. exact (fun H => H). Qed.

Lemma holds_bind {C A B} (st : run_state C) (c : M C A) (k : A -> M C B) Q :
  holds st c (fun a st1 => holds st1 (k a) Q) -> holds st (bind c k) Q.
Proof.
  unfold holds, bind. destruct (c st) as [[a st1]| |]; cbn; auto.
Qed.

Lemma holds_weaken {C A} (st : run_state C) (c : M C A) (Q Q' : A -> run_state C -> Prop) :
  holds st c Q -> (forall a st', Q a st' -> Q' a st') -> holds st c Q'.
Proof.
  unfold holds. destruct (c st) as [[a st1]| |]; auto.
Qed.

Lemma holds_lift {C A} (st : run_state C) (c : res A) (Q : A -> run_state C -> Prop) :
  returns c (fun a => Q a st) -> holds st (lift c) Q.
Proof.
  unfold holds, returns, lift. destruct c; cbn; auto.
Qed.

Lemma holds_call {C} (cx : observer C) e (st : run_state C) (Q : bool -> run_state C -> Prop) :
  (forall answer c, Q answer {| trace := trace st ++ [(e, answer)]; ctx := c |}) ->
  holds st (call cx e) Q.
Proof.
  unfold holds, call. intros H. destruct (notify cx e (ctx st)). apply H.
Qed.

Lemma holds_inv {C A} (st : run_state C) (c : M C A) Q a st' :
  holds st c Q -> c st = Ret (a, st') -> Q a st'.
Proof. unfold holds. intros H E. now rewrite E in H. Qed.

Lemma returns_weaken {A} (c : res A) (Q Q' : A -> Prop) :
  returns c Q -> (forall a, Q a -> Q' a) -> returns c Q'.
Proof. unfold returns. destruct c; auto. Qed.

Lemma returns_bind {A B} (c : res A) (k : A -> res B) Q :
  returns c (fun a => returns (k a) Q) -> returns (res_bind c k) Q.
Proof. unfold returns, res_bind. destruct c; auto. Qed.

Lemma returns_deref s p (Q : ascii -> Prop) :
  (forall ch, nth_error s p = Some ch -> p < last s -> Q ch) -> returns (deref s p) Q.
Proof.
  intros H. unfold returns. destruct (deref s p) as [ch| |] eqn:E.
  - apply deref_inv in E as [E1 E2]. now apply H.
  - exact I.
  - unfold deref in E. destruct (nth_error s p); discriminate.
Qed.

(** ** The token advancers: where they leave the cursor *)

Lemma always_returns {A} (c : res A) Q : always c Q -> returns c Q.
Proof. intros (a & -> & H). exact H. Qed.

Lemma compare_and_assign_stepped s pos p :
  pos <= p <= last s -> stepped s pos (compare_and_assign pos p).
Proof.
  unfold stepped, compare_and_assign. intros H.
  destruct (pos =? p) eqn:E; cbn [fst snd];
    [apply Nat.eqb_eq in E | apply Nat.eqb_neq in E];
    repeat split; intros; try discriminate; lia.
Qed.

Lemma commit_stepped s success pos p :
  pos <= p <= last s -> stepped s pos (commit success pos p).
Proof.
  intros H. unfold commit. destruct success.
  - now apply compare_and_assign_stepped.
  - unfold stepped; cbn [fst snd]. repeat split; intros; try discriminate; lia.
Qed.

Lemma advance_chars_stepped s f pos :
  pos <= last s -> stepped s pos (advance_chars s f pos).
Proof.
  intros H. apply compare_and_assign_stepped. now apply advance_while_bounds.
Qed.

Lemma nth_error_in_range s p (ch : ascii) : nth_error s p = Some ch -> p < last s.
Proof. intros H. unfold last. apply nth_error_Some. congruence. Qed.

Lemma advance_newline_stepped s pos :
  pos <= last s -> stepped s pos (advance_newline s pos).
Proof.
  intros H. unfold advance_newline, stepped.
  destruct (nth_error s pos) as [ch|] eqn:E0.
  - apply nth_error_in_range in E0.
    destruct (is_cr_char ch).
    + destruct (nth_error s (S pos)) as [ch'|] eqn:E1.
      * apply nth_error_in_range in E1.
        destruct (is_lf_char ch'); cbn [fst snd];
          repeat split; intros; try discriminate; lia.
      * cbn [fst snd]. repeat split; intros; try discriminate; lia.
    + destruct (is_lf_char ch); cbn [fst snd];
        repeat split; intros; try discriminate; lia.
  - cbn [fst snd]. repeat split; intros; try discriminate; lia.
Qed.

Lemma deref_always s p (Q : ascii -> Prop) :
  p < last s -> (forall ch, nth_error s p = Some ch -> Q ch) -> always (deref s p) Q.
Proof.
  intros Hp H. destruct (deref_ok s p Hp) as (ch & Hd & Hn). exists ch. auto.
Qed.

Lemma always_bind {A B} (c : res A) (k : A -> res B) Q :
  always c (fun a => always (k a) Q) -> always (res_bind c k) Q.
Proof. intros (a & -> & H). exact H. Qed.

Lemma always_ret {A} (a : A) (Q : A -> Prop) : Q a -> always (Ret a) Q.
Proof. intros H. exists a. auto. Qed.

Lemma always_weaken {A} (c : res A) (Q Q' : A -> Prop) :
  always c Q -> (forall a, Q a -> Q' a) -> always c Q'.
Proof. intros (a & -> & H) HQ. exists a. auto. Qed.

Lemma stepped_stay s pos : pos <= last s -> stepped s pos (false, pos).
Proof.
  intros H. unfold stepped; cbn [fst snd]. repeat split; intros; try discriminate; lia.
Qed.

Lemma advance_comment_stepped s pos :
  pos <= last s -> always (advance_comment s pos) (stepped s pos).
Proof.
  intros H. unfold advance_comment.
  destruct (pos =? last s) eqn:E; [apply always_ret, stepped_stay; assumption|].
  apply Nat.eqb_neq in E.
  apply always_bind, deref_always; [lia|]. intros ch _.
  destruct (negb (Ascii.eqb ch ";")); [apply always_ret, stepped_stay; assumption|].
  apply always_ret, compare_and_assign_stepped.
  pose proof (advance_while_bounds s
                (fun ch => negb (is_cr_char ch || is_lf_char ch)) (S pos)
                ltac:(lia)) as Hw.
  destruct (negb (_ =? last s)); [|lia].
  pose proof (advance_newline_stepped s _ (proj2 Hw)) as (Hn & _). lia.
Qed.

Lemma advance_comment_newline_stepped s pos :
  pos <= last s -> always (advance_comment_newline s pos) (stepped s pos).
Proof.
  intros H. unfold advance_comment_newline.
  pose proof (advance_newline_stepped s pos H) as (Hb & Ht & Hf).
  destruct (advance_newline s pos) as [nl p]. cbn [fst snd] in *.
  destruct nl.
  - specialize (Ht eq_refl). apply always_ret. unfold stepped; cbn [fst snd].
    repeat split; intros; try discriminate; lia.
  - rewrite (Hf eq_refl). now apply advance_comment_stepped.
Qed.

Lemma advance_comment_whitespace_stepped s pos :
  pos <= last s -> always (advance_comment_whitespace s pos) (stepped s pos).
Proof.
  intros H. unfold advance_comment_whitespace.
  destruct (pos =? last s) eqn:E; [apply always_ret, stepped_stay; assumption|].
  apply Nat.eqb_neq in E.
  apply always_bind, deref_always; [lia|]. intros ch _.
  destruct (is_whitespace_char ch).
  { apply always_ret, compare_and_assign_stepped. lia. }
  apply always_bind.
  eapply always_weaken; [apply advance_comment_newline_stepped; assumption|].
  intros [cnl p] (Hb & Ht & Hf). cbn [fst snd] in *.
  destruct cnl; [|apply always_ret, stepped_stay; assumption].
  destruct (p =? last s) eqn:E'; [apply always_ret, stepped_stay; assumption|].
  apply Nat.eqb_neq in E'.
  apply always_bind, deref_always; [lia|]. intros ch' _.
  destruct (negb (is_whitespace_char ch')); [apply always_ret, stepped_stay; assumption|].
  apply always_ret, compare_and_assign_stepped. lia.
Qed.

(** The bound on the rounds of the loop over [c-wsp] is never reached. *)
Lemma skip_comment_whitespace_from_always s : forall fuel p,
  p <= last s -> last s - p < fuel ->
  always (skip_comment_whitespace_from s fuel p) (fun q => p <= q <= last s).
Proof.
  induction fuel as [|fuel IH]; intros p Hp Hfuel; [lia|].
  cbn [skip_comment_whitespace_from].
  apply always_bind.
  eapply always_weaken; [apply advance_comment_whitespace_stepped; assumption|].
  intros [more q] (Hb & Ht & Hf). cbn [fst snd] in *.
  destruct more.
  - specialize (Ht eq_refl).
    eapply always_weaken; [apply IH; lia|]. cbn beta. intros; lia.
  - apply always_ret. lia.
Qed.

Lemma skip_comment_whitespace_always s p :
  p <= last s -> always (skip_comment_whitespace s p) (fun q => p <= q <= last s).
Proof.
  intros H. apply skip_comment_whitespace_from_always; [assumption|lia].
Qed.

Lemma linear_whitespace_from_bounds s : forall fuel p,
  p <= last s -> p <= linear_whitespace_from s fuel p <= last s.
Proof.
  induction fuel as [|fuel IH]; intros p Hp; cbn [linear_whitespace_from]; [lia|].
  destruct (nth_error s p) as [ch|] eqn:E; [|lia].
  apply nth_error_in_range in E.
  destruct (is_whitespace_char ch).
  { specialize (IH (S p) ltac:(lia)). lia. }
  pose proof (advance_newline_stepped s p Hp) as (Hb & _).
  destruct (advance_newline s p) as [nl q]. cbn [fst snd] in Hb.
  destruct nl; [|lia].
  destruct (nth_error s q) as [ch'|] eqn:E'; [|lia].
  apply nth_error_in_range in E'.
  destruct (is_whitespace_char ch'); [|lia].
  specialize (IH (S q) ltac:(lia)). lia.
Qed.

Lemma advance_linear_whitespace_stepped s pos :
  pos <= last s -> stepped s pos (advance_linear_whitespace s pos).
Proof.
  intros H. apply compare_and_assign_stepped. now apply linear_whitespace_from_bounds.
Qed.

Lemma skip_linear_whitespace_from_always s : forall fuel p,
  p <= last s -> last s - p < fuel ->
  always (skip_linear_whitespace_from s fuel p) (fun q => p <= q <= last s).
Proof.
  induction fuel as [|fuel IH]; intros p Hp Hfuel; [lia|].
  cbn [skip_linear_whitespace_from].
  pose proof (advance_linear_whitespace_stepped s p Hp) as (Hb & Ht & Hf).
  destruct (advance_linear_whitespace s p) as [more q]. cbn [fst snd] in *.
  destruct more.
  - specialize (Ht eq_refl).
    eapply always_weaken; [apply IH; lia|]. cbn beta. intros; lia.
  - apply always_ret. lia.
Qed.

Lemma skip_linear_whitespace_always s p :
  p <= last s -> always (skip_linear_whitespace s p) (fun q => p <= q <= last s).
Proof.
  intros H. apply skip_linear_whitespace_from_always; [assumption|lia].
Qed.

Lemma advance_rulename_helper_stepped s pos first_pos last_pos :
  pos < last s ->
  always (advance_rulename_helper s pos first_pos last_pos)
    (fun x => let '(moved, pos', _, _) := x in stepped s pos (moved, pos')).
Proof.
  intros H. unfold advance_rulename_helper.
  apply always_bind, deref_always; [assumption|]. intros ch _.
  destruct (negb (is_alpha_char ch)); [apply always_ret, stepped_stay; lia|].
  pose proof (advance_while_bounds s
                (fun ch => is_alpha_char ch || is_digit_char ch || Ascii.eqb ch "-")
                (S pos) ltac:(lia)) as Hw.
  pose proof (compare_and_assign_stepped s pos _ ltac:(split; [|exact (proj2 Hw)]; lia))
    as Hc.
  destruct (compare_and_assign pos _) as [moved pos'].
  apply always_ret. exact Hc.
Qed.

Lemma advance_defined_as_stepped s pos :
  pos <= last s ->
  always (advance_defined_as s pos)
    (fun x => let '(moved, pos', _) := x in stepped s pos (moved, pos')).
Proof.
  intros H. unfold advance_defined_as.
  destruct (pos =? last s) eqn:E; [apply always_ret, stepped_stay; assumption|].
  apply always_bind.
  eapply always_weaken; [apply skip_comment_whitespace_always; assumption|].
  intros p Hp. cbn beta in Hp.
  destruct (p =? last s) eqn:E'; [apply always_ret, stepped_stay; assumption|].
  apply Nat.eqb_neq in E'.
  apply always_bind, deref_always; [lia|]. intros ch _.
  destruct (Ascii.eqb ch "="); [|apply always_ret, stepped_stay; assumption].
  apply always_bind.
  apply always_weaken with (Q := fun x => S p <= fst x <= last s).
  { destruct (negb (S p =? last s)) eqn:E''.
    - apply negb_true_iff, Nat.eqb_neq in E''.
      apply always_bind, deref_always; [lia|]. intros ch' _.
      destruct (Ascii.eqb ch' "/"); apply always_ret; cbn [fst]; lia.
    - apply always_ret; cbn [fst]; lia. }
  intros [p1 incremental] Hp1. cbn [fst] in Hp1.
  apply always_bind.
  eapply always_weaken; [apply skip_comment_whitespace_always; lia|].
  intros p2 Hp2. cbn beta in Hp2.
  pose proof (compare_and_assign_stepped s pos p2 ltac:(lia)) as Hc.
  destruct (compare_and_assign pos p2) as [moved pos'].
  apply always_ret. exact Hc.
Qed.

Lemma repeat_scan_bounds s pos :
  pos < last s ->
  always (repeat_scan s pos) (fun x => let '(p, _, _, _) := x in pos <= p <= last s).
Proof.
  intros H. unfold repeat_scan.
  apply always_bind, deref_always; [assumption|]. intros ch _.
  pose proof (advance_chars_stepped s is_digit_char pos ltac:(lia)) as (Hb & _).
  fold (advance_digit_chars s pos) in Hb.
  destruct (is_digit_char ch).
  - destruct (snd (advance_digit_chars s pos) =? last s) eqn:E.
    + apply always_ret. exact Hb.
    + apply Nat.eqb_neq in E.
      apply always_bind, deref_always; [lia|]. intros ch' _.
      destruct (Ascii.eqb ch' "*"); [|apply always_ret; exact Hb].
      destruct (S (snd (advance_digit_chars s pos)) =? last s) eqn:E'.
      * apply always_ret. lia.
      * apply Nat.eqb_neq in E'.
        apply always_bind, deref_always; [lia|]. intros d _.
        destruct (is_digit_char d); [|apply always_ret; lia].
        pose proof (advance_chars_stepped s is_digit_char
                      (S (snd (advance_digit_chars s pos))) ltac:(lia)) as (Hb' & _).
        apply always_ret. fold (advance_digit_chars s (S (snd (advance_digit_chars s pos)))) in Hb'. lia.
  - apply always_bind, deref_always; [lia|]. intros ch' _.
    destruct (Ascii.eqb ch' "*"); [|apply always_ret; lia].
    destruct (S pos =? last s) eqn:E'.
    + apply always_ret. lia.
    + apply Nat.eqb_neq in E'.
      apply always_bind, deref_always; [lia|]. intros d _.
      destruct (is_digit_char d); [|apply always_ret; lia].
      pose proof (advance_chars_stepped s is_digit_char (S pos) ltac:(lia)) as (Hb' & _).
      apply always_ret. fold (advance_digit_chars s (S pos)) in Hb'. lia.
Qed.

Lemma quoted_string_from_bounds rest : forall first_pos p length max_length q,
  quoted_string_from rest first_pos p length max_length = inr q ->
  p <= q <= p + List.length rest.
Proof.
  induction rest as [|ch rest IH]; intros first_pos p len max_length q H;
    cbn [quoted_string_from List.length] in *.
  - inversion H; lia.
  - destruct (is_dquote_char ch); [inversion H; lia|].
    destruct (negb (is_visible_char ch || is_space_char ch)); [discriminate|].
    destruct (len =? max_length)%Z; [discriminate|].
    apply IH in H. lia.
Qed.

(** ** The advancers: cursor and callbacks on return *)

Lemma grown_refl {C} (st : run_state C) : grown st st.
Proof. exists []. split; [now rewrite app_nil_r | apply neutral_nil]. Qed.

Lemma grown_trans {C} (st1 st2 st3 : run_state C) :
  grown st1 st2 -> grown st2 st3 -> grown st1 st3.
Proof.
  intros (d1 & H1 & N1) (d2 & H2 & N2). exists (d1 ++ d2). split.
  - now rewrite H2, H1, app_assoc.
  - now apply neutral_app.
Qed.

Lemma grown_call {C} (st st1 : run_state C) e answer (c : C) :
  begins e = None -> ends e = None -> grown st st1 ->
  grown st {| trace := trace st1 ++ [(e, answer)]; ctx := c |}.
Proof.
  intros Hb He H. apply (grown_trans _ _ _ H).
  exists [(e, answer)]. split; [reflexivity | now apply neutral_leaf].
Qed.

(** The log when the bracket opened by [e0] is closed. *)
Lemma bracketed_intro {C} (st st_mid : run_state C) e0 a0 (c0 : C) e1 success a1 (c1 : C) b :
  begins e0 = Some b -> ends (e1 success) = Some (b, success) ->
  grown {| trace := trace st ++ [(e0, a0)]; ctx := c0 |} st_mid ->
  exists delta,
    trace {| trace := trace st_mid ++ [(e1 success, a1)]; ctx := c1 |} =
      trace st ++ delta /\
    bracketed_by e0 e1 (a1 && success) delta.
Proof.
  intros Hb He (inner & Ht & Hn). cbn [trace] in *.
  exists ((e0, a0) :: inner ++ [(e1 success, a1)]). split.
  - rewrite Ht, <- !app_assoc. reflexivity.
  - exists a0, inner, success, a1. split; [reflexivity|]. split; [|reflexivity].
    now apply well_bracketed_neutral.
Qed.

Lemma bracketed_by_neutral e0 e1 r delta b :
  begins e0 = Some b -> (forall success, ends (e1 success) = Some (b, success)) ->
  bracketed_by e0 e1 r delta -> neutral delta.
Proof.
  intros Hb He (a0 & inner & success & a1 & -> & Hw & _).
  apply (neutral_wrap _ _ _ _ _ b success); auto.
  now apply well_bracketed_neutral.
Qed.

Lemma post_quiet {C} s pos (st st' : run_state C) r pos' :
  pos <= pos' <= last s -> grown st st' -> post s (quiet pos) pos st (r, pos') st'.
Proof. intros Hb Hg. split; assumption. Qed.

Lemma post_moving {C} s pos (st st' : run_state C) r pos' :
  pos <= pos' <= last s -> (r = true -> pos < pos') -> grown st st' ->
  post s (moving pos) pos st (r, pos') st'.
Proof.
  intros Hb Hm (delta & Ht & Hn). split; [assumption|].
  exists delta. repeat split; assumption.
Qed.

Lemma post_moving_quiet {C} s pos (st st' : run_state C) x :
  post s (moving pos) pos st x st' -> post s (quiet pos) pos st x st'.
Proof.
  intros (Hb & delta & Ht & Hn & _). split; [assumption|]. exists delta. auto.
Qed.

Lemma post_quiet_inv {C} s pos (st st' : run_state C) x :
  post s (quiet pos) pos st x st' -> pos <= snd x <= last s /\ grown st st'.
Proof. intros H. exact H. Qed.

Lemma commit_bounds s success pos p :
  pos <= p <= last s -> pos <= snd (commit success pos p) <= last s.
Proof. intros H. now destruct (commit_stepped s success pos p H). Qed.

Lemma post_commit_quiet {C} s pos p success (st st' : run_state C) :
  pos <= p <= last s -> grown st st' ->
  post s (quiet pos) pos st (commit success pos p) st'.
Proof.
  intros Hb Hg. destruct (commit success pos p) as [r pos'] eqn:E.
  apply post_quiet; [|assumption].
  pose proof (commit_bounds s success pos p Hb) as H. now rewrite E in H.
Qed.

Lemma post_compare_quiet {C} s pos p (st st' : run_state C) :
  pos <= p <= last s -> grown st st' ->
  post s (quiet pos) pos st (compare_and_assign pos p) st'.
Proof. apply (post_commit_quiet s pos p true). Qed.

Lemma post_compare_moving {C} s pos p (st st' : run_state C) :
  pos <= p <= last s -> grown st st' ->
  post s (moving pos) pos st (compare_and_assign pos p) st'.
Proof.
  intros Hb Hg. pose proof (compare_and_assign_stepped s pos p Hb) as (H1 & H2 & _).
  destruct (compare_and_assign pos p) as [r pos']. cbn [fst snd] in *.
  now apply post_moving.
Qed.

Ltac nat_facts :=
  repeat match goal with
    | H : (_ =? _) = false |- _ => apply Nat.eqb_neq in H
    | H : (_ =? _) = true |- _ => apply Nat.eqb_eq in H
    | H : negb _ = true |- _ => apply negb_true_iff in H
    | H : negb _ = false |- _ => apply negb_false_iff in H
    | H : stepped _ _ _ |- _ => destruct H as (? & ? & ?)
    | H : true = true -> _ |- _ => specialize (H eq_refl)
    | H : false = false -> _ |- _ => specialize (H eq_refl)
    | H : true = false -> _ |- _ => clear H
    | H : false = true -> _ |- _ => clear H
    | H : _ /\ _ |- _ => destruct H
    end.

(** The cursor is where it may be. *)
Ltac bounds := nat_facts; cbn [fst snd] in *; subst; lia.

(** What is known of the result of a token advancer is noted before the
    result is taken apart. *)
Ltac note x :=
  lazymatch x with
  | advance_chars ?s ?f ?p =>
      try (assert (stepped s p (advance_chars s f p))
            by (apply advance_chars_stepped; bounds))
  | advance_newline ?s ?p =>
      try (assert (stepped s p (advance_newline s p))
            by (apply advance_newline_stepped; bounds))
  | advance_linear_whitespace ?s ?p =>
      try (assert (stepped s p (advance_linear_whitespace s p))
            by (apply advance_linear_whitespace_stepped; bounds))
  | compare_and_assign ?pos ?p =>
      try (match goal with
           | |- context [last ?s] =>
               assert (stepped s pos (compare_and_assign pos p))
                 by (apply compare_and_assign_stepped; bounds)
           end)
  | _ => idtac
  end.

(** The log has grown by leaf callbacks and by what the calls made so far
    have added. *)
Ltac grow :=
  repeat first
    [ assumption
    | apply grown_refl
    | apply grown_call; [reflexivity | reflexivity | ]
    | eapply grown_trans; [ | eassumption ] ].

(** A call of an advancer whose properties are known; extended below as
    the advancers are dealt with. *)
Ltac wp_known := fail.

(** One step of a run: the head of the computation is taken apart. A test
    on a value that is known is decided, not analysed. *)
Ltac wp_step :=
  lazymatch goal with
  | |- holds _ (ret _) _ => apply holds_ret
  | |- holds _ (bind _ _) _ => apply holds_bind
  | |- holds _ (lift (deref _ _)) _ => apply holds_lift, returns_deref; intros ? ? ?
  | |- holds _ (call _ _) _ => apply holds_call; intros ? ?
  | |- holds _ (and_call _ _ _) _ => unfold and_call at 1
  | |- holds _ (fail_with _ _ _ _) _ => unfold fail_with
  | |- holds _ (and_then _ _ _) _ => unfold and_then at 1; cbv beta
  | |- holds _ (or_else _ _ _) _ => unfold or_else at 1; cbv beta
  | |- holds _ (if ?b then _ else _) _ =>
      first [ progress (cbn [negb]; cbv beta iota) | destruct b eqn:? ]
  | |- holds _ (match number_kind ?s ?ch with _ => _ end) _ =>
      rewrite (number_kind_class s ch); destruct (digit_class ch) as [[? ?]|]
  | |- holds _ (match ?x with _ => _ end) _ =>
      first [ progress (cbv beta iota) | note x; destruct x eqn:? ]
  | |- holds _ _ _ => wp_known
  end.

(** The goals that are left when the run has returned. *)
Ltac wp_done :=
  lazymatch goal with
  | |- post _ (quiet _) _ _ (commit _ _ _) _ => apply post_commit_quiet; [bounds | grow]
  | |- post _ (quiet _) _ _ (compare_and_assign _ _) _ =>
      apply post_compare_quiet; [bounds | grow]
  | |- post _ (moving _) _ _ (compare_and_assign _ _) _ =>
      apply post_compare_moving; [bounds | grow]
  | |- post _ (quiet _) _ _ (_, _) _ => apply post_quiet; [bounds | grow]
  | |- post _ (moving _) _ _ (_, _) _ =>
      apply post_moving; [bounds | intros; first [discriminate | bounds] | grow]
  end.

Ltac wp := repeat wp_step; try wp_done.

Lemma advance_prose_sound {C} s (cx : observer C) pos :
  pos <= last s -> sound s quiet (advance_prose s cx) pos.
Proof.
  intros Hpos st. unfold advance_prose. cbv zeta.
  pose proof (advance_while_bounds s is_prose_value_char (S pos)) as Hw.
  wp.
Qed.

Lemma number_sequence_sound {C} s (cx : observer C) f flag :
  forall fuel success p (st0 st : run_state C),
    last s - p < fuel -> grown st0 st ->
    holds st (number_sequence s cx fuel (advance_chars s f) f flag success p)
      (fun r st' =>
         grown st0 st' /\
         match r with Some (_, q) => p <= q <= last s | None => True end).
Proof.
  induction fuel as [|fuel IH]; intros success p st0 st Hfuel Hg; [lia|].
  cbn [number_sequence].
  repeat wp_step; try (split; [grow | first [exact I | bounds]]).
  all: eapply holds_weaken; [apply (IH _ _ st0); [bounds | grow]|].
  all: intros [[success' q']|] st' [Hg' Hq]; (split; [assumption|]);
    first [exact I | bounds].
Qed.

Ltac wp_known ::=
  lazymatch goal with
  | |- holds ?st (number_sequence ?s ?cx _ (advance_chars ?s ?f) ?f ?flag _ _) _ =>
      eapply holds_weaken;
      [ apply (number_sequence_sound s cx f flag _ _ _ st st); [bounds | apply grown_refl]
      | intros [[? ?]|] ? [? ?] ]
  end.

Lemma advance_number_sound {C} s (cx : observer C) pos :
  pos <= last s -> sound s quiet (advance_number s cx) pos.
Proof.
  intros Hpos st. unfold advance_number. cbv zeta.
  wp.
Qed.
Lemma advance_quoted_string_sound {C} s (cx : observer C) pos :
  pos <= last s -> sound s quiet (advance_quoted_string s cx) pos.
Proof.
  intros Hpos st. unfold advance_quoted_string. cbv zeta.
  wp_step; [wp|]. wp_step. wp_step.
  wp_step; [wp|]. wp_step; [wp|].
  unfold holds at 1. cbv beta.
  destruct (quoted_string_from _ _ _ _ _) as [[ec near_pos]|p] eqn:Hq.
  - change (holds st (fail_with cx ec near_pos pos) (post s (quiet pos) pos st)). wp.
  - apply quoted_string_from_bounds in Hq.
    rewrite length_skipn_last in Hq.
    match goal with |- match ?c st with _ => _ end =>
      change (holds st c (post s (quiet pos) pos st)) end.
    wp.
Qed.

Lemma advance_repeat_sound {C} s (cx : observer C) pos :
  pos <= last s -> sound s quiet (advance_repeat s cx) pos.
Proof.
  intros Hpos st. unfold advance_repeat. cbv zeta.
  wp_step; [wp|]. wp_step.
  apply holds_lift, always_returns.
  eapply always_weaken; [apply repeat_scan_bounds; bounds|].
  intros [[[p last_from] first_to] last_to] Hp. cbn [fst snd].
  wp.
Qed.

Lemma advance_rulename_sound {C} s (cx : observer C) pos :
  pos <= last s -> sound s quiet (advance_rulename s cx) pos.
Proof.
  intros Hpos st. unfold advance_rulename.
  wp_step; [wp|]. wp_step.
  apply holds_lift, always_returns.
  eapply always_weaken; [apply advance_rulename_helper_stepped; bounds|].
  intros [[[moved pos'] first_pos] last_pos] Hstep. cbn [fst snd].
  wp.
Qed.
(** *** The repetition driver *)

Lemma repetition_loop_sound {C} s (op : advancer C) high pos0 :
  (forall q, pos0 <= q <= last s -> sound s moving op q) ->
  forall fuel count p (st0 st : run_state C),
    pos0 <= p <= last s -> last s - p < fuel -> grown st0 st ->
    holds st (repetition_loop fuel op high count p)
      (fun x st' => p <= snd x <= last s /\ grown st0 st').
Proof.
  intros Hop.
  induction fuel as [|fuel IH]; intros count p st0 st Hp Hfuel Hg.
  - lia.
  - cbn [repetition_loop].
    destruct (high <=? count)%Z; [apply holds_ret; cbn [snd]; split; [lia | assumption]|].
    apply holds_bind.
    eapply holds_weaken; [apply (Hop p); lia|].
    intros [success p'] st1 (Hb & delta & Ht & Hn & Hm). cbn [fst snd] in *.
    assert (Hg1 : grown st0 st1)
      by (apply (grown_trans _ _ _ Hg); exists delta; split; assumption).
    destruct success.
    + specialize (Hm eq_refl).
      eapply holds_weaken; [apply (IH _ p' st0); [lia | lia | assumption]|].
      intros x st' [Hx Hg']. split; [lia | assumption].
    + apply holds_ret. cbn [snd]. split; [lia | assumption].
Qed.

Lemma advance_repetition_by_range_sound {C} s range (op : advancer C) pos :
  pos <= last s ->
  (forall q, pos <= q <= last s -> sound s moving op q) ->
  sound s quiet (fun pos => advance_repetition_by_range s pos range op) pos.
Proof.
  intros Hpos Hop st. unfold advance_repetition_by_range.
  destruct range as [low high].
  wp_step; [wp|]. wp_step.
  eapply holds_weaken;
    [apply (repetition_loop_sound s op high pos Hop _ _ _ st st);
     [lia | lia | apply grown_refl]|].
  intros [count p] st' [Hp Hg]. cbn [fst snd] in *.
  wp.
Qed.

(** *** The advancers of a level *)

(** A call of an advancer known to be sound. *)
Ltac use_sound H :=
  eapply holds_weaken;
  [ apply H; bounds
  | intros [? ?] ? [? ?]%post_quiet_inv ].

(** A call of a token advancer that always returns. *)
Ltac use_always H :=
  apply holds_lift, always_returns;
  eapply always_weaken; [ apply H; bounds | ].

Ltac wp_known ::=
  lazymatch goal with
  | |- holds ?st (number_sequence ?s ?cx _ (advance_chars ?s ?f) ?f ?flag _ _) _ =>
      eapply holds_weaken;
      [ apply (number_sequence_sound s cx f flag _ _ _ st st); [bounds | apply grown_refl]
      | intros [[? ?]|] ? [? ?] ]
  | |- holds _ (lift (skip_comment_whitespace ?s ?p)) _ =>
      use_always (skip_comment_whitespace_always s p); intros ? ?; cbv beta in *
  | |- holds _ (lift (skip_linear_whitespace ?s ?p)) _ =>
      use_always (skip_linear_whitespace_always s p); intros ? ?; cbv beta in *
  | |- holds _ (lift (advance_comment_whitespace ?s ?p)) _ =>
      use_always (advance_comment_whitespace_stepped s p); intros [? ?] ?
  | |- holds _ (lift (advance_comment_newline ?s ?p)) _ =>
      use_always (advance_comment_newline_stepped s p); intros [? ?] ?
  | |- holds _ (lift (advance_rulename_helper ?s ?p ?a ?b)) _ =>
      use_always (advance_rulename_helper_stepped s p a b);
      intros [[[? ?] ?] ?] ?; cbv beta iota in *
  | |- holds _ (lift (advance_defined_as ?s ?p)) _ =>
      use_always (advance_defined_as_stepped s p);
      intros [[? ?] ?] ?; cbv beta iota in *
  | |- holds _ (advance_prose ?s ?cx ?p) _ => use_sound (advance_prose_sound s cx p)
  | |- holds _ (advance_number ?s ?cx ?p) _ => use_sound (advance_number_sound s cx p)
  | |- holds _ (advance_quoted_string ?s ?cx ?p) _ =>
      use_sound (advance_quoted_string_sound s cx p)
  | |- holds _ (advance_repeat ?s ?cx ?p) _ => use_sound (advance_repeat_sound s cx p)
  | |- holds _ (advance_rulename ?s ?cx ?p) _ => use_sound (advance_rulename_sound s cx p)
  | |- holds _ (advance_repetition_by_range ?s ?p ?range ?op) _ =>
      eapply holds_weaken;
      [ apply (advance_repetition_by_range_sound s range op p);
        [ bounds | unfold sound; intros ? ? ?; cbv beta ]
      | intros [? ?] ? [? ?]%post_quiet_inv ]
  | |- holds _ (?a ?p) _ =>
      match goal with
      | H : forall q, _ -> sound _ quiet a q |- _ => use_sound (H p)
      end
  end.

Lemma post_unopened {C} s e0 e1 pos (st : run_state C) :
  pos <= last s -> post s (may_bracket e0 e1 pos) pos st (false, pos) st.
Proof.
  intros H. split; [cbn [snd]; lia|]. exists []. split; [now rewrite app_nil_r|].
  left. split; reflexivity.
Qed.

Lemma post_bracketed {C} s pos (st st_mid : run_state C) e0 a0 (c0 : C) e1 success a1
    (c1 : C) b pos' :
  begins e0 = Some b -> ends (e1 success) = Some (b, success) ->
  pos <= pos' <= last s ->
  grown {| trace := trace st ++ [(e0, a0)]; ctx := c0 |} st_mid ->
  post s (may_bracket e0 e1 pos) pos st (a1 && success, pos')
    {| trace := trace st_mid ++ [(e1 success, a1)]; ctx := c1 |}.
Proof.
  intros Hb He Hpos Hg. split; [exact Hpos|].
  destruct (bracketed_intro st st_mid e0 a0 c0 e1 success a1 c1 b Hb He Hg)
    as (delta & Ht & Hbr).
  exists delta. split; [exact Ht|]. right. exact Hbr.
Qed.

Lemma may_bracket_quiet {C} s e0 e1 b (a : advancer C) pos :
  begins e0 = Some b -> (forall success, ends (e1 success) = Some (b, success)) ->
  sound s (may_bracket e0 e1) a pos -> sound s quiet a pos.
Proof.
  intros Hb He H st. eapply holds_weaken; [apply H|].
  intros x st' (Hpos & delta & Ht & [[-> _] | Hbr]); (split; [exact Hpos|]).
  - exists []. split; [exact Ht | apply neutral_nil].
  - exists delta. split; [exact Ht|]. eapply bracketed_by_neutral; eauto.
Qed.

Ltac wp_bracket e0 e1 :=
  lazymatch goal with
  | |- post _ _ _ _ (false, _) _ => apply post_unopened; bounds
  | |- post ?s _ ?pos ?st _ _ =>
      eapply (post_bracketed s pos st _ e0 _ _ e1);
      [ reflexivity | reflexivity | bounds | grow ]
  end.

Section LevelSound.

Context {C : Type} (s : list ascii) (cx : observer C).
Variable alternation_inside : advancer C.
Variable pos0 : nat.
Hypothesis inside_sound :
  forall q, pos0 < q <= last s -> sound s quiet alternation_inside q.

Lemma advance_group_or_option_with_sound pos :
  pos0 <= pos <= last s ->
  sound s quiet (advance_group_or_option_with s alternation_inside) pos.
Proof.
  intros Hpos st. unfold advance_group_or_option_with. cbv zeta. wp.
Qed.

Lemma advance_group_with_brackets pos :
  pos0 <= pos <= last s ->
  sound s (may_bracket ev_begin_group ev_end_group)
    (advance_group_with s cx alternation_inside) pos.
Proof.
  intros Hpos st. unfold advance_group_with. cbv zeta.
  pose proof advance_group_or_option_with_sound as Hinner.
  repeat wp_step; wp_bracket ev_begin_group ev_end_group.
Qed.

Lemma advance_option_with_brackets pos :
  pos0 <= pos <= last s ->
  sound s (may_bracket ev_begin_option ev_end_option)
    (advance_option_with s cx alternation_inside) pos.
Proof.
  intros Hpos st. unfold advance_option_with. cbv zeta.
  pose proof advance_group_or_option_with_sound as Hinner.
  repeat wp_step; wp_bracket ev_begin_option ev_end_option.
Qed.

Lemma advance_group_with_sound pos :
  pos0 <= pos <= last s ->
  sound s quiet (advance_group_with s cx alternation_inside) pos.
Proof.
  intros Hpos. eapply may_bracket_quiet; [| |apply advance_group_with_brackets; exact Hpos];
    reflexivity.
Qed.

Lemma advance_option_with_sound pos :
  pos0 <= pos <= last s ->
  sound s quiet (advance_option_with s cx alternation_inside) pos.
Proof.
  intros Hpos. eapply may_bracket_quiet; [| |apply advance_option_with_brackets; exact Hpos];
    reflexivity.
Qed.

Lemma advance_element_with_sound pos :
  pos0 <= pos <= last s ->
  sound s quiet (advance_element_with s cx alternation_inside) pos.
Proof.
  intros Hpos st. unfold advance_element_with.
  pose proof advance_group_with_sound as Hgroup.
  pose proof advance_option_with_sound as Hoption.
  wp.
Qed.

Lemma advance_repetition_with_brackets pos :
  pos0 <= pos <= last s ->
  sound s (may_bracket ev_begin_repetition ev_end_repetition)
    (advance_repetition_with s cx alternation_inside) pos.
Proof.
  intros Hpos st. unfold advance_repetition_with.
  pose proof advance_element_with_sound as Helement.
  repeat wp_step; wp_bracket ev_begin_repetition ev_end_repetition.
Qed.

Lemma advance_repetition_with_sound pos :
  pos0 <= pos <= last s ->
  sound s quiet (advance_repetition_with s cx alternation_inside) pos.
Proof.
  intros Hpos.
  eapply may_bracket_quiet; [| |apply advance_repetition_with_brackets; exact Hpos];
    reflexivity.
Qed.

Lemma advance_concatenation_with_brackets pos :
  pos0 <= pos <= last s ->
  sound s (may_bracket ev_begin_concatenation ev_end_concatenation)
    (advance_concatenation_with s cx alternation_inside) pos.
Proof.
  intros Hpos st. unfold advance_concatenation_with. cbv zeta.
  pose proof advance_repetition_with_sound as Hrepetition.
  repeat wp_step; try wp_done; wp_bracket ev_begin_concatenation ev_end_concatenation.
Qed.

Lemma advance_concatenation_with_sound pos :
  pos0 <= pos <= last s ->
  sound s quiet (advance_concatenation_with s cx alternation_inside) pos.
Proof.
  intros Hpos.
  eapply may_bracket_quiet; [| |apply advance_concatenation_with_brackets; exact Hpos];
    reflexivity.
Qed.

Lemma advance_alternation_with_brackets pos :
  pos0 <= pos <= last s ->
  sound s (may_bracket ev_begin_alternation ev_end_alternation)
    (advance_alternation_with s cx alternation_inside) pos.
Proof.
  intros Hpos st. unfold advance_alternation_with. cbv zeta.
  pose proof advance_concatenation_with_sound as Hconcatenation.
  repeat wp_step; try wp_done; wp_bracket ev_begin_alternation ev_end_alternation.
Qed.

Lemma advance_alternation_with_sound pos :
  pos0 <= pos <= last s ->
  sound s quiet (advance_alternation_with s cx alternation_inside) pos.
Proof.
  intros Hpos.
  eapply may_bracket_quiet; [| |apply advance_alternation_with_brackets; exact Hpos];
    reflexivity.
Qed.

End LevelSound.
(** *** Any depth of brackets *)

(** A bound on the depth that exceeds what is left of the input is
    enough. *)
Lemma advance_alternation_at_brackets {C} s (cx : observer C) : forall depth pos,
  pos <= last s -> last s - pos < depth ->
  sound s (may_bracket ev_begin_alternation ev_end_alternation)
    (advance_alternation_at s cx depth) pos.
Proof.
  induction depth as [|depth IH]; intros pos Hpos Hdepth; [lia|].
  cbn [advance_alternation_at].
  apply (advance_alternation_with_brackets s cx _ pos); [|lia].
  intros q Hq.
  eapply may_bracket_quiet; [| |apply IH; lia]; reflexivity.
Qed.

Lemma advance_alternation_brackets {C} s (cx : observer C) pos :
  pos <= last s ->
  sound s (may_bracket ev_begin_alternation ev_end_alternation)
    (advance_alternation s cx) pos.
Proof.
  intros Hpos. apply advance_alternation_at_brackets; [assumption | lia].
Qed.

Lemma advance_alternation_sound {C} s (cx : observer C) pos :
  pos <= last s -> sound s quiet (advance_alternation s cx) pos.
Proof.
  intros Hpos.
  eapply may_bracket_quiet; [| |apply advance_alternation_brackets; exact Hpos];
    reflexivity.
Qed.

Lemma advance_alternation_inside {C} s (cx : observer C) :
  forall q, 0 < q <= last s -> sound s quiet (advance_alternation s cx) q.
Proof. intros q Hq. apply advance_alternation_sound. lia. Qed.

Lemma advance_group_or_option_sound {C} s (cx : observer C) pos :
  pos <= last s -> sound s quiet (advance_group_or_option s cx) pos.
Proof.
  intros Hpos.
  apply (advance_group_or_option_with_sound s _ 0 (advance_alternation_inside s cx)). lia.
Qed.

Lemma advance_group_brackets {C} s (cx : observer C) pos :
  pos <= last s ->
  sound s (may_bracket ev_begin_group ev_end_group) (advance_group s cx) pos.
Proof.
  intros Hpos.
  apply (advance_group_with_brackets s cx _ 0 (advance_alternation_inside s cx)). lia.
Qed.

Lemma advance_option_brackets {C} s (cx : observer C) pos :
  pos <= last s ->
  sound s (may_bracket ev_begin_option ev_end_option) (advance_option s cx) pos.
Proof.
  intros Hpos.
  apply (advance_option_with_brackets s cx _ 0 (advance_alternation_inside s cx)). lia.
Qed.

Lemma advance_element_sound {C} s (cx : observer C) pos :
  pos <= last s -> sound s quiet (advance_element s cx) pos.
Proof.
  intros Hpos.
  apply (advance_element_with_sound s cx _ 0 (advance_alternation_inside s cx)). lia.
Qed.

Lemma advance_repetition_brackets {C} s (cx : observer C) pos :
  pos <= last s ->
  sound s (may_bracket ev_begin_repetition ev_end_repetition)
    (advance_repetition s cx) pos.
Proof.
  intros Hpos.
  apply (advance_repetition_with_brackets s cx _ 0 (advance_alternation_inside s cx)). lia.
Qed.

Lemma advance_concatenation_brackets {C} s (cx : observer C) pos :
  pos <= last s ->
  sound s (may_bracket ev_begin_concatenation ev_end_concatenation)
    (advance_concatenation s cx) pos.
Proof.
  intros Hpos.
  apply (advance_concatenation_with_brackets s cx _ 0 (advance_alternation_inside s cx)).
  lia.
Qed.

(** *** Rules and the rule list *)

Lemma advance_elements_sound {C} s (cx : observer C) pos :
  pos <= last s -> sound s quiet (advance_elements s cx) pos.
Proof.
  intros Hpos st. unfold advance_elements. cbv zeta.
  pose proof (advance_alternation_sound s cx) as Halternation.
  wp.
Qed.

Lemma commit_moved success pos p :
  pos < p -> commit success pos p = (success, if success then p else pos).
Proof.
  intros H. unfold commit, compare_and_assign. destruct success; [|reflexivity].
  replace (pos =? p) with false by (symmetry; apply Nat.eqb_neq; lia). reflexivity.
Qed.

Lemma post_bracketed_rule {C} s pos (st st_mid : run_state C) first_pos last_pos
    incremental a0 (c0 : C) success a1 (c1 : C) p :
  pos < p <= last s ->
  grown {| trace := trace st ++ [(ev_begin_rule first_pos last_pos incremental, a0)];
           ctx := c0 |} st_mid ->
  post s (may_bracket_rule pos) pos st (commit (a1 && success) pos p)
    {| trace := trace st_mid ++
                [(ev_end_rule first_pos last_pos incremental success, a1)];
       ctx := c1 |}.
Proof.
  intros Hp Hg. rewrite commit_moved by lia.
  destruct (post_bracketed s pos st st_mid
              (ev_begin_rule first_pos last_pos incremental) a0 c0
              (ev_end_rule first_pos last_pos incremental) success a1 c1
              (in_rule first_pos last_pos incremental)
              (if a1 && success then p else pos) eq_refl eq_refl)
    as (Hb & delta & Ht & Hbr); [destruct (a1 && success); lia | exact Hg |].
  split; [exact Hb|]. exists delta. split; [exact Ht|].
  destruct Hbr as [[-> Hr] | Hbr]; [left; auto | right; eauto].
Qed.

Lemma post_unopened_rule {C} s pos (st : run_state C) :
  pos <= last s -> post s (may_bracket_rule pos) pos st (false, pos) st.
Proof.
  intros H. split; [cbn [snd]; lia|]. exists []. split; [now rewrite app_nil_r|].
  left. split; reflexivity.
Qed.

Lemma advance_rule_brackets {C} s (cx : observer C) pos :
  pos <= last s -> sound s may_bracket_rule (advance_rule s cx) pos.
Proof.
  intros Hpos st. unfold advance_rule. cbv zeta.
  pose proof (advance_elements_sound s cx) as Helements.
  repeat wp_step;
    lazymatch goal with
    | |- post _ _ _ _ (false, _) _ => apply post_unopened_rule; bounds
    | |- post _ _ _ _ (commit _ _ _) _ => eapply post_bracketed_rule; [bounds | grow]
    end.
Qed.

Lemma may_bracket_rule_quiet {C} s (a : advancer C) pos :
  sound s may_bracket_rule a pos -> sound s quiet a pos.
Proof.
  intros H st. eapply holds_weaken; [apply H|].
  intros x st' (Hpos & delta & Ht & [[-> _] | (f & l & i & Hbr)]); (split; [exact Hpos|]).
  - exists []. split; [exact Ht | apply neutral_nil].
  - exists delta. split; [exact Ht|].
    apply (bracketed_by_neutral (ev_begin_rule f l i) (ev_end_rule f l i) (fst x) delta
             (in_rule f l i)); [reflexivity | reflexivity | exact Hbr].
Qed.

Lemma advance_rule_sound {C} s (cx : observer C) pos :
  pos <= last s -> sound s quiet (advance_rule s cx) pos.
Proof. intros Hpos. now apply may_bracket_rule_quiet, advance_rule_brackets. Qed.

Lemma advance_rulelist_brackets {C} s (cx : observer C) pos :
  pos <= last s ->
  sound s (may_bracket ev_begin_document ev_end_document) (advance_rulelist s cx) pos.
Proof.
  intros Hpos st. unfold advance_rulelist. cbv zeta.
  pose proof (advance_rule_sound s cx) as Hrule.
  repeat wp_step; try wp_done; wp_bracket ev_begin_document ev_end_document.
Qed.
Lemma advance_defined_as_run_sound {C} s pos :
  pos <= last s -> sound s quiet (@advance_defined_as_run C s) pos.
Proof.
  intros Hpos st. unfold advance_defined_as_run. wp.
Qed.




(** ** The bounds of the model

    The bounds put on the loops and on the depth of the brackets are never
    reached: from a cursor within the input every advancer returns, or
    reads through the end iterator. *)
Lemma sound_within_bounds {C} s Q (a : advancer C) pos (st : run_state C) :
  sound s Q a pos -> a pos st <> OutOfFuel.
Proof.
  intros H E. specialize (H st). unfold holds in H. now rewrite E in H.
Qed.

Lemma advancers_within_bounds {C} (s : list ascii) (cx : observer C) a pos st :
  In a (structural_advancers s cx) -> pos <= last s -> a pos st <> OutOfFuel.
Proof.
  intros Ha Hpos. apply (sound_within_bounds s quiet).
  cbn [structural_advancers In] in Ha.
  repeat (destruct Ha as [<- | Ha]);
    [ now apply advance_prose_sound
    | now apply advance_number_sound
    | now apply advance_quoted_string_sound
    | now apply advance_repeat_sound
    | now apply advance_rulename_sound
    | now apply advance_element_sound
    | eapply may_bracket_quiet; [| |now apply advance_repetition_brackets]; reflexivity
    | eapply may_bracket_quiet; [| |now apply advance_concatenation_brackets]; reflexivity
    | now apply advance_alternation_sound
    | eapply may_bracket_quiet; [| |now apply advance_group_brackets]; reflexivity
    | eapply may_bracket_quiet; [| |now apply advance_option_brackets]; reflexivity
    | now apply advance_defined_as_run_sound
    | now apply advance_elements_sound
    | now apply advance_rule_sound
    | eapply may_bracket_quiet; [| |now apply advance_rulelist_brackets]; reflexivity
    | contradiction ].
Qed.

(** ** Rollback where the cursor is committed *)

Lemma commit_rolled_back {C} success pos p (st' : run_state C) :
  rolled_back pos (commit success pos p) st'.
Proof.
  unfold rolled_back, commit, compare_and_assign.
  destruct success; [destruct (pos =? p)|]; cbn [fst snd]; intros H;
    first [reflexivity | discriminate].
Qed.

Ltac wp_back :=
  lazymatch goal with
  | |- rolled_back _ (commit _ _ _) _ => apply commit_rolled_back
  | |- rolled_back _ (compare_and_assign ?pos ?p) _ =>
      apply (commit_rolled_back true pos p)
  | |- rolled_back _ (_, _) _ =>
      unfold rolled_back; cbn [fst snd]; intros;
      first [reflexivity | discriminate | bounds]
  end.

(** X19. An advancer that commits its cursor with [compare_and_assign]
    returns failure with the caller's cursor as it was, whatever the context
    answers: [advance_prose], [advance_number], [advance_quoted_string],
    [advance_repeat], [advance_defined_as], [advance_elements] and
    [advance_rule]. *)
Lemma committing_advancers_roll_back {C} (s : list ascii) (cx : observer C) a :
  In a (committing_advancers s cx) ->
  forall pos st pos' st',
    pos <= last s -> a pos st = Ret (false, pos', st') -> pos' = pos.
Proof.
  intros Ha pos st pos' st' Hpos E.
  assert (Hs : holds st (a pos) (rolled_back pos)).
  { cbn [committing_advancers In] in Ha.
    repeat (destruct Ha as [<- | Ha]); try contradiction.
    - unfold advance_prose. cbv zeta.
      pose proof (advance_while_bounds s is_prose_value_char (S pos)) as Hw.
      repeat wp_step; wp_back.
    - unfold advance_number. cbv zeta. repeat wp_step; wp_back.
    - unfold advance_quoted_string. cbv zeta.
      wp_step; [repeat wp_step; wp_back|]. wp_step. wp_step.
      wp_step; [repeat wp_step; wp_back|]. wp_step; [repeat wp_step; wp_back|].
      unfold holds at 1. cbv beta.
      destruct (quoted_string_from _ _ _ _ _) as [[ec near_pos]|p] eqn:Hq.
      + change (holds st (fail_with cx ec near_pos pos) (rolled_back pos)).
        repeat wp_step; wp_back.
      + match goal with |- match ?c st with _ => _ end =>
          change (holds st c (rolled_back pos)) end.
        repeat wp_step; wp_back.
    - unfold advance_repeat. cbv zeta.
      wp_step; [repeat wp_step; wp_back|]. wp_step.
      apply holds_lift, always_returns.
      eapply always_weaken; [apply repeat_scan_bounds; bounds|].
      intros [[[p last_from] first_to] last_to] Hp. cbn [fst snd].
      repeat wp_step; wp_back.
    - unfold advance_defined_as_run. repeat wp_step; wp_back.
    - unfold advance_elements. cbv zeta.
      pose proof (advance_alternation_sound s cx) as Halternation.
      repeat wp_step; wp_back.
    - unfold advance_rule. cbv zeta.
      pose proof (advance_elements_sound s cx) as Helements.
      repeat wp_step; wp_back. }
  apply (holds_inv _ _ _ _ _ Hs) in E. now apply E.
Qed.

(** The rule of scenario S4 refused by the context at its name: the cursor
    is back at the start of the rule. *)
Lemma committing_advancers_roll_back_witness :
  advance_rule number_rule refuse_rules 0 start =
    Ret (false, 0, {| trace := [(ev_begin_rule 0 1 false, false);
                                (ev_end_rule 0 1 false false, true)];
                      ctx := tt |}) /\
  0 = 0.
Proof.
  assert (E : advance_rule number_rule refuse_rules 0 start =
              Ret (false, 0, {| trace := [(ev_begin_rule 0 1 false, false);
                                          (ev_end_rule 0 1 false false, true)];
                                ctx := tt |}))
    by (vm_compute; reflexivity).
  split; [exact E|].
  apply (committing_advancers_roll_back number_rule refuse_rules
           (advance_rule number_rule refuse_rules) ltac:(cbn; tauto) 0 start 0 _
           ltac:(cbn; lia) E).
Defined.

(** * Further properties of the code *)

Local Open Scope Z_scope.

(** ** [to_decimal_number]: the whole range of [long] *)

Lemma decimal_value_cons ch span :
  decimal_value (ch :: span) =
  (code ch - 48) * 10 ^ Z.of_nat (List.length span) + decimal_value span.
Proof.
  unfold decimal_value at 1. cbn [fold_left]. rewrite decimal_value_from. ring.
Qed.

Lemma decimal_value_nonneg span :
  Forall (fun ch => is_decimal_digit ch = true) span -> 0 <= decimal_value span.
Proof.
  induction 1 as [|ch span Hch _ IH].
  - reflexivity.
  - rewrite decimal_value_cons.
    destruct (digit_of_digit ch Hch) as [_ Hr].
    assert (0 < 10 ^ Z.of_nat (List.length span)) by (apply Z.pow_pos_nonneg; lia).
    nia.
Qed.

Lemma to_decimal_loop_exact span : forall acc,
  Forall (fun ch => is_decimal_digit ch = true) span ->
  0 <= acc ->
  acc * 10 ^ Z.of_nat (List.length span) + decimal_value span <= Long.max ->
  to_decimal_loop acc span =
  (acc * 10 ^ Z.of_nat (List.length span) + decimal_value span, true).
Proof.
  induction span as [|ch span IH]; intros acc Hd Hacc Hb.
  - cbn. f_equal. unfold decimal_value. cbn. lia.
  - inversion Hd as [|? ? Hch Hrest]; subst.
    destruct (digit_of_digit ch Hch) as [Hdig Hr].
    pose proof (decimal_value_nonneg span Hrest) as Hv.
    rewrite decimal_value_cons in *.
    cbn [List.length] in *. rewrite Nat2Z.inj_succ, Z.pow_succ_r in * by lia.
    assert (Hp : 0 < 10 ^ Z.of_nat (List.length span)) by (apply Z.pow_pos_nonneg; lia).
    unfold Long.max in Hb.
    assert (Hstep : acc * 10 + (code ch - 48) <= 2 ^ 63 - 1) by nia.
    change (2 ^ 63 - 1) with 9223372036854775807 in Hstep.
    cbn [to_decimal_loop]. rewrite Hdig.
    replace ((code ch - 48 <? 0) || (9 <? code ch - 48)) with false
      by (symmetry; apply orb_false_iff; split; apply Z.ltb_ge; lia).
    rewrite cutoff_value_eq, cutoff_limit_eq.
    replace ((acc <? 922337203685477580) ||
             ((acc =? 922337203685477580) && (code ch - 48 <=? 8))) with true.
    2:{ symmetry. apply orb_true_iff.
        destruct (Z.ltb_spec acc 922337203685477580); [now left | right].
        apply andb_true_iff. split; [apply Z.eqb_eq | apply Z.leb_le]; lia. }
    unfold radix.
    rewrite (wrap_in_range (acc * 10))
      by (unfold Long.in_range, Long.min, Long.max; lia).
    rewrite wrap_in_range
      by (unfold Long.in_range, Long.min, Long.max; lia).
    rewrite IH; [f_equal; ring | assumption | lia | unfold Long.max; nia].
Qed.

(** X1. The conversion is exact on every run of decimal digits, however
    long, whose value fits a [long]: leading zeros do no harm. *)
Theorem to_decimal_number_exact span :
  Forall (fun ch => is_decimal_digit ch = true) span ->
  decimal_value span <= Long.max ->
  to_decimal_number span = (decimal_value span, true).
Proof.
  intros Hd Hv. unfold to_decimal_number.
  rewrite to_decimal_loop_exact; [f_equal; lia | assumption | lia | lia].
Qed.

Lemma to_decimal_number_exact_witness :
  to_decimal_number (chars "0000000000000000000009223372036854775807") =
  (Long.max, true).
Proof.
  apply (to_decimal_number_exact (chars "0000000000000000000009223372036854775807")).
  - repeat constructor.
  - vm_compute. discriminate.
Defined.

Lemma to_decimal_loop_result span : forall acc v ok,
  to_decimal_loop acc span = (v, ok) ->
  if ok then Forall (fun ch => is_decimal_digit ch = true) span
  else v = 0 \/ v = Long.max.
Proof.
  induction span as [|ch span IH]; intros acc v ok H; cbn [to_decimal_loop] in H.
  - inversion H; subst. constructor.
  - destruct (is_decimal_digit ch) eqn:Hch.
    + destruct ((digit_of ch <? 0) || (9 <? digit_of ch));
        [inversion H; subst; now left|].
      destruct ((acc <? cutoff_value) ||
                ((acc =? cutoff_value) && (digit_of ch <=? cutoff_limit))).
      * specialize (IH _ _ _ H). destruct ok; [constructor; assumption | assumption].
      * inversion H; subst. now right.
    + rewrite (digit_of_other ch Hch) in H. inversion H; subst. now left.
Qed.

(** X2. A conversion that reports success has read decimal digits only; one
    that reports failure returns 0 or [LONG_MAX], nothing else. *)
Theorem to_decimal_number_result span v ok :
  to_decimal_number span = (v, ok) ->
  if ok then Forall (fun ch => is_decimal_digit ch = true) span
  else v = 0 \/ v = Long.max.
Proof. apply to_decimal_loop_result. Qed.

Lemma to_decimal_number_result_witness :
  Forall (fun ch => is_decimal_digit ch = true) (chars "909") /\
  (Long.max = 0 \/ Long.max = Long.max).
Proof.
  split.
  - apply (to_decimal_number_result (chars "909") 909 true). reflexivity.
  - apply (to_decimal_number_result (chars "99999999999999999999") Long.max false).
    reflexivity.
Defined.

Local Open Scope nat_scope.

(** ** Prose values *)

(** X4. [is_prose_value_char] is the class of the grammar, [%x20-3D] and
    [%x3F-7E]: the printable characters but the closing angle, and no byte
    from 0x80 on, whether [char] is signed or not. *)
Theorem is_prose_value_char_class ch :
  is_prose_value_char ch = in_codes 32 126 ch && negb (code ch =? 62)%Z.
Proof.
  destruct ch as [[] [] [] [] [] [] [] []]; reflexivity.
Qed.

Lemma call_logged {C} (cx : observer C) e (st : run_state C) :
  call cx e st = Ret (answered cx e st, logged cx e st).
Proof.
  unfold call, logged, answered. destruct (notify cx e (ctx st)); reflexivity.
Qed.

Lemma fail_with_failed {C} (cx : observer C) ec near_pos pos (st : run_state C) :
  fail_with cx ec near_pos pos st = failed_with cx ec near_pos pos st.
Proof.
  unfold fail_with, failed_with, bind. now rewrite call_logged.
Qed.

Lemma commit_reported {C} (cx : observer C) e pos p (st : run_state C) :
  pos <> p ->
  bind (call cx e) (fun success => ret (commit success pos p)) st =
  reported cx e pos p st.
Proof.
  intros Hp. unfold bind, reported. rewrite call_logged. cbn [res_bind fst snd].
  unfold ret, commit, compare_and_assign.
  destruct (answered cx e st); [|reflexivity].
  replace (pos =? p) with false by (symmetry; apply Nat.eqb_neq; assumption).
  reflexivity.
Qed.

(** What the loop [while (p != last && f( *p)) ++p] has passed is in the
    class, and what it stops at is not. *)
Lemma advance_while_from_spec f rest : forall p,
  let q := advance_while_from f rest p in
  p <= q /\
  Forall (fun ch => f ch = true) (firstn (q - p) rest) /\
  (forall ch, nth_error rest (q - p) = Some ch -> f ch = false).
Proof.
  induction rest as [|c rest IH]; intros p; cbn [advance_while_from].
  - rewrite Nat.sub_diag. split; [lia|]. split; [constructor | intros ch H; discriminate].
  - destruct (f c) eqn:Hc.
    + destruct (IH (S p)) as (Hle & Hall & Hstop).
      set (q := advance_while_from f rest (S p)) in *.
      replace (q - p) with (S (q - S p)) by lia.
      split; [lia|]. split; [constructor; assumption | exact Hstop].
    + rewrite Nat.sub_diag. split; [lia|]. split; [constructor|].
      intros ch H. inversion H; subst. exact Hc.
Qed.

Lemma advance_while_spec s f p :
  let q := advance_while s f p in
  p <= q /\
  Forall (fun ch => f ch = true) (span s p q) /\
  (forall ch, nth_error s q = Some ch -> f ch = false).
Proof.
  unfold advance_while, span.
  destruct (advance_while_from_spec f (skipn p s) p) as (Hle & Hall & Hstop).
  split; [exact Hle|]. split; [exact Hall|].
  intros ch H. apply Hstop. rewrite nth_error_skipn.
  now replace (p + (advance_while_from f (skipn p s) p - p))
    with (advance_while_from f (skipn p s) p) by lia.
Qed.

(** X5. Where the input holds an opening angle, characters of the prose
    class and a closing angle, [advance_prose] makes the one callback
    [prose] on the span between the angles and returns the answer of the
    context, with the cursor after the closing angle when it is true. *)
Theorem advance_prose_between_angles {C} (cx : observer C) s pos body rest st :
  skipn pos s = "<"%char :: body ++ ">"%char :: rest ->
  Forall (fun ch => is_prose_value_char ch = true) body ->
  advance_prose s cx pos st =
  reported cx (ev_prose (S pos) (S pos + List.length body)) pos
    (S (S pos + List.length body)) st.
Proof.
  intros Hs Hbody.
  destruct (skipn_cons _ _ _ _ Hs) as (_ & Hs1 & Hlt).
  pose proof (skipn_app_run _ _ _ _ Hs1) as Hs2.
  destruct (skipn_cons _ _ _ _ Hs2) as (_ & _ & Hlt2).
  unfold advance_prose.
  replace (pos =? last s) with false by (symmetry; apply Nat.eqb_neq; lia).
  unfold bind at 1. unfold lift at 1.
  rewrite (deref_skipn _ _ _ _ Hs). cbn [res_bind fst snd].
  change (Ascii.eqb "<" "<") with true. cbn [negb].
  unfold advance_while. rewrite Hs1, advance_while_from_stop by (assumption || reflexivity).
  replace (S pos + List.length body =? last s) with false
    by (symmetry; apply Nat.eqb_neq; lia).
  unfold bind at 1. unfold lift at 1.
  rewrite (deref_skipn _ _ _ _ Hs2). cbn [res_bind fst snd].
  change (Ascii.eqb ">" ">") with true. cbn [negb].
  apply commit_reported. lia.
Qed.

Lemma advance_prose_between_angles_witness :
  advance_prose (chars "r = <any text>") accept_all 4 start =
  Ret (true, 14, {| trace := [(ev_prose 5 13, true)]; ctx := tt |}).
Proof.
  apply (advance_prose_between_angles accept_all (chars "r = <any text>") 4
           (chars "any text") [] start).
  - reflexivity.
  - repeat constructor.
Defined.

(** X6. Whenever [advance_prose] returns, either it has failed without a
    callback and with the cursor where it was, or it has made one callback,
    [prose], on a span of characters of the prose class that stands between
    an opening angle at the cursor and a closing angle, and it returns the
    answer to it: no error is ever reported for a prose value. *)
Theorem advance_prose_returns {C} (cx : observer C) s pos st r pos' st' :
  advance_prose s cx pos st = Ret (r, pos', st') ->
  (r = false /\ pos' = pos /\ st' = st) \/
  (exists p,
      nth_error s pos = Some "<"%char /\
      Forall (fun ch => is_prose_value_char ch = true) (span s (S pos) p) /\
      nth_error s p = Some ">"%char /\
      r = answered cx (ev_prose (S pos) p) st /\
      pos' = (if r then S p else pos) /\
      st' = logged cx (ev_prose (S pos) p) st).
Proof.
  unfold advance_prose.
  destruct (pos =? last s); [intros H; inversion H; now left|].
  unfold bind at 1. unfold lift at 1. unfold deref at 1.
  destruct (nth_error s pos) as [ch|] eqn:H0; [|discriminate].
  cbn [res_bind fst snd].
  destruct (Ascii.eqb ch "<") eqn:Hch; cbn [negb]; [|intros H; inversion H; now left].
  apply Ascii.eqb_eq in Hch. subst ch.
  destruct (advance_while_spec s is_prose_value_char (S pos)) as (Hle & Hall & _).
  set (p := advance_while s is_prose_value_char (S pos)) in *.
  destruct (p =? last s); [intros H; inversion H; now left|].
  unfold bind at 1. unfold lift at 1. unfold deref at 1.
  destruct (nth_error s p) as [ch'|] eqn:H1; [|discriminate].
  cbn [res_bind fst snd].
  destruct (Ascii.eqb ch' ">") eqn:Hch'; cbn [negb]; [|intros H; inversion H; now left].
  apply Ascii.eqb_eq in Hch'. subst ch'.
  rewrite commit_reported by lia. unfold reported.
  intros H. inversion H; subst. right. exists p. repeat split; assumption.
Qed.

Lemma advance_prose_returns_witness :
  (false = false /\ 0 = 0 /\ start = start) \/
  (exists p,
      nth_error (chars "<unclosed") 0 = Some "<"%char /\
      Forall (fun ch => is_prose_value_char ch = true) (span (chars "<unclosed") 1 p) /\
      nth_error (chars "<unclosed") p = Some ">"%char /\
      false = answered accept_all (ev_prose 1 p) start /\
      0 = (if false then S p else 0) /\
      start = logged accept_all (ev_prose 1 p) start).
Proof.
  apply (advance_prose_returns accept_all (chars "<unclosed") 0 start false 0 start).
  reflexivity.
Defined.

(** ** Quoted strings *)

Lemma quoted_string_from_body body : forall rest first_pos p len max_length,
  Forall (fun ch => quotable ch = true) body ->
  (len + Z.of_nat (List.length body) <= max_length)%Z ->
  quoted_string_from (body ++ rest) first_pos p len max_length =
  quoted_string_from rest first_pos (p + List.length body)
    (len + Z.of_nat (List.length body))%Z max_length.
Proof.
  induction body as [|c body IH]; intros rest first_pos p len max_length Hall Hlen.
  - cbn [app List.length]. now rewrite Nat.add_0_r, Z.add_0_r.
  - inversion Hall as [|? ? Hc Hbody]; subst.
    unfold quotable in Hc. apply andb_true_iff in Hc as [Hq Hv].
    apply negb_true_iff in Hq.
    cbn [List.length] in *. rewrite Nat2Z.inj_succ in *.
    cbn [app quoted_string_from]. rewrite Hq, Hv. cbn [negb].
    replace (len =? max_length)%Z with false by (symmetry; apply Z.eqb_neq; lia).
    rewrite IH by (assumption || lia). f_equal; lia.
Qed.

Lemma advance_quoted_string_opened {C} (cx : observer C) s pos tail st :
  skipn pos s = "034"%char :: tail ->
  tail <> [] ->
  advance_quoted_string s cx pos st =
  match quoted_string_from tail (S pos) (S pos) 0%Z (length_limit cx st) with
  | inl (ec, near_pos) => fail_with cx ec near_pos pos st
  | inr p =>
      (if p =? last s then fail_with cx unbalanced_quote (S pos) pos
       else bind (call cx (ev_quoted_string (S pos) p))
              (fun success => ret (commit success pos (S p)))) st
  end.
Proof.
  intros Hs Hne.
  destruct (skipn_cons _ _ _ _ Hs) as (_ & Hs1 & Hlt).
  assert (Hlt1 : S pos < last s).
  { destruct tail as [|c tail]; [contradiction|]. apply skipn_cons in Hs1. tauto. }
  unfold advance_quoted_string.
  replace (pos =? last s) with false by (symmetry; apply Nat.eqb_neq; lia).
  unfold bind at 1. unfold lift at 1.
  rewrite (deref_skipn _ _ _ _ Hs). cbn [res_bind fst snd].
  change (is_dquote_char "034") with true. cbn [negb].
  replace (S pos =? last s) with false by (symmetry; apply Nat.eqb_neq; lia).
  rewrite Hs1. reflexivity.
Qed.

(** X7. Where the input holds a quote, characters that may stand in a
    quoted string, no more than the limit in force, and a closing quote,
    [advance_quoted_string] makes the one callback [quoted_string] on the
    span between the quotes and returns the answer of the context, with the
    cursor after the closing quote when it is true; a string as long as the
    limit is accepted. *)
Theorem advance_quoted_string_between_quotes {C} (cx : observer C) s pos body rest st :
  skipn pos s = "034"%char :: body ++ "034"%char :: rest ->
  Forall (fun ch => quotable ch = true) body ->
  (Z.of_nat (List.length body) <= length_limit cx st)%Z ->
  advance_quoted_string s cx pos st =
  reported cx (ev_quoted_string (S pos) (S pos + List.length body)) pos
    (S (S pos + List.length body)) st.
Proof.
  intros Hs Hbody Hlen.
  destruct (skipn_cons _ _ _ _ Hs) as (_ & Hs1 & Hlt).
  pose proof (skipn_app_run _ _ _ _ Hs1) as Hs2.
  destruct (skipn_cons _ _ _ _ Hs2) as (_ & _ & Hlt2).
  rewrite (advance_quoted_string_opened cx s pos _ st Hs)
    by (destruct body; discriminate).
  rewrite quoted_string_from_body by (assumption || lia).
  cbn [quoted_string_from]. change (is_dquote_char "034") with true. cbv iota.
  replace (S pos + List.length body =? last s) with false
    by (symmetry; apply Nat.eqb_neq; lia).
  apply commit_reported. lia.
Qed.

Lemma advance_quoted_string_between_quotes_witness :
  advance_quoted_string (chars ("r = " ++ DQUOTE ++ "a b" ++ DQUOTE)) accept_all 4 start =
  Ret (true, 9, {| trace := [(ev_quoted_string 5 8, true)]; ctx := tt |}).
Proof.
  apply (advance_quoted_string_between_quotes accept_all
           (chars ("r = " ++ DQUOTE ++ "a b" ++ DQUOTE)) 4 (chars "a b") [] start).
  - reflexivity.
  - repeat constructor.
  - vm_compute. discriminate.
Defined.

(** X8. The three errors of a quoted string, each reported once, with
    failure and the cursor where it was. The input ends before a closing
    quote: [unbalanced_quote], at the character after the opening quote. A
    character that may not stand in a quoted string comes first:
    [bad_quoted_char], at that character. The string goes on beyond the limit
    in force: [max_length_exceeded], at the character after the opening
    quote. *)
Theorem advance_quoted_string_errors {C} (cx : observer C) s pos st :
  (forall body,
      skipn pos s = "034"%char :: body ->
      Forall (fun ch => quotable ch = true) body ->
      (Z.of_nat (List.length body) <= length_limit cx st)%Z ->
      advance_quoted_string s cx pos st =
      failed_with cx unbalanced_quote (S pos) pos st) /\
  (forall body ch rest,
      skipn pos s = "034"%char :: body ++ ch :: rest ->
      Forall (fun ch => quotable ch = true) body ->
      (Z.of_nat (List.length body) <= length_limit cx st)%Z ->
      is_dquote_char ch = false ->
      is_visible_char ch || is_space_char ch = false ->
      advance_quoted_string s cx pos st =
      failed_with cx bad_quoted_char (S pos + List.length body) pos st) /\
  (forall body ch rest,
      skipn pos s = "034"%char :: body ++ ch :: rest ->
      Forall (fun ch => quotable ch = true) body ->
      Z.of_nat (List.length body) = length_limit cx st ->
      quotable ch = true ->
      advance_quoted_string s cx pos st =
      failed_with cx max_length_exceeded (S pos) pos st).
Proof.
  split; [|split].
  - intros body Hs Hbody Hlen.
    destruct (skipn_cons _ _ _ _ Hs) as (_ & Hs1 & Hlt).
    destruct body as [|c body].
    + (* the quote is the last character *)
      unfold advance_quoted_string.
      replace (pos =? last s) with false by (symmetry; apply Nat.eqb_neq; lia).
      unfold bind at 1. unfold lift at 1.
      rewrite (deref_skipn _ _ _ _ Hs). cbn [res_bind fst snd].
      change (is_dquote_char "034") with true. cbn [negb].
      assert (Hend : S pos = last s).
      { pose proof (f_equal (@List.length ascii) Hs1) as Hl.
        rewrite length_skipn_last in Hl. cbn in Hl. lia. }
      rewrite Hend, Nat.eqb_refl. rewrite <- Hend. apply fail_with_failed.
    + rewrite (advance_quoted_string_opened cx s pos _ st Hs) by discriminate.
      rewrite <- (app_nil_r (c :: body)) at 1.
      rewrite quoted_string_from_body by (assumption || lia).
      cbn [quoted_string_from].
      assert (Hend : S pos + List.length (c :: body) = last s).
      { pose proof (f_equal (@List.length ascii) Hs1) as Hl.
        rewrite length_skipn_last in Hl. lia. }
      rewrite Hend, Nat.eqb_refl. apply fail_with_failed.
  - intros body ch rest Hs Hbody Hlen Hq Hv.
    rewrite (advance_quoted_string_opened cx s pos _ st Hs)
      by (destruct body; discriminate).
    rewrite quoted_string_from_body by (assumption || lia).
    cbn [quoted_string_from]. rewrite Hq, Hv. cbn [negb].
    apply fail_with_failed.
  - intros body ch rest Hs Hbody Hlen Hch.
    rewrite (advance_quoted_string_opened cx s pos _ st Hs)
      by (destruct body; discriminate).
    rewrite quoted_string_from_body by (assumption || lia).
    unfold quotable in Hch. apply andb_true_iff in Hch as [Hq Hv].
    apply negb_true_iff in Hq.
    cbn [quoted_string_from]. rewrite Hq, Hv. cbn [negb].
    rewrite Z.add_0_l, Hlen, Z.eqb_refl.
    apply fail_with_failed.
Qed.

(** A string that the input ends, a line end inside a string, and three
    characters where the context allows two. *)
Lemma advance_quoted_string_errors_witness :
  advance_quoted_string (chars (DQUOTE ++ "ab")) accept_all 0 start =
    Ret (false, 0, {| trace := [(ev_error unbalanced_quote 1, true)]; ctx := tt |}) /\
  advance_quoted_string (chars (DQUOTE ++ "ab" ++ CRLF)) accept_all 0 start =
    Ret (false, 0, {| trace := [(ev_error bad_quoted_char 3, true)]; ctx := tt |}) /\
  advance_quoted_string (chars (DQUOTE ++ "abc" ++ DQUOTE)) short_strings 0 start =
    Ret (false, 0, {| trace := [(ev_error max_length_exceeded 1, true)]; ctx := tt |}).
Proof.
  split; [|split].
  - apply (proj1 (advance_quoted_string_errors accept_all (chars (DQUOTE ++ "ab")) 0 start)
             (chars "ab")).
    + reflexivity.
    + repeat constructor.
    + vm_compute. discriminate.
  - apply (proj1 (proj2 (advance_quoted_string_errors accept_all
                           (chars (DQUOTE ++ "ab" ++ CRLF)) 0 start))
             (chars "ab") "013"%char (chars LF)).
    + reflexivity.
    + repeat constructor.
    + vm_compute. discriminate.
    + reflexivity.
    + reflexivity.
  - apply (proj2 (proj2 (advance_quoted_string_errors short_strings
                           (chars (DQUOTE ++ "abc" ++ DQUOTE)) 0 start))
             (chars "ab") "c"%char (chars DQUOTE)).
    + reflexivity.
    + repeat constructor.
    + reflexivity.
    + reflexivity.
Defined.

(** ** Repeat prefixes *)

Lemma advance_while_run s f p run rest :
  skipn p s = run ++ rest ->
  Forall (fun ch => f ch = true) run ->
  ends_run f rest ->
  advance_while s f p = p + List.length run.
Proof.
  intros Hs Hrun Hend. unfold advance_while. rewrite Hs.
  destruct rest as [|ch rest].
  - rewrite app_nil_r. now apply advance_while_from_all.
  - now apply advance_while_from_stop.
Qed.

Lemma span_run s p run rest :
  skipn p s = run ++ rest -> span s p (p + List.length run) = run.
Proof.
  intros Hs. unfold span. rewrite Hs.
  replace (p + List.length run - p) with (List.length run + 0) by lia.
  rewrite firstn_app_2. cbn [firstn]. apply app_nil_r.
Qed.

Lemma span_empty s p : span s p p = [].
Proof. unfold span. now rewrite Nat.sub_diag. Qed.

Lemma decimal_digits_convert digits :
  Forall (fun ch => is_digit_char ch = true) digits ->
  (decimal_value digits <= Long.max)%Z ->
  to_decimal_number digits = (decimal_value digits, true).
Proof.
  intros Hd Hv. unfold to_decimal_number.
  rewrite to_decimal_loop_exact; [f_equal; lia | exact Hd | lia | lia].
Qed.

Lemma repeat_scan_star s pos low high rest :
  skipn pos s = low ++ "*"%char :: high ++ rest ->
  Forall (fun ch => is_digit_char ch = true) low ->
  Forall (fun ch => is_digit_char ch = true) high ->
  ends_run is_digit_char rest ->
  repeat_scan s pos =
  Ret (S (pos + List.length low) + List.length high,
       pos + List.length low,
       match high with [] => pos | _ :: _ => S (pos + List.length low) end,
       match high with
       | [] => pos
       | _ :: _ => S (pos + List.length low) + List.length high
       end).
Proof.
  intros Hs Hlow Hhigh Hend.
  pose proof (skipn_app_run _ _ _ _ Hs) as Hstar.
  destruct (skipn_cons _ _ _ _ Hstar) as (_ & Htail & Hlt).
  assert (Hp : snd (if is_digit_char (hd "*"%char low)
                    then advance_digit_chars s pos else (false, pos)) =
               pos + List.length low).
  { destruct low as [|c low].
    - cbn. lia.
    - inversion Hlow as [|? ? Hc ?]; subst. cbn [hd]. rewrite Hc.
      unfold advance_digit_chars.
      rewrite (advance_chars_run s is_digit_char pos (c :: low)
                 (high ++ rest) "*"%char); [reflexivity | | reflexivity | exact Hs].
      split; [discriminate | assumption]. }
  unfold repeat_scan.
  assert (Hhead : deref s pos = Ret (hd "*"%char low)).
  { destruct low as [|c low]; exact (deref_skipn _ _ _ _ Hs). }
  rewrite Hhead. cbn [res_bind].
  destruct (is_digit_char (hd "*"%char low)) eqn:Hd; cbn [snd] in Hp.
  - rewrite Hp.
    replace (pos + List.length low =? last s) with false
      by (symmetry; apply Nat.eqb_neq; lia).
    rewrite (deref_skipn _ _ _ _ Hstar). cbn [res_bind].
    change (Ascii.eqb "*" "*") with true. cbv iota.
    destruct high as [|d high].
    + cbn [app] in Htail. cbn [List.length]. rewrite Nat.add_0_r.
      destruct rest as [|r rest].
      * assert (Hl : S (pos + List.length low) = last s).
        { pose proof (f_equal (@List.length ascii) Htail) as Hl.
          rewrite length_skipn_last in Hl. cbn in Hl. lia. }
        rewrite Hl, Nat.eqb_refl. reflexivity.
      * destruct (skipn_cons _ _ _ _ Htail) as (_ & _ & Hlt').
        replace (S (pos + List.length low) =? last s) with false
          by (symmetry; apply Nat.eqb_neq; lia).
        rewrite (deref_skipn _ _ _ _ Htail). cbn [res_bind].
        cbn in Hend. rewrite Hend. reflexivity.
    + destruct (skipn_cons _ _ _ _ Htail) as (_ & _ & Hlt').
      replace (S (pos + List.length low) =? last s) with false
        by (symmetry; apply Nat.eqb_neq; lia).
      rewrite (deref_skipn _ _ _ _ Htail). cbn [res_bind].
      inversion Hhigh as [|? ? Hdd ?]; subst. rewrite Hdd.
      unfold advance_digit_chars, advance_chars, compare_and_assign.
      rewrite (advance_while_run s is_digit_char _ (d :: high) rest Htail)
        by assumption.
      replace (S (pos + List.length low) =?
               S (pos + List.length low) + List.length (d :: high)) with false
        by (symmetry; apply Nat.eqb_neq; cbn [List.length]; lia).
      reflexivity.
  - assert (Hnil : low = []).
    { destruct low as [|c low]; [reflexivity|].
      inversion Hlow as [|? ? Hc ?]; subst. cbn [hd] in Hd. congruence. }
    subst low. cbn [List.length app] in *. rewrite Nat.add_0_r in *.
    cbv iota beta.
    rewrite (deref_skipn _ _ _ _ Hstar). cbn [res_bind].
    change (Ascii.eqb "*" "*") with true. cbv iota.
    destruct high as [|d high].
    + cbn [app] in Htail. cbn [List.length]. rewrite Nat.add_0_r.
      destruct rest as [|r rest].
      * assert (Hl : S pos = last s).
        { pose proof (f_equal (@List.length ascii) Htail) as Hl.
          rewrite length_skipn_last in Hl. cbn in Hl. lia. }
        rewrite Hl, Nat.eqb_refl. reflexivity.
      * destruct (skipn_cons _ _ _ _ Htail) as (_ & _ & Hlt').
        replace (S pos =? last s) with false
          by (symmetry; apply Nat.eqb_neq; lia).
        rewrite (deref_skipn _ _ _ _ Htail). cbn [res_bind].
        cbn in Hend. rewrite Hend. reflexivity.
    + destruct (skipn_cons _ _ _ _ Htail) as (_ & _ & Hlt').
      replace (S pos =? last s) with false
        by (symmetry; apply Nat.eqb_neq; lia).
      rewrite (deref_skipn _ _ _ _ Htail). cbn [res_bind].
      inversion Hhigh as [|? ? Hdd ?]; subst. rewrite Hdd.
      unfold advance_digit_chars, advance_chars, compare_and_assign.
      rewrite (advance_while_run s is_digit_char _ (d :: high) rest Htail)
        by assumption.
      replace (S pos =? S pos + List.length (d :: high)) with false
        by (symmetry; apply Nat.eqb_neq; cbn [List.length]; lia).
      reflexivity.
Qed.

(** X9. The repeat prefix with a star, [low "*" high], either run of digits
    possibly empty and each denoting a value of a [long]:
    [advance_repeat] reports [repeat (low, high)], the lower bound 0 when no
    digit comes before the star and the upper bound [LONG_MAX] when none
    comes after it, and returns the answer of the context, with the cursor
    after the prefix when it is true; where the upper bound is less than the
    lower one it reports the error [bad_repeat_range] at the start of the
    prefix instead and fails with the cursor where it was. *)
Theorem advance_repeat_star {C} (cx : observer C) s pos low high rest st :
  skipn pos s = low ++ "*"%char :: high ++ rest ->
  Forall (fun ch => is_digit_char ch = true) low ->
  Forall (fun ch => is_digit_char ch = true) high ->
  ends_run is_digit_char rest ->
  (decimal_value low <= Long.max)%Z ->
  (decimal_value high <= Long.max)%Z ->
  advance_repeat s cx pos st =
  if (upper_bound high <? decimal_value low)%Z
  then failed_with cx bad_repeat_range pos pos st
  else reported cx (ev_repeat (decimal_value low) (upper_bound high)) pos
         (S (pos + List.length low) + List.length high) st.
Proof.
  intros Hs Hlow Hhigh Hend Hvl Hvh.
  pose proof (skipn_app_run _ _ _ _ Hs) as Hstar.
  destruct (skipn_cons _ _ _ _ Hstar) as (_ & Htail & Hlt).
  unfold advance_repeat.
  replace (pos =? last s) with false by (symmetry; apply Nat.eqb_neq; lia).
  unfold bind at 1. unfold lift at 1.
  rewrite (repeat_scan_star s pos low high rest Hs Hlow Hhigh Hend).
  cbn [res_bind fst snd].
  replace (S (pos + List.length low) + List.length high =? pos) with false
    by (symmetry; apply Nat.eqb_neq; lia).
  cbn [negb]. cbv iota.
  rewrite (span_run s pos low _ Hs), (decimal_digits_convert low Hlow Hvl).
  cbn [fst snd negb]. cbv iota.
  destruct high as [|d high].
  - rewrite span_empty. change (to_decimal_number []) with (0%Z, true).
    cbn [fst snd negb upper_bound]. cbv iota. rewrite Nat.eqb_refl.
    destruct (Long.max <? decimal_value low)%Z.
    + apply fail_with_failed.
    + unfold and_call. apply commit_reported. lia.
  - rewrite (span_run s (S (pos + List.length low)) (d :: high) rest Htail).
    rewrite (decimal_digits_convert (d :: high) Hhigh Hvh).
    cbn [fst snd negb upper_bound]. cbv iota.
    replace (S (pos + List.length low) =?
             S (pos + List.length low) + List.length (d :: high)) with false
      by (symmetry; apply Nat.eqb_neq; cbn [List.length]; lia).
    destruct (decimal_value (d :: high) <? decimal_value low)%Z.
    + apply fail_with_failed.
    + unfold and_call. apply commit_reported. lia.
Qed.

Lemma advance_repeat_star_witness :
  advance_repeat (chars "2*5DIGIT") accept_all 0 start =
    Ret (true, 3, {| trace := [(ev_repeat 2 5, true)]; ctx := tt |}) /\
  advance_repeat (chars "*DIGIT") accept_all 0 start =
    Ret (true, 1, {| trace := [(ev_repeat 0 Long.max, true)]; ctx := tt |}) /\
  advance_repeat (chars "5*2DIGIT") accept_all 0 start =
    Ret (false, 0, {| trace := [(ev_error bad_repeat_range 0, true)]; ctx := tt |}).
Proof.
  split; [|split].
  - apply (advance_repeat_star accept_all (chars "2*5DIGIT") 0
             (chars "2") (chars "5") (chars "DIGIT") start);
      first [reflexivity | (vm_compute; discriminate) | solve [repeat constructor]].
  - apply (advance_repeat_star accept_all (chars "*DIGIT") 0
             [] [] (chars "DIGIT") start);
      first [reflexivity | (vm_compute; discriminate) | solve [repeat constructor]].
  - apply (advance_repeat_star accept_all (chars "5*2DIGIT") 0
             (chars "5") (chars "2") (chars "DIGIT") start);
      first [reflexivity | (vm_compute; discriminate) | solve [repeat constructor]].
Defined.

(** ** Rule names *)

(** X10. A letter followed by the longest run of letters, digits and
    hyphens is a rule name: [advance_rulename] makes the one callback
    [rulename] on that span and returns the answer of the context, with the
    cursor after the name whatever the answer is. Where the input is at its
    end or does not begin with a letter it fails with no callback and the
    cursor where it was. *)
Theorem advance_rulename_name {C} (cx : observer C) s pos st :
  (forall a name rest,
      skipn pos s = a :: name ++ rest ->
      is_alpha_char a = true ->
      Forall (fun ch => is_rulename_char ch = true) name ->
      ends_run is_rulename_char rest ->
      advance_rulename s cx pos st =
      Ret (answered cx (ev_rulename pos (S pos + List.length name)) st,
           S pos + List.length name,
           logged cx (ev_rulename pos (S pos + List.length name)) st)) /\
  (pos <= last s ->
   ends_run is_alpha_char (skipn pos s) ->
   advance_rulename s cx pos st = Ret (false, pos, st)).
Proof.
  split.
  - intros a name rest Hs Ha Hname Hend.
    destruct (skipn_cons _ _ _ _ Hs) as (_ & Htail & Hlt).
    unfold advance_rulename.
    replace (pos =? last s) with false by (symmetry; apply Nat.eqb_neq; lia).
    unfold bind at 1. unfold lift at 1. unfold advance_rulename_helper.
    rewrite (deref_skipn _ _ _ _ Hs). cbn [res_bind]. rewrite Ha. cbn [negb].
    change (fun ch : ascii => is_alpha_char ch || is_digit_char ch || Ascii.eqb ch "-")
      with is_rulename_char.
    rewrite (advance_while_run s is_rulename_char (S pos) name rest Htail Hname Hend).
    unfold compare_and_assign.
    replace (pos =? S pos + List.length name) with false
      by (symmetry; apply Nat.eqb_neq; lia).
    cbn [res_bind fst snd negb]. cbv iota.
    unfold bind, ret. rewrite call_logged. reflexivity.
  - intros Hle Hend. unfold advance_rulename.
    destruct (pos =? last s) eqn:Hp; [reflexivity|].
    apply Nat.eqb_neq in Hp.
    destruct (skipn pos s) as [|ch rest] eqn:Hs.
    + pose proof (f_equal (@List.length ascii) Hs) as Hl.
      rewrite length_skipn_last in Hl. cbn in Hl. lia.
    + cbn in Hend.
      unfold bind at 1. unfold lift at 1. unfold advance_rulename_helper.
      rewrite (deref_skipn _ _ _ _ Hs). cbn [res_bind]. rewrite Hend.
      reflexivity.
Qed.

Lemma advance_rulename_name_witness :
  advance_rulename (chars "rule-1 = x") veto_rulename 0 start =
    Ret (false, 6, {| trace := [(ev_rulename 0 6, false)]; ctx := tt |}) /\
  advance_rulename (chars "1rule") accept_all 0 start = Ret (false, 0, start).
Proof.
  split.
  - apply (proj1 (advance_rulename_name veto_rulename (chars "rule-1 = x") 0 start)
             "r"%char (chars "ule-1") (chars " = x"));
      first [reflexivity | solve [repeat constructor]].
  - apply (proj2 (advance_rulename_name accept_all (chars "1rule") 0 start)).
    + cbn. lia.
    + reflexivity.
Defined.

(** ** Single numbers and ranges *)

Lemma advance_chars_whole s f p run rest :
  skipn p s = run ++ rest ->
  is_run f run ->
  ends_run f rest ->
  advance_chars s f p = (true, p + List.length run).
Proof.
  intros Hs [Hne Hrun] Hend. unfold advance_chars, compare_and_assign.
  rewrite (advance_while_run s f p run rest Hs Hrun Hend).
  destruct run as [|c run]; [contradiction|].
  replace (p =? p + List.length (c :: run)) with false
    by (symmetry; apply Nat.eqb_neq; cbn [List.length]; lia).
  reflexivity.
Qed.

Lemma and_call_commit {C} (cx : observer C) e1 e2 pos p (st : run_state C) :
  pos <> p ->
  bind (call cx e1)
    (fun success => bind (and_call cx success e2)
       (fun success => ret (commit success pos p))) st =
  reported_both cx e1 e2 pos p st.
Proof.
  intros Hp. unfold bind at 1. rewrite call_logged. cbn [res_bind fst snd].
  unfold reported_both. destruct (answered cx e1 st).
  - unfold and_call. now apply commit_reported.
  - reflexivity.
Qed.

(** X11. A percent sign, a radix letter and a run of digits of that radix
    that stands alone (no digit, hyphen or dot follows; the input may end
    there) is reported as [first_number] on the run and [last_number] on the
    empty span after it; when a hyphen and a second run follow, as
    [first_number] on the first run and [last_number] on the second. The
    second callback is made only when the first was accepted, and the cursor
    moves past the number only when both were. *)
Theorem advance_number_single_or_range {C} (cx : observer C) s pos k f flag st :
  digit_class k = Some (f, flag) ->
  (forall run rest,
      skipn pos s = "%"%char :: k :: run ++ rest ->
      is_run f run ->
      ends_run (fun ch => f ch || Ascii.eqb ch "-" || Ascii.eqb ch ".") rest ->
      let p := S (S pos) + List.length run in
      advance_number s cx pos st =
      reported_both cx (ev_first_number flag (S (S pos)) p)
        (ev_last_number flag p p) pos p st) /\
  (forall low high rest,
      skipn pos s = "%"%char :: k :: low ++ "-"%char :: high ++ rest ->
      is_run f low ->
      is_run f high ->
      ends_run f rest ->
      let p := S (S pos) + List.length low in
      let q := S p + List.length high in
      advance_number s cx pos st =
      reported_both cx (ev_first_number flag (S (S pos)) p)
        (ev_last_number flag (S p) q) pos q st).
Proof.
  intros Hk.
  assert (Hhyphen : f "-"%char = false).
  { unfold digit_class in Hk.
    destruct (Ascii.eqb k "x"); [inversion Hk; reflexivity|].
    destruct (Ascii.eqb k "d"); [inversion Hk; reflexivity|].
    destruct (Ascii.eqb k "b"); [inversion Hk; reflexivity | discriminate]. }
  split.
  - intros run rest Hs Hrun Hend p.
    destruct (skipn_cons _ _ _ _ Hs) as (_ & Hs1 & Hlt0).
    destruct (skipn_cons _ _ _ _ Hs1) as (_ & Hs2 & Hlt1).
    assert (Hlt2 : S (S pos) < last s).
    { destruct Hrun as [Hne _]. destruct run as [|c run]; [contradiction|].
      apply skipn_cons in Hs2. tauto. }
    assert (Hend' : ends_run f rest).
    { destruct rest as [|c rest]; [exact I|]. cbn in Hend |- *.
      destruct (f c); [discriminate | reflexivity]. }
    pose proof (skipn_app_run _ _ _ _ Hs2) as Hs3. fold p in Hs3.
    unfold advance_number.
    replace (pos =? last s) with false by (symmetry; apply Nat.eqb_neq; lia).
    unfold bind at 1. unfold lift at 1.
    rewrite (deref_skipn _ _ _ _ Hs). cbn [res_bind fst snd].
    change (Ascii.eqb "%" "%") with true. cbn [negb]. cbv iota.
    replace (S pos =? last s) with false by (symmetry; apply Nat.eqb_neq; lia).
    unfold bind at 1. unfold lift at 1.
    rewrite (deref_skipn _ _ _ _ Hs1). cbn [res_bind fst snd].
    rewrite number_kind_class, Hk.
    replace (S (S pos) =? last s) with false by (symmetry; apply Nat.eqb_neq; lia).
    rewrite (advance_chars_whole s f (S (S pos)) run rest Hs2 Hrun Hend').
    fold p. cbn [negb]. cbv iota.
    destruct rest as [|c rest].
    + assert (Hp : p = last s).
      { pose proof (f_equal (@List.length ascii) Hs2) as Hl.
        rewrite length_skipn_last, app_nil_r in Hl. unfold p. lia. }
      rewrite <- Hp, Nat.eqb_refl. cbn [negb]. cbv iota.
      apply and_call_commit. unfold p. lia.
    + destruct (skipn_cons _ _ _ _ Hs3) as (_ & _ & Hlt3).
      replace (p =? last s) with false by (symmetry; apply Nat.eqb_neq; lia).
      cbn [negb]. cbv iota.
      cbn in Hend. apply orb_false_iff in Hend as [Hend Hdot].
      apply orb_false_iff in Hend as [_ Hhy].
      unfold bind at 1. rewrite call_logged. cbn [res_bind fst snd].
      unfold bind at 1. unfold lift at 1.
      rewrite (deref_skipn _ _ _ _ Hs3). cbn [res_bind fst snd].
      rewrite Hhy, Hdot.
      unfold reported_both. destruct (answered cx _ st).
      * unfold and_call. apply commit_reported. unfold p. lia.
      * reflexivity.
  - intros low high rest Hs Hlow Hhigh Hend p q.
    destruct (skipn_cons _ _ _ _ Hs) as (_ & Hs1 & Hlt0).
    destruct (skipn_cons _ _ _ _ Hs1) as (_ & Hs2 & Hlt1).
    assert (Hlt2 : S (S pos) < last s).
    { destruct Hlow as [Hne _]. destruct low as [|c low]; [contradiction|].
      apply skipn_cons in Hs2. tauto. }
    pose proof (skipn_app_run _ _ _ _ Hs2) as Hs3. fold p in Hs3.
    destruct (skipn_cons _ _ _ _ Hs3) as (_ & Hs4 & Hlt3).
    assert (Hd : exists d high', high = d :: high' /\ f d = true).
    { destruct Hhigh as [Hne Hall]. destruct high as [|d high']; [contradiction|].
      inversion Hall; subst. eauto. }
    destruct Hd as (d & high' & Hhd & Hfd).
    unfold advance_number.
    replace (pos =? last s) with false by (symmetry; apply Nat.eqb_neq; lia).
    unfold bind at 1. unfold lift at 1.
    rewrite (deref_skipn _ _ _ _ Hs). cbn [res_bind fst snd].
    change (Ascii.eqb "%" "%") with true. cbn [negb]. cbv iota.
    replace (S pos =? last s) with false by (symmetry; apply Nat.eqb_neq; lia).
    unfold bind at 1. unfold lift at 1.
    rewrite (deref_skipn _ _ _ _ Hs1). cbn [res_bind fst snd].
    rewrite number_kind_class, Hk.
    replace (S (S pos) =? last s) with false by (symmetry; apply Nat.eqb_neq; lia).
    rewrite (advance_chars_run s f (S (S pos)) low (high ++ rest) "-"%char
               Hlow Hhyphen Hs2).
    fold p. cbn [negb]. cbv iota.
    replace (p =? last s) with false by (symmetry; apply Nat.eqb_neq; lia).
    cbn [negb]. cbv iota.
    unfold bind at 1. rewrite call_logged. cbn [res_bind fst snd].
    unfold bind at 1. unfold lift at 1.
    rewrite (deref_skipn _ _ _ _ Hs3). cbn [res_bind fst snd].
    change (Ascii.eqb "-" "-") with true. cbv iota.
    unfold bind at 1. unfold lift at 1.
    assert (Hs4' : skipn (S p) s = d :: high' ++ rest) by (now rewrite Hs4, Hhd).
    rewrite (deref_skipn _ _ _ _ Hs4'). cbn [res_bind fst snd].
    rewrite Hfd. cbn [negb]. cbv iota.
    rewrite (advance_chars_whole s f (S p) high rest Hs4 Hhigh Hend).
    fold q. cbn [negb]. cbv iota.
    unfold reported_both. destruct (answered cx _ st).
    + unfold and_call. apply commit_reported. unfold q, p. lia.
    + reflexivity.
Qed.

Lemma advance_number_single_or_range_witness :
  advance_number (chars "%x7F") accept_all 0 start =
    Ret (true, 4, {| trace := [(ev_first_number hexadecimal 2 4, true);
                               (ev_last_number hexadecimal 4 4, true)]; ctx := tt |}) /\
  advance_number (chars "%d48-57") accept_all 0 start =
    Ret (true, 7, {| trace := [(ev_first_number decimal 2 4, true);
                               (ev_last_number decimal 5 7, true)]; ctx := tt |}).
Proof.
  split.
  - apply (proj1 (advance_number_single_or_range accept_all (chars "%x7F") 0
                    "x"%char is_hexdigit_char hexadecimal start eq_refl)
             (chars "7F") []);
      first [reflexivity | exact I | (split; [discriminate | repeat constructor])].
  - apply (proj2 (advance_number_single_or_range accept_all (chars "%d48-57") 0
                    "d"%char is_digit_char decimal start eq_refl)
             (chars "48") (chars "57") []);
      first [reflexivity | exact I | (split; [discriminate | repeat constructor])].
Defined.

(** ** The repetition driver on the test of the repository *)

Lemma repetition_loop_letters {C} s high rest (st : run_state C) :
  ends_run is_alpha_char rest ->
  forall letters fuel count p,
    skipn p s = letters ++ rest ->
    Forall (fun ch => is_alpha_char ch = true) letters ->
    (count <= high)%Z ->
    List.length letters < fuel ->
    repetition_loop fuel (advance_letter s) high count p st =
    if (high - count <=? Z.of_nat (List.length letters))%Z
    then Ret (high, p + Z.to_nat (high - count), st)
    else match rest with
         | [] => ReadAtEnd
         | _ :: _ => Ret ((count + Z.of_nat (List.length letters))%Z,
                          p + List.length letters, st)
         end.
Proof.
  intros Hend.
  induction letters as [|c letters IH]; intros fuel count p Hs Hall Hcount Hfuel.
  - cbn [List.length app] in *. destruct fuel as [|fuel]; [lia|].
    cbn [repetition_loop].
    destruct (Z.leb_spec high count) as [Hh|Hh].
    + assert (high = count) by lia. subst count.
      replace (high - high <=? Z.of_nat 0)%Z with true by (symmetry; apply Z.leb_le; lia).
      unfold ret. rewrite Z.sub_diag, Nat.add_0_r. reflexivity.
    + replace (high - count <=? Z.of_nat 0)%Z with false by (symmetry; apply Z.leb_gt; lia).
      unfold bind at 1. unfold advance_letter, bind, lift.
      destruct rest as [|ch rest'].
      * unfold deref.
        assert (Hn : nth_error s p = None).
        { apply nth_error_None.
          pose proof (f_equal (@List.length ascii) Hs) as Hl.
          rewrite length_skipn_last in Hl. cbn in Hl. unfold last in Hl. lia. }
        rewrite Hn. reflexivity.
      * rewrite (deref_skipn _ _ _ _ Hs). cbn [res_bind fst snd].
        cbn in Hend. rewrite Hend. unfold ret. cbn [res_bind fst snd].
        rewrite Z.add_0_r, Nat.add_0_r. reflexivity.
  - inversion Hall as [|? ? Hc Hrest]; subst.
    destruct (skipn_cons _ _ _ _ Hs) as (_ & Htail & _).
    cbn [List.length] in *. destruct fuel as [|fuel]; [lia|].
    cbn [repetition_loop].
    destruct (Z.leb_spec high count) as [Hh|Hh].
    + assert (high = count) by lia. subst count.
      replace (high - high <=? Z.of_nat (S (List.length letters)))%Z with true
        by (symmetry; apply Z.leb_le; lia).
      unfold ret. rewrite Z.sub_diag, Nat.add_0_r. reflexivity.
    + unfold bind at 1. unfold advance_letter at 1. unfold bind at 1. unfold lift at 1.
      rewrite (deref_skipn _ _ _ _ Hs). cbn [res_bind fst snd]. rewrite Hc.
      unfold ret at 1. cbn [res_bind fst snd].
      rewrite (IH fuel (count + 1)%Z (S p) Htail Hrest) by lia.
      rewrite Nat2Z.inj_succ.
      destruct (Z.leb_spec (high - count) (Z.succ (Z.of_nat (List.length letters))))
        as [Hle|Hgt].
      * replace (high - (count + 1) <=? Z.of_nat (List.length letters))%Z with true
          by (symmetry; apply Z.leb_le; lia).
        replace (S p + Z.to_nat (high - (count + 1))) with (p + Z.to_nat (high - count))
          by lia.
        reflexivity.
      * replace (high - (count + 1) <=? Z.of_nat (List.length letters))%Z with false
          by (symmetry; apply Z.leb_gt; lia).
        destruct rest; [reflexivity|].
        replace (count + 1 + Z.of_nat (List.length letters))%Z
          with (count + Z.succ (Z.of_nat (List.length letters)))%Z by lia.
        replace (S p + List.length letters) with (p + S (List.length letters)) by lia.
        reflexivity.
Qed.

(** X12. The repetition driver on the operation of the repository's test,
    past one letter: on a run of letters with bounds [0 <= low <= high] it
    stops after [high] letters when the run has that many, and succeeds with
    the cursor there; where a character that is no letter ends a shorter run,
    it stops there and succeeds when the run has [low] letters at least,
    and fails otherwise with the cursor where it was; with [high < low] it
    fails at once. The three items of the test are instances. *)
Theorem advance_repetition_by_range_letters {C} s pos low high letters rest
    (st : run_state C) :
  skipn pos s = letters ++ rest ->
  Forall (fun ch => is_alpha_char ch = true) letters ->
  ends_run is_alpha_char rest ->
  let n := Z.of_nat (List.length letters) in
  ((0 <= low <= high)%Z -> (high <= n)%Z ->
   advance_repetition_by_range s pos (low, high) (advance_letter s) st =
   Ret (true, pos + Z.to_nat high, st)) /\
  ((0 <= low <= high)%Z -> (n < high)%Z -> rest <> [] ->
   advance_repetition_by_range s pos (low, high) (advance_letter s) st =
   Ret (if (low <=? n)%Z then (true, pos + List.length letters) else (false, pos), st)) /\
  ((high < low)%Z ->
   advance_repetition_by_range s pos (low, high) (advance_letter s) st =
   Ret (false, pos, st)).
Proof.
  intros Hs Hall Hend n.
  assert (Hfuel : List.length letters < S (last s - pos)).
  { pose proof (f_equal (@List.length ascii) Hs) as Hl.
    rewrite length_skipn_last, length_app in Hl. lia. }
  split; [|split].
  - intros Hlow Hhigh. unfold advance_repetition_by_range.
    replace (high <? low)%Z with false by (symmetry; apply Z.ltb_ge; lia).
    unfold bind.
    rewrite (repetition_loop_letters s high rest st Hend letters _ 0%Z pos Hs Hall)
      by lia.
    rewrite Z.sub_0_r. fold n.
    replace (high <=? n)%Z with true by (symmetry; apply Z.leb_le; lia).
    cbn [res_bind fst snd].
    replace (low <=? high)%Z with true by (symmetry; apply Z.leb_le; lia).
    rewrite Z.leb_refl. reflexivity.
  - intros Hlow Hhigh Hrest. unfold advance_repetition_by_range.
    replace (high <? low)%Z with false by (symmetry; apply Z.ltb_ge; lia).
    unfold bind.
    rewrite (repetition_loop_letters s high rest st Hend letters _ 0%Z pos Hs Hall)
      by lia.
    rewrite Z.sub_0_r. fold n.
    replace (high <=? n)%Z with false by (symmetry; apply Z.leb_gt; lia).
    destruct rest as [|ch rest']; [contradiction|].
    cbn [res_bind fst snd]. rewrite Z.add_0_l. fold n.
    replace (n <=? high)%Z with true by (symmetry; apply Z.leb_le; lia).
    rewrite andb_true_r. destruct (low <=? n)%Z; reflexivity.
  - intros Hlt. unfold advance_repetition_by_range.
    replace (high <? low)%Z with true by (symmetry; apply Z.ltb_lt; lia).
    reflexivity.
Qed.

Lemma advance_repetition_by_range_letters_witness :
  advance_repetition_by_range (chars "a") 0 (0, 1)%Z (advance_letter (chars "a")) start =
    Ret (true, 1, start) /\
  advance_repetition_by_range (chars "ab") 0 (1, 2)%Z (advance_letter (chars "ab")) start =
    Ret (true, 2, start) /\
  advance_repetition_by_range (chars "9") 0 (1, 0)%Z (advance_letter (chars "9")) start =
    Ret (false, 0, start) /\
  advance_repetition_by_range (chars "ab9") 0 (1, 5)%Z (advance_letter (chars "ab9")) start =
    Ret (true, 2, start).
Proof.
  split; [|split; [|split]].
  - apply (proj1 (advance_repetition_by_range_letters (chars "a") 0 0 1
                    (chars "a") [] start eq_refl
                    ltac:(repeat constructor) I)); cbn; lia.
  - apply (proj1 (advance_repetition_by_range_letters (chars "ab") 0 1 2
                    (chars "ab") [] start eq_refl
                    ltac:(repeat constructor) I)); cbn; lia.
  - apply (proj2 (proj2 (advance_repetition_by_range_letters (chars "9") 0 1 0
                    [] (chars "9") start eq_refl
                    ltac:(repeat constructor) eq_refl))). lia.
  - apply (proj1 (proj2 (advance_repetition_by_range_letters (chars "ab9") 0 1 5
                    (chars "ab") (chars "9") start eq_refl
                    ltac:(repeat constructor) eq_refl)));
      first [discriminate | (cbn; lia)].
Defined.

(** ** Reads within the input *)

(** X13. The advancers of comments and white space and [advance_defined_as]
    read no character through the end iterator: from a cursor within the
    input each returns, with the cursor not before where it was and within
    the input, moved when the answer is true and where it was when the answer
    is false. *)
Theorem whitespace_advancers_step s pos :
  pos <= last s ->
  always (advance_comment s pos) (stepped s pos) /\
  always (advance_comment_newline s pos) (stepped s pos) /\
  always (advance_comment_whitespace s pos) (stepped s pos) /\
  always (advance_defined_as s pos)
    (fun x => let '(moved, pos', _) := x in stepped s pos (moved, pos')).
Proof.
  intros H. split; [|split; [|split]].
  - now apply advance_comment_stepped.
  - now apply advance_comment_newline_stepped.
  - now apply advance_comment_whitespace_stepped.
  - now apply advance_defined_as_stepped.
Qed.

Lemma whitespace_advancers_step_witness :
  always (advance_comment (chars ("; text" ++ CRLF ++ " a")) 0)
    (stepped (chars ("; text" ++ CRLF ++ " a")) 0) /\
  always (advance_comment_newline (chars ("; text" ++ CRLF ++ " a")) 0)
    (stepped (chars ("; text" ++ CRLF ++ " a")) 0) /\
  always (advance_comment_whitespace (chars ("; text" ++ CRLF ++ " a")) 0)
    (stepped (chars ("; text" ++ CRLF ++ " a")) 0) /\
  always (advance_defined_as (chars ("; text" ++ CRLF ++ " a")) 0)
    (fun x => let '(moved, pos', _) := x in
              stepped (chars ("; text" ++ CRLF ++ " a")) 0 (moved, pos')).
Proof.
  apply (whitespace_advancers_step (chars ("; text" ++ CRLF ++ " a")) 0).
  cbn. lia.
Defined.

Lemma surely_ret {C A} (st : run_state C) (a : A) (Q : A -> run_state C -> Prop) :
  Q a st -> surely st (ret a) Q.
Proof. intros H. exists a, st. auto. Qed.

Lemma surely_bind {C A B} (st : run_state C) (c : M C A) (k : A -> M C B) Q :
  surely st c (fun a st1 => surely st1 (k a) Q) -> surely st (bind c k) Q.
Proof.
  intros (a & st1 & E & b & st2 & E2 & H). exists b, st2.
  unfold bind. rewrite E. cbn. auto.
Qed.

Lemma surely_lift {C A} (st : run_state C) (c : res A) (Q : A -> run_state C -> Prop) :
  always c (fun a => Q a st) -> surely st (lift c) Q.
Proof. intros (a & -> & H). exists a, st. auto. Qed.

Lemma surely_call {C} (cx : observer C) e (st : run_state C)
    (Q : bool -> run_state C -> Prop) :
  (forall answer st', Q answer st') -> surely st (call cx e) Q.
Proof. intros H. eexists _, _. split; [apply call_logged | apply H]. Qed.

Lemma surely_deref {C} s p (st : run_state C) (Q : ascii -> run_state C -> Prop) :
  p < last s -> (forall ch, Q ch st) -> surely st (lift (deref s p)) Q.
Proof.
  intros Hp H. apply surely_lift. apply deref_always; [assumption | auto].
Qed.

(** One step of a run that is sure to return. *)
Ltac sure_step :=
  lazymatch goal with
  | |- surely _ (ret _) _ => apply surely_ret; exact I
  | |- surely _ (bind _ _) _ => apply surely_bind
  | |- surely _ (lift (deref _ _)) _ => apply surely_deref; [bounds | intros ?]
  | |- surely _ (call _ _) _ => apply surely_call; intros ? ?
  | |- surely _ (and_call _ _ _) _ => unfold and_call at 1
  | |- surely _ (fail_with _ _ _ _) _ => unfold fail_with
  | |- surely _ (if ?b then _ else _) _ =>
      first [ progress (cbn [negb]; cbv beta iota) | destruct b eqn:? ]
  | |- surely _ (match ?x with _ => _ end) _ =>
      first [ progress (cbv beta iota) | note x; destruct x eqn:? ]
  end.

(** X14. [advance_prose], [advance_quoted_string], [advance_repeat] and
    [advance_rulename] read no character through the end iterator: from every
    cursor within the input, the end included, and whatever the context
    answers, each returns. *)
Theorem guarded_advancers_return {C} (s : list ascii) (cx : observer C) a pos st :
  In a (guarded_advancers s cx) ->
  pos <= last s ->
  exists r pos' st', a pos st = Ret (r, pos', st').
Proof.
  intros Ha Hpos.
  assert (Hs : surely st (a pos) (fun _ _ => True)).
  { cbn [guarded_advancers In] in Ha.
    repeat (destruct Ha as [<- | Ha]); try contradiction.
    - unfold advance_prose. cbv zeta.
      pose proof (advance_while_bounds s is_prose_value_char (S pos)) as Hw.
      repeat sure_step.
    - unfold advance_quoted_string. cbv zeta.
      sure_step; [repeat sure_step|]. sure_step. sure_step.
      sure_step; [repeat sure_step|]. sure_step; [repeat sure_step|].
      unfold surely at 1.
      destruct (quoted_string_from _ _ _ _ _) as [[ec near_pos]|p] eqn:Hq.
      + change (surely st (fail_with cx ec near_pos pos) (fun _ _ => True)).
        repeat sure_step.
      + match goal with |- exists a st', ?c st = _ /\ _ =>
          change (surely st c (fun _ _ => True)) end.
        repeat sure_step.
    - unfold advance_repeat. cbv zeta.
      sure_step; [repeat sure_step|]. sure_step.
      apply surely_lift.
      eapply always_weaken; [apply repeat_scan_bounds; bounds|].
      intros [[[p last_from] first_to] last_to] Hp. cbn [fst snd].
      repeat sure_step.
    - unfold advance_rulename.
      sure_step; [repeat sure_step|]. sure_step.
      apply surely_lift.
      eapply always_weaken; [apply advance_rulename_helper_stepped; bounds|].
      intros [[[moved pos1] first_pos] last_pos] Hp. cbn [fst snd].
      repeat sure_step. }
  destruct Hs as ([r pos'] & st' & E & _). eauto.
Qed.

Lemma guarded_advancers_return_witness :
  exists r pos' st',
    advance_quoted_string (chars (DQUOTE ++ "ab")) accept_all 3 start = Ret (r, pos', st').
Proof.
  apply (guarded_advancers_return (chars (DQUOTE ++ "ab")) accept_all
           (advance_quoted_string (chars (DQUOTE ++ "ab")) accept_all) 3 start).
  - cbn. tauto.
  - cbn. lia.
Defined.

(** ** Success advances the cursor *)

Lemma commit_advanced {C} s success pos p (st' : run_state C) :
  pos <= p <= last s -> advanced s pos (commit success pos p) st'.
Proof.
  intros H. destruct (commit_stepped s success pos p H) as (? & ? & ?).
  split; assumption.
Qed.

Lemma compare_advanced {C} s pos p (st' : run_state C) :
  pos <= p <= last s -> advanced s pos (compare_and_assign pos p) st'.
Proof. apply (commit_advanced s true pos p). Qed.

(** The cursor is where it may be, the answers that are known taken into
    account. *)
Ltac progress_bounds := nat_facts; cbn [fst snd] in *; subst; nat_facts; lia.

Ltac wp_adv :=
  lazymatch goal with
  | |- advanced _ _ (commit _ _ _) _ => apply commit_advanced; bounds
  | |- advanced _ _ (compare_and_assign _ _) _ => apply compare_advanced; bounds
  | |- advanced _ _ (_, _) _ =>
      split; cbn [fst snd];
      [ bounds
      | let H := fresh in
        intros H; try (apply andb_true_iff in H as [? ?]);
        first [discriminate | progress_bounds] ]
  end.

(** A call of an advancer known to advance. *)
Ltac use_advancing H :=
  eapply holds_weaken;
  [ apply H; bounds
  | intros [? ?] ? [? ?]; cbn [fst snd] in * ].

Lemma repetition_loop_advances {C} s (op : advancer C) high pos0 :
  (forall q, pos0 <= q <= last s -> advancing s op q) ->
  forall fuel count p (st : run_state C),
    pos0 <= p <= last s -> last s - p < fuel ->
    holds st (repetition_loop fuel op high count p)
      (fun x st' =>
         p <= snd x <= last s /\ (count <= fst x)%Z /\ ((count < fst x)%Z -> p < snd x)).
Proof.
  intros Hop.
  induction fuel as [|fuel IH]; intros count p st Hp Hfuel; [lia|].
  cbn [repetition_loop].
  destruct (high <=? count)%Z; [apply holds_ret; cbn [fst snd]; lia|].
  apply holds_bind.
  eapply holds_weaken; [apply (Hop p); lia|].
  intros [success p'] st1 [Hb Hm]. cbn [fst snd] in *.
  destruct success.
  - specialize (Hm eq_refl).
    eapply holds_weaken; [apply (IH _ p'); lia|].
    intros x st' (Hx & Hc & _). lia.
  - apply holds_ret. cbn [fst snd]. lia.
Qed.

Lemma advance_repetition_by_range_advances {C} s range (op : advancer C) pos
    (st : run_state C) :
  pos <= last s ->
  (forall q, pos <= q <= last s -> advancing s op q) ->
  holds st (advance_repetition_by_range s pos range op)
    (fun x st' =>
       pos <= snd x <= last s /\ (fst x = true -> (1 <= fst range)%Z -> pos < snd x)).
Proof.
  intros Hpos Hop. unfold advance_repetition_by_range.
  destruct range as [low high]. cbn [fst].
  destruct (high <? low)%Z;
    [apply holds_ret; cbn [fst snd]; split; [lia | discriminate]|].
  apply holds_bind.
  eapply holds_weaken;
    [apply (repetition_loop_advances s op high pos Hop); lia|].
  intros [count p] st' (Hp & Hc & Hm). cbn [fst snd] in *.
  destruct ((low <=? count)%Z && (count <=? high)%Z) eqn:E.
  - apply andb_true_iff in E as [E _]. apply Z.leb_le in E.
    apply holds_ret. cbn [fst snd]. split; [lia|]. intros _ Hlow. apply Hm. lia.
  - apply holds_ret. cbn [fst snd]. split; [lia | discriminate].
Qed.

Lemma advance_prose_advances {C} s (cx : observer C) pos :
  pos <= last s -> advancing s (advance_prose s cx) pos.
Proof.
  intros Hpos st. unfold advance_prose. cbv zeta.
  pose proof (advance_while_bounds s is_prose_value_char (S pos)) as Hw.
  repeat wp_step; wp_adv.
Qed.

Lemma advance_number_advances {C} s (cx : observer C) pos :
  pos <= last s -> advancing s (advance_number s cx) pos.
Proof.
  intros Hpos st. unfold advance_number. cbv zeta. repeat wp_step; wp_adv.
Qed.

Lemma advance_quoted_string_advances {C} s (cx : observer C) pos :
  pos <= last s -> advancing s (advance_quoted_string s cx) pos.
Proof.
  intros Hpos st. unfold advance_quoted_string. cbv zeta.
  wp_step; [repeat wp_step; wp_adv|]. wp_step. wp_step.
  wp_step; [repeat wp_step; wp_adv|]. wp_step; [repeat wp_step; wp_adv|].
  unfold holds at 1. cbv beta.
  destruct (quoted_string_from _ _ _ _ _) as [[ec near_pos]|p] eqn:Hq.
  - change (holds st (fail_with cx ec near_pos pos) (advanced s pos)).
    repeat wp_step; wp_adv.
  - apply quoted_string_from_bounds in Hq.
    rewrite length_skipn_last in Hq.
    match goal with |- match ?c st with _ => _ end =>
      change (holds st c (advanced s pos)) end.
    repeat wp_step; wp_adv.
Qed.

Lemma advance_repeat_advances {C} s (cx : observer C) pos :
  pos <= last s -> advancing s (advance_repeat s cx) pos.
Proof.
  intros Hpos st. unfold advance_repeat. cbv zeta.
  wp_step; [repeat wp_step; wp_adv|]. wp_step.
  apply holds_lift, always_returns.
  eapply always_weaken; [apply repeat_scan_bounds; bounds|].
  intros [[[p last_from] first_to] last_to] Hp. cbn [fst snd].
  repeat wp_step; wp_adv.
Qed.

Lemma advance_rulename_advances {C} s (cx : observer C) pos :
  pos <= last s -> advancing s (advance_rulename s cx) pos.
Proof.
  intros Hpos st. unfold advance_rulename.
  wp_step; [repeat wp_step; wp_adv|]. wp_step.
  apply holds_lift, always_returns.
  eapply always_weaken; [apply advance_rulename_helper_stepped; bounds|].
  intros [[[moved pos'] first_pos] last_pos] Hstep. cbn [fst snd].
  repeat wp_step; wp_adv.
Qed.

Ltac wp_known ::=
  lazymatch goal with
  | |- holds _ (lift (skip_comment_whitespace ?s ?p)) _ =>
      use_always (skip_comment_whitespace_always s p); intros ? ?; cbv beta in *
  | |- holds _ (lift (skip_linear_whitespace ?s ?p)) _ =>
      use_always (skip_linear_whitespace_always s p); intros ? ?; cbv beta in *
  | |- holds _ (lift (advance_comment_whitespace ?s ?p)) _ =>
      use_always (advance_comment_whitespace_stepped s p); intros [? ?] ?
  | |- holds _ (lift (advance_comment_newline ?s ?p)) _ =>
      use_always (advance_comment_newline_stepped s p); intros [? ?] ?
  | |- holds _ (lift (advance_rulename_helper ?s ?p ?a ?b)) _ =>
      use_always (advance_rulename_helper_stepped s p a b);
      intros [[[? ?] ?] ?] ?; cbv beta iota in *
  | |- holds _ (lift (advance_defined_as ?s ?p)) _ =>
      use_always (advance_defined_as_stepped s p);
      intros [[? ?] ?] ?; cbv beta iota in *
  | |- holds _ (advance_prose ?s ?cx ?p) _ => use_advancing (advance_prose_advances s cx p)
  | |- holds _ (advance_number ?s ?cx ?p) _ => use_advancing (advance_number_advances s cx p)
  | |- holds _ (advance_quoted_string ?s ?cx ?p) _ =>
      use_advancing (advance_quoted_string_advances s cx p)
  | |- holds _ (advance_repeat ?s ?cx ?p) _ => use_advancing (advance_repeat_advances s cx p)
  | |- holds _ (advance_rulename ?s ?cx ?p) _ =>
      use_advancing (advance_rulename_advances s cx p)
  | |- holds _ (advance_repetition_by_range ?s ?p ?range ?op) _ =>
      eapply holds_weaken;
      [ apply (advance_repetition_by_range_advances s range op p);
        [ bounds | unfold advancing; intros ? ? ?; cbv beta ]
      | intros [? ?] ? [? ?];
        try unfold make_range, unlimited_range in *; cbn [fst snd] in * ]
  | |- holds _ (?a ?p) _ =>
      match goal with
      | H : forall q, _ -> advancing _ a q |- _ => use_advancing (H p)
      end
  end.

Section LevelAdvances.

Context {C : Type} (s : list ascii) (cx : observer C).
Variable alternation_inside : advancer C.
Variable pos0 : nat.
Hypothesis inside_advances :
  forall q, pos0 < q <= last s -> advancing s alternation_inside q.

Lemma advance_group_or_option_with_advances pos :
  pos0 <= pos <= last s ->
  advancing s (advance_group_or_option_with s alternation_inside) pos.
Proof.
  intros Hpos st. unfold advance_group_or_option_with. cbv zeta.
  repeat wp_step; wp_adv.
Qed.

Lemma advance_group_with_advances pos :
  pos0 <= pos <= last s ->
  advancing s (advance_group_with s cx alternation_inside) pos.
Proof.
  intros Hpos st. unfold advance_group_with. cbv zeta.
  pose proof advance_group_or_option_with_advances as Hinner.
  repeat wp_step; wp_adv.
Qed.

Lemma advance_option_with_advances pos :
  pos0 <= pos <= last s ->
  advancing s (advance_option_with s cx alternation_inside) pos.
Proof.
  intros Hpos st. unfold advance_option_with. cbv zeta.
  pose proof advance_group_or_option_with_advances as Hinner.
  repeat wp_step; wp_adv.
Qed.

Lemma advance_element_with_advances pos :
  pos0 <= pos <= last s ->
  advancing s (advance_element_with s cx alternation_inside) pos.
Proof.
  intros Hpos st. unfold advance_element_with.
  pose proof advance_group_with_advances as Hgroup.
  pose proof advance_option_with_advances as Hoption.
  repeat wp_step; wp_adv.
Qed.

Lemma advance_repetition_with_advances pos :
  pos0 <= pos <= last s ->
  advancing s (advance_repetition_with s cx alternation_inside) pos.
Proof.
  intros Hpos st. unfold advance_repetition_with.
  pose proof advance_element_with_advances as Helement.
  repeat wp_step; wp_adv.
Qed.

Lemma advance_concatenation_with_advances pos :
  pos0 <= pos <= last s ->
  advancing s (advance_concatenation_with s cx alternation_inside) pos.
Proof.
  intros Hpos st. unfold advance_concatenation_with. cbv zeta.
  pose proof advance_repetition_with_advances as Hrepetition.
  repeat wp_step; wp_adv.
Qed.

Lemma advance_alternation_with_advances pos :
  pos0 <= pos <= last s ->
  advancing s (advance_alternation_with s cx alternation_inside) pos.
Proof.
  intros Hpos st. unfold advance_alternation_with. cbv zeta.
  pose proof advance_concatenation_with_advances as Hconcatenation.
  repeat wp_step; wp_adv.
Qed.

End LevelAdvances.

Lemma advance_alternation_at_advances {C} s (cx : observer C) : forall depth pos,
  pos <= last s -> last s - pos < depth ->
  advancing s (advance_alternation_at s cx depth) pos.
Proof.
  induction depth as [|depth IH]; intros pos Hpos Hdepth; [lia|].
  cbn [advance_alternation_at].
  apply (advance_alternation_with_advances s cx _ pos); [|lia].
  intros q Hq. apply IH; lia.
Qed.

Lemma advance_alternation_advances {C} s (cx : observer C) pos :
  pos <= last s -> advancing s (advance_alternation s cx) pos.
Proof.
  intros Hpos. apply advance_alternation_at_advances; [assumption | lia].
Qed.

Lemma advance_alternation_advances_inside {C} s (cx : observer C) :
  forall q, 0 < q <= last s -> advancing s (advance_alternation s cx) q.
Proof. intros q Hq. apply advance_alternation_advances. lia. Qed.

Lemma advance_elements_advances {C} s (cx : observer C) pos :
  pos <= last s -> advancing s (advance_elements s cx) pos.
Proof.
  intros Hpos st. unfold advance_elements. cbv zeta.
  pose proof (advance_alternation_advances s cx) as Halternation.
  repeat wp_step; wp_adv.
Qed.

Lemma advance_rule_advances {C} s (cx : observer C) pos :
  pos <= last s -> advancing s (advance_rule s cx) pos.
Proof.
  intros Hpos st. unfold advance_rule. cbv zeta.
  pose proof (advance_elements_advances s cx) as Helements.
  repeat wp_step; wp_adv.
Qed.

Lemma advance_rulelist_advances {C} s (cx : observer C) pos :
  pos <= last s -> advancing s (advance_rulelist s cx) pos.
Proof.
  intros Hpos st. unfold advance_rulelist. cbv zeta.
  pose proof (advance_rule_advances s cx) as Hrule.
  repeat wp_step; wp_adv.
Qed.

Lemma advance_defined_as_run_advances {C} s pos :
  pos <= last s -> advancing s (@advance_defined_as_run C s) pos.
Proof.
  intros Hpos st. unfold advance_defined_as_run. repeat wp_step; wp_adv.
Qed.

(** X15. Every advancer keeps the promise of its documentation for the
    answer true: from a cursor within the input, when it returns true the
    cursor has advanced by at least one position; whatever it returns, the
    cursor has not gone back and is within the input. *)
Theorem success_advances {C} (s : list ascii) (cx : observer C) a pos st r pos' st' :
  In a (structural_advancers s cx) ->
  pos <= last s ->
  a pos st = Ret (r, pos', st') ->
  pos <= pos' <= last s /\ (r = true -> pos < pos').
Proof.
  intros Ha Hpos E.
  assert (Hs : advancing s a pos).
  { cbn [structural_advancers In] in Ha.
    repeat (destruct Ha as [<- | Ha]);
      [ now apply advance_prose_advances
      | now apply advance_number_advances
      | now apply advance_quoted_string_advances
      | now apply advance_repeat_advances
      | now apply advance_rulename_advances
      | apply (advance_element_with_advances s cx _ 0
                 (advance_alternation_advances_inside s cx)); lia
      | apply (advance_repetition_with_advances s cx _ 0
                 (advance_alternation_advances_inside s cx)); lia
      | apply (advance_concatenation_with_advances s cx _ 0
                 (advance_alternation_advances_inside s cx)); lia
      | now apply advance_alternation_advances
      | apply (advance_group_with_advances s cx _ 0
                 (advance_alternation_advances_inside s cx)); lia
      | apply (advance_option_with_advances s cx _ 0
                 (advance_alternation_advances_inside s cx)); lia
      | now apply advance_defined_as_run_advances
      | now apply advance_elements_advances
      | now apply advance_rule_advances
      | now apply advance_rulelist_advances
      | contradiction ]. }
  exact (holds_inv _ _ _ _ _ (Hs st) E).
Qed.

Lemma success_advances_witness :
  advance_rulename (chars "ab") accept_all 0 start =
    Ret (true, 2, {| trace := [(ev_rulename 0 2, true)]; ctx := tt |}) /\
  0 <= 2 <= last (chars "ab") /\ (true = true -> 0 < 2).
Proof.
  assert (E : advance_rulename (chars "ab") accept_all 0 start =
              Ret (true, 2, {| trace := [(ev_rulename 0 2, true)]; ctx := tt |}))
    by reflexivity.
  split; [exact E|].
  apply (success_advances (chars "ab") accept_all (advance_rulename (chars "ab") accept_all)
           0 start true 2 _ ltac:(cbn; tauto) ltac:(cbn; lia) E).
Defined.

(** ** A production refused at its beginning *)

(** The run of a bracket whose [begin_*] callback is refused. *)
Ltac refused Hveto :=
  unfold bind at 1; rewrite call_logged, Hveto;
  cbn [res_bind fst snd]; unfold and_then at 1;
  repeat (unfold bind at 1; unfold ret at 1; cbn [res_bind fst snd];
          try (unfold and_then at 1));
  rewrite ?call_logged; cbn [res_bind fst snd];
  unfold ret; rewrite ?andb_false_r; reflexivity.

Lemma refused_run {C} (s : list ascii) (cx : observer C) a e_begin e_end opens
    pos st :
  In (a, e_begin, e_end, opens) (vetoable_advancers s cx) ->
  pos <= last s ->
  answered cx e_begin st = false ->
  a pos st =
  Ret (false, pos,
       if opens pos then logged cx (e_end false) (logged cx e_begin st) else st).
Proof.
  intros Ha Hpos Hveto.
  assert (Hend : pos = last s -> stands_at s "(" pos = false /\ stands_at s "[" pos = false).
  { intros ->. unfold stands_at.
    replace (nth_error s (last s)) with (@None ascii)
      by (symmetry; apply nth_error_None; unfold last; lia).
    split; reflexivity. }
  cbn [vetoable_advancers In] in Ha.
  repeat (destruct Ha as [Ha | Ha]; [inversion Ha; subst; clear Ha|]);
    try contradiction.
  - unfold advance_rulelist. refused Hveto.
  - unfold advance_alternation. cbn [advance_alternation_at].
    unfold advance_alternation_with.
    destruct (pos =? last s); [reflexivity|]. cbn [negb].
    refused Hveto.
  - unfold advance_concatenation, advance_concatenation_with.
    destruct (pos =? last s); [reflexivity|]. cbn [negb].
    refused Hveto.
  - unfold advance_group, advance_group_with.
    destruct (pos =? last s) eqn:E.
    { apply Nat.eqb_eq in E. now rewrite (proj1 (Hend E)). }
    apply Nat.eqb_neq in E.
    destruct (deref_ok s pos ltac:(lia)) as (ch & Hd & Hn).
    unfold bind at 1. unfold lift at 1. rewrite Hd. cbn [res_bind fst snd].
    unfold stands_at. rewrite Hn.
    destruct (Ascii.eqb ch "("); cbn [negb]; [|reflexivity].
    refused Hveto.
  - unfold advance_option, advance_option_with.
    destruct (pos =? last s) eqn:E.
    { apply Nat.eqb_eq in E. now rewrite (proj2 (Hend E)). }
    apply Nat.eqb_neq in E.
    destruct (deref_ok s pos ltac:(lia)) as (ch & Hd & Hn).
    unfold bind at 1. unfold lift at 1. rewrite Hd. cbn [res_bind fst snd].
    unfold stands_at. rewrite Hn.
    destruct (Ascii.eqb ch "["); cbn [negb]; [|reflexivity].
    refused Hveto.
Qed.

(** X16. A context that answers false to [begin_document],
    [begin_alternation], [begin_concatenation], [begin_group] or
    [begin_option] refuses the production: from every cursor within the
    input the advancer returns false with the cursor where it was; where it
    makes the [begin_*] callback at all, it reads nothing further and makes
    the [end_*] callback with false at once, no callback coming between the
    two; where it does not, it makes no callback. *)
Theorem refused_at_begin {C} (s : list ascii) (cx : observer C) a e_begin e_end opens
    pos st :
  In (a, e_begin, e_end, opens) (vetoable_advancers s cx) ->
  pos <= last s ->
  answered cx e_begin st = false ->
  a pos st =
  Ret (false, pos,
       if opens pos then logged cx (e_end false) (logged cx e_begin st) else st).
Proof.
  intros Ha Hpos Hveto. exact (refused_run s cx a e_begin e_end opens pos st Ha Hpos Hveto).
Qed.

Lemma refused_at_begin_witness :
  advance_rulelist number_rule refuse_document 0 start =
  Ret (false, 0,
       {| trace := [(ev_begin_document, false); (ev_end_document false, true)];
          ctx := tt |}).
Proof.
  apply (refused_at_begin number_rule refuse_document
           (advance_rulelist number_rule refuse_document)
           ev_begin_document ev_end_document (fun _ => true) 0 start).
  - cbn. tauto.
  - cbn. lia.
  - reflexivity.
Defined.

(** ** At the end of the input *)

(** X17. Called with the cursor at the end of the input, every advancer
    but [advance_rulelist] returns false at once: no character is read, no
    callback is made and the cursor stays. [advance_rulelist] opens and
    closes the document, whatever the context answers, and returns false: an
    empty input is no rule list. *)
Theorem at_end_of_input {C} (s : list ascii) (cx : observer C) st :
  (forall a, In a (inner_advancers s cx) -> a (last s) st = Ret (false, last s, st)) /\
  advance_rulelist s cx (last s) st =
  Ret (false, last s, logged cx (ev_end_document false) (logged cx ev_begin_document st)).
Proof.
  assert (Halt : forall st, advance_alternation s cx (last s) st = Ret (false, last s, st)).
  { intros st0. unfold advance_alternation. cbn [advance_alternation_at].
    unfold advance_alternation_with. now rewrite Nat.eqb_refl. }
  assert (Hrule : forall st, advance_rule s cx (last s) st = Ret (false, last s, st)).
  { intros st0. unfold advance_rule. now rewrite Nat.eqb_refl. }
  split.
  - intros a Ha. unfold inner_advancers in Ha.
    cbn [structural_advancers removelast In] in Ha.
    repeat (destruct Ha as [<- | Ha]); try contradiction.
    + unfold advance_prose. now rewrite Nat.eqb_refl.
    + unfold advance_number. now rewrite Nat.eqb_refl.
    + unfold advance_quoted_string. now rewrite Nat.eqb_refl.
    + unfold advance_repeat. now rewrite Nat.eqb_refl.
    + unfold advance_rulename. now rewrite Nat.eqb_refl.
    + unfold advance_element, advance_element_with. now rewrite Nat.eqb_refl.
    + unfold advance_repetition, advance_repetition_with. now rewrite Nat.eqb_refl.
    + unfold advance_concatenation, advance_concatenation_with. now rewrite Nat.eqb_refl.
    + apply Halt.
    + unfold advance_group, advance_group_with. now rewrite Nat.eqb_refl.
    + unfold advance_option, advance_option_with. now rewrite Nat.eqb_refl.
    + unfold advance_defined_as_run, advance_defined_as, bind, lift.
      now rewrite Nat.eqb_refl.
    + unfold advance_elements, bind. now rewrite Halt.
    + apply Hrule.
  - assert (Hskip : skip_comment_whitespace s (last s) = Ret (last s)).
    { unfold skip_comment_whitespace. rewrite Nat.sub_diag.
      cbn [skip_comment_whitespace_from]. unfold advance_comment_whitespace.
      now rewrite Nat.eqb_refl. }
    unfold advance_rulelist.
    unfold bind at 1. rewrite call_logged. cbn [res_bind fst snd].
    assert (Hbody : forall success st1,
              and_then success
                (fun pos =>
                   advance_repetition_by_range s pos (make_range 1)
                     (fun pos =>
                        bind (advance_rule s cx pos)
                          (fun x => let '(ruled, p) := x in
                             if ruled then ret (compare_and_assign pos p) else
                             bind (lift (skip_comment_whitespace s p))
                               (fun p =>
                                  if negb (p =? last s) then
                                    bind (lift (advance_comment_newline s p))
                                      (fun x => let '(cnl, p) := x in
                                         if negb cnl then ret (false, pos) else
                                         ret (compare_and_assign pos p))
                                  else ret (compare_and_assign pos p)))))
                (last s) st1 = Ret (false, last s, st1)).
    { intros success st1. unfold and_then. destruct success; [|reflexivity].
      unfold advance_repetition_by_range, make_range.
      change (INT_MAX <? 1)%Z with false. cbv iota.
      rewrite Nat.sub_diag. unfold bind at 1. cbn [repetition_loop].
      change (INT_MAX <=? 0)%Z with false. cbv iota.
      unfold bind at 1. unfold bind at 1. rewrite Hrule. cbn [res_bind fst snd].
      unfold bind at 1. unfold lift at 1. rewrite Hskip. cbn [res_bind fst snd].
      rewrite Nat.eqb_refl. cbn [negb]. unfold compare_and_assign.
      rewrite Nat.eqb_refl. reflexivity. }
    unfold bind at 1. rewrite Hbody. cbn [res_bind fst snd].
    unfold bind. rewrite call_logged. cbn [res_bind fst snd].
    unfold ret. now rewrite andb_false_r.
Qed.

Lemma at_end_of_input_witness :
  advance_element (chars "a") accept_all 1 start = Ret (false, 1, start).
Proof.
  apply (proj1 (at_end_of_input (chars "a") accept_all start)
           (advance_element (chars "a") accept_all)).
  cbn. tauto.
Defined.

(** ** The sign that defines a rule *)

Lemma advance_comment_whitespace_stops s p :
  ends_run begins_c_wsp (skipn p s) ->
  p <= last s ->
  advance_comment_whitespace s p = Ret (false, p).
Proof.
  intros Hend Hp. unfold advance_comment_whitespace.
  destruct (p =? last s) eqn:E; [reflexivity|]. apply Nat.eqb_neq in E.
  destruct (skipn p s) as [|ch rest] eqn:Hs.
  - pose proof (f_equal (@List.length ascii) Hs) as Hl.
    rewrite length_skipn_last in Hl. cbn in Hl. lia.
  - cbn in Hend. unfold begins_c_wsp in Hend.
    apply orb_false_iff in Hend as [Hend Hsemi].
    apply orb_false_iff in Hend as [Hend Hlf].
    apply orb_false_iff in Hend as [Hws Hcr].
    destruct (skipn_cons _ _ _ _ Hs) as (Hn & _ & _).
    rewrite (deref_skipn _ _ _ _ Hs). cbn [res_bind]. rewrite Hws.
    unfold advance_comment_newline, advance_newline. rewrite Hn, Hcr, Hlf.
    unfold advance_comment.
    replace (p =? last s) with false by (symmetry; apply Nat.eqb_neq; assumption).
    rewrite (deref_skipn _ _ _ _ Hs). cbn [res_bind]. rewrite Hsemi. reflexivity.
Qed.

Lemma skip_comment_whitespace_from_run s rest : forall ws fuel p,
  skipn p s = ws ++ rest ->
  p <= last s ->
  Forall (fun ch => is_whitespace_char ch = true) ws ->
  ends_run begins_c_wsp rest ->
  List.length ws < fuel ->
  skip_comment_whitespace_from s fuel p = Ret (p + List.length ws).
Proof.
  induction ws as [|c ws IH]; intros fuel p Hs Hp Hws Hend Hfuel;
    (destruct fuel as [|fuel]; [cbn [List.length] in Hfuel; lia|]);
    cbn [skip_comment_whitespace_from].
  - cbn [app] in Hs. rewrite advance_comment_whitespace_stops.
    + cbn [res_bind List.length]. now rewrite Nat.add_0_r.
    + now rewrite Hs.
    + assumption.
  - inversion Hws as [|? ? Hc Hrest]; subst.
    destruct (skipn_cons _ _ _ _ Hs) as (_ & Htail & Hlt).
    unfold advance_comment_whitespace.
    replace (p =? last s) with false by (symmetry; apply Nat.eqb_neq; lia).
    rewrite (deref_skipn _ _ _ _ Hs). cbn [res_bind]. rewrite Hc.
    unfold compare_and_assign.
    replace (p =? S p) with false by (symmetry; apply Nat.eqb_neq; lia).
    cbn [res_bind]. rewrite (IH fuel (S p) Htail) by (cbn in Hfuel; first [assumption | lia]).
    cbn [List.length]. f_equal. lia.
Qed.

Lemma skip_comment_whitespace_run s p ws rest :
  skipn p s = ws ++ rest ->
  p <= last s ->
  Forall (fun ch => is_whitespace_char ch = true) ws ->
  ends_run begins_c_wsp rest ->
  skip_comment_whitespace s p = Ret (p + List.length ws).
Proof.
  intros Hs Hp Hws Hend. unfold skip_comment_whitespace.
  apply (skip_comment_whitespace_from_run s rest ws); try assumption.
  pose proof (f_equal (@List.length ascii) Hs) as Hl.
  rewrite length_skipn_last, length_app in Hl. lia.
Qed.

(** X18. The sign that defines a rule, with white space on either side:
    on [*WSP "=" *WSP] [advance_defined_as] returns true with the cursor
    after the white space that follows the sign and tells a basic
    definition; on [*WSP "=/" *WSP] it does the same and tells incremental
    alternatives. White space means spaces and tabs here, followed by the
    end of the input or a character that begins no [c-wsp]. *)
Theorem advance_defined_as_sign s pos before after rest :
  Forall (fun ch => is_whitespace_char ch = true) before ->
  Forall (fun ch => is_whitespace_char ch = true) after ->
  ends_run begins_c_wsp rest ->
  (skipn pos s = before ++ "="%char :: after ++ rest ->
   hd_error (after ++ rest) <> Some "/"%char ->
   advance_defined_as s pos =
   Ret (true, S (pos + List.length before) + List.length after, false)) /\
  (skipn pos s = before ++ "="%char :: "/"%char :: after ++ rest ->
   advance_defined_as s pos =
   Ret (true, S (S (pos + List.length before)) + List.length after, true)).
Proof.
  intros Hbefore Hafter Hend.
  assert (Hsign : ends_run begins_c_wsp ("="%char :: after ++ rest)) by reflexivity.
  split.
  - intros Hs Hslash.
    pose proof (skipn_app_run _ _ _ _ Hs) as Hs1.
    destruct (skipn_cons _ _ _ _ Hs1) as (_ & Hs2 & Hlt).
    unfold advance_defined_as.
    replace (pos =? last s) with false by (symmetry; apply Nat.eqb_neq; lia).
    rewrite (skip_comment_whitespace_run s pos before _ Hs) by (assumption || lia).
    cbn [res_bind].
    replace (pos + List.length before =? last s) with false
      by (symmetry; apply Nat.eqb_neq; lia).
    rewrite (deref_skipn _ _ _ _ Hs1). cbn [res_bind].
    change (Ascii.eqb "=" "=") with true. cbv iota.
    assert (Hnext : (if negb (S (pos + List.length before) =? last s)
                     then res_bind (deref s (S (pos + List.length before)))
                            (fun ch' => if Ascii.eqb ch' "/"
                                        then Ret (S (S (pos + List.length before)), true)
                                        else Ret (S (pos + List.length before), false))
                     else Ret (S (pos + List.length before), false)) =
                    Ret (S (pos + List.length before), false)).
    { destruct (S (pos + List.length before) =? last s) eqn:E; [reflexivity|].
      apply Nat.eqb_neq in E. cbn [negb].
      destruct (after ++ rest) as [|ch tail] eqn:Ht.
      - pose proof (f_equal (@List.length ascii) Hs2) as Hl.
        rewrite length_skipn_last in Hl. cbn in Hl. lia.
      - rewrite (deref_skipn _ _ _ _ Hs2). cbn [res_bind].
        destruct (Ascii.eqb_spec ch "/") as [->|]; [|reflexivity].
        now contradiction Hslash. }
    rewrite Hnext. cbn [res_bind].
    rewrite (skip_comment_whitespace_run s _ after rest Hs2) by (assumption || lia).
    cbn [res_bind]. unfold compare_and_assign.
    replace (pos =? S (pos + List.length before) + List.length after) with false
      by (symmetry; apply Nat.eqb_neq; lia).
    reflexivity.
  - intros Hs.
    pose proof (skipn_app_run _ _ _ _ Hs) as Hs1.
    destruct (skipn_cons _ _ _ _ Hs1) as (_ & Hs2 & Hlt).
    destruct (skipn_cons _ _ _ _ Hs2) as (_ & Hs3 & Hlt2).
    unfold advance_defined_as.
    replace (pos =? last s) with false by (symmetry; apply Nat.eqb_neq; lia).
    rewrite (skip_comment_whitespace_run s pos before _ Hs) by (assumption || lia).
    cbn [res_bind].
    replace (pos + List.length before =? last s) with false
      by (symmetry; apply Nat.eqb_neq; lia).
    rewrite (deref_skipn _ _ _ _ Hs1). cbn [res_bind].
    change (Ascii.eqb "=" "=") with true. cbv iota.
    replace (S (pos + List.length before) =? last s) with false
      by (symmetry; apply Nat.eqb_neq; lia).
    cbn [negb]. rewrite (deref_skipn _ _ _ _ Hs2). cbn [res_bind].
    change (Ascii.eqb "/" "/") with true. cbv iota. cbn [res_bind].
    rewrite (skip_comment_whitespace_run s _ after rest Hs3) by (assumption || lia).
    cbn [res_bind]. unfold compare_and_assign.
    replace (pos =? S (S (pos + List.length before)) + List.length after) with false
      by (symmetry; apply Nat.eqb_neq; lia).
    reflexivity.
Qed.

Lemma advance_defined_as_sign_witness :
  advance_defined_as (chars "r = %d1") 1 = Ret (true, 4, false) /\
  advance_defined_as (chars "r =/ %d1") 1 = Ret (true, 5, true).
Proof.
  split.
  - apply (proj1 (advance_defined_as_sign (chars "r = %d1") 1
                    (chars " ") (chars " ") (chars "%d1")
                    ltac:(repeat constructor) ltac:(repeat constructor) eq_refl)).
    + reflexivity.
    + discriminate.
  - apply (proj2 (advance_defined_as_sign (chars "r =/ %d1") 1
                    (chars " ") (chars " ") (chars "%d1")
                    ltac:(repeat constructor) ltac:(repeat constructor) eq_refl)).
    reflexivity.
Defined.

(** ** The positions handed to the context *)

Lemma ranged_refl {C} s (st : run_state C) : ranged s st st.
Proof. exists []. split; [now rewrite app_nil_r | reflexivity]. Qed.

Lemma ranged_trans {C} s (st1 st2 st3 : run_state C) :
  ranged s st1 st2 -> ranged s st2 st3 -> ranged s st1 st3.
Proof.
  intros (d1 & H1 & N1) (d2 & H2 & N2). exists (d1 ++ d2). split.
  - now rewrite H2, H1, app_assoc.
  - rewrite forallb_app, N1, N2. reflexivity.
Qed.

Lemma ranged_call {C} s (st st1 : run_state C) e answer (c : C) :
  spans_within s e = true -> ranged s st st1 ->
  ranged s st {| trace := trace st1 ++ [(e, answer)]; ctx := c |}.
Proof.
  intros He H. apply (ranged_trans _ _ _ _ H).
  exists [(e, answer)]. split; [reflexivity|]. cbn. now rewrite He.
Qed.

(** The positions of a callback are where they may be. *)
Ltac in_range :=
  cbn [spans_within];
  first [ reflexivity
        | apply andb_true_iff; split; apply Nat.leb_le; progress_bounds
        | apply Nat.leb_le; progress_bounds ].

Ltac range :=
  repeat first
    [ assumption
    | apply ranged_refl
    | apply ranged_call; [in_range | ]
    | eapply ranged_trans; [ | eassumption ] ].

Ltac wp_range :=
  lazymatch goal with
  | |- _ /\ ranged _ _ _ => split; [wp_adv | range]
  end.

Ltac use_ranging H :=
  eapply holds_weaken;
  [ apply H; bounds
  | intros [? ?] ? [[? ?] ?]; cbn [fst snd] in * ].

Lemma advance_rulename_helper_named s pos first_pos last_pos :
  pos < last s ->
  always (advance_rulename_helper s pos first_pos last_pos)
    (fun x => let '(moved, pos', rulename_first, rulename_last) := x in
       stepped s pos (moved, pos') /\
       (moved = true -> rulename_first = pos /\ rulename_last = pos')).
Proof.
  intros H. unfold advance_rulename_helper.
  apply always_bind, deref_always; [assumption|]. intros ch _.
  destruct (negb (is_alpha_char ch)).
  - apply always_ret. split; [apply stepped_stay; lia | discriminate].
  - pose proof (advance_while_bounds s
                  (fun ch => is_alpha_char ch || is_digit_char ch || Ascii.eqb ch "-")
                  (S pos) ltac:(lia)) as Hw.
    unfold compare_and_assign.
    replace (pos =? _) with false by (symmetry; apply Nat.eqb_neq; lia).
    apply always_ret. split; [|auto].
    unfold stepped. cbn [fst snd]. repeat split; intros; try discriminate; lia.
Qed.

Lemma repeat_scan_spans s pos :
  pos < last s ->
  always (repeat_scan s pos)
    (fun x => let '(p, _, first_to, _) := x in pos <= p <= last s /\ first_to <= last s).
Proof.
  intros H. unfold repeat_scan.
  apply always_bind, deref_always; [assumption|]. intros ch _.
  pose proof (advance_chars_stepped s is_digit_char pos ltac:(lia)) as (Hb & _).
  fold (advance_digit_chars s pos) in Hb.
  destruct (is_digit_char ch).
  - destruct (snd (advance_digit_chars s pos) =? last s) eqn:E.
    + apply always_ret. lia.
    + apply Nat.eqb_neq in E.
      apply always_bind, deref_always; [lia|]. intros ch' _.
      destruct (Ascii.eqb ch' "*"); [|apply always_ret; lia].
      destruct (S (snd (advance_digit_chars s pos)) =? last s) eqn:E'.
      * apply always_ret. lia.
      * apply Nat.eqb_neq in E'.
        apply always_bind, deref_always; [lia|]. intros d _.
        destruct (is_digit_char d); [|apply always_ret; lia].
        pose proof (advance_chars_stepped s is_digit_char
                      (S (snd (advance_digit_chars s pos))) ltac:(lia)) as (Hb' & _).
        fold (advance_digit_chars s (S (snd (advance_digit_chars s pos)))) in Hb'.
        apply always_ret. lia.
  - apply always_bind, deref_always; [lia|]. intros ch' _.
    destruct (Ascii.eqb ch' "*"); [|apply always_ret; lia].
    destruct (S pos =? last s) eqn:E'.
    + apply always_ret. lia.
    + apply Nat.eqb_neq in E'.
      apply always_bind, deref_always; [lia|]. intros d _.
      destruct (is_digit_char d); [|apply always_ret; lia].
      pose proof (advance_chars_stepped s is_digit_char (S pos) ltac:(lia)) as (Hb' & _).
      fold (advance_digit_chars s (S pos)) in Hb'.
      apply always_ret. lia.
Qed.

Lemma quoted_string_from_error rest : forall first_pos p length max_length ec near_pos,
  quoted_string_from rest first_pos p length max_length = inl (ec, near_pos) ->
  near_pos = first_pos \/ p <= near_pos < p + List.length rest.
Proof.
  induction rest as [|ch rest IH]; intros first_pos p len max_length ec near_pos H;
    cbn [quoted_string_from List.length] in *.
  - discriminate.
  - destruct (is_dquote_char ch); [discriminate|].
    destruct (negb (is_visible_char ch || is_space_char ch)); [inversion H; lia|].
    destruct (len =? max_length)%Z; [inversion H; auto|].
    apply IH in H. lia.
Qed.

Lemma advance_prose_ranges {C} s (cx : observer C) pos :
  pos <= last s -> ranging s (advance_prose s cx) pos.
Proof.
  intros Hpos st. unfold advance_prose. cbv zeta.
  pose proof (advance_while_bounds s is_prose_value_char (S pos)) as Hw.
  repeat wp_step; wp_range.
Qed.

Lemma number_sequence_ranges {C} s (cx : observer C) f flag :
  forall fuel success p (st0 st : run_state C),
    p <= last s -> last s - p < fuel -> ranged s st0 st ->
    holds st (number_sequence s cx fuel (advance_chars s f) f flag success p)
      (fun r st' =>
         ranged s st0 st' /\
         match r with Some (_, q) => p <= q <= last s | None => True end).
Proof.
  induction fuel as [|fuel IH]; intros success p st0 st Hp Hfuel Hg; [lia|].
  cbn [number_sequence].
  repeat wp_step; try (split; [range | first [exact I | bounds]]).
  all: eapply holds_weaken; [apply (IH _ _ st0); [bounds | bounds | range]|].
  all: intros [[success' q']|] st' [Hg' Hq]; (split; [assumption|]);
    first [exact I | bounds].
Qed.

Ltac wp_known ::=
  lazymatch goal with
  | |- holds ?st (number_sequence ?s ?cx _ (advance_chars ?s ?f) ?f ?flag _ _) _ =>
      eapply holds_weaken;
      [ apply (number_sequence_ranges s cx f flag _ _ _ st st);
        [bounds | bounds | apply ranged_refl]
      | intros [[? ?]|] ? [? ?] ]
  | |- holds _ (lift (skip_comment_whitespace ?s ?p)) _ =>
      use_always (skip_comment_whitespace_always s p); intros ? ?; cbv beta in *
  | |- holds _ (lift (skip_linear_whitespace ?s ?p)) _ =>
      use_always (skip_linear_whitespace_always s p); intros ? ?; cbv beta in *
  | |- holds _ (lift (advance_comment_whitespace ?s ?p)) _ =>
      use_always (advance_comment_whitespace_stepped s p); intros [? ?] ?
  | |- holds _ (lift (advance_comment_newline ?s ?p)) _ =>
      use_always (advance_comment_newline_stepped s p); intros [? ?] ?
  | |- holds _ (lift (advance_rulename_helper ?s ?p ?a ?b)) _ =>
      use_always (advance_rulename_helper_named s p a b);
      intros [[[? ?] ?] ?] [? ?]; cbv beta iota in *
  | |- holds _ (lift (advance_defined_as ?s ?p)) _ =>
      use_always (advance_defined_as_stepped s p);
      intros [[? ?] ?] ?; cbv beta iota in *
  | |- holds _ (lift (repeat_scan ?s ?p)) _ =>
      use_always (repeat_scan_spans s p);
      intros [[[? ?] ?] ?] [? ?]; cbv beta iota in *
  end.

Lemma advance_number_ranges {C} s (cx : observer C) pos :
  pos <= last s -> ranging s (advance_number s cx) pos.
Proof.
  intros Hpos st. unfold advance_number. cbv zeta. repeat wp_step; wp_range.
Qed.

Lemma advance_quoted_string_ranges {C} s (cx : observer C) pos :
  pos <= last s -> ranging s (advance_quoted_string s cx) pos.
Proof.
  intros Hpos st. unfold advance_quoted_string. cbv zeta.
  wp_step; [repeat wp_step; wp_range|]. wp_step. wp_step.
  wp_step; [repeat wp_step; wp_range|]. wp_step; [repeat wp_step; wp_range|].
  unfold holds at 1. cbv beta.
  destruct (quoted_string_from _ _ _ _ _) as [[ec near_pos]|p] eqn:Hq.
  - apply quoted_string_from_error in Hq.
    rewrite length_skipn_last in Hq.
    change (holds st (fail_with cx ec near_pos pos)
              (fun x st' => advanced s pos x st' /\ ranged s st st')).
    repeat wp_step; wp_range.
  - apply quoted_string_from_bounds in Hq.
    rewrite length_skipn_last in Hq.
    match goal with |- match ?c st with _ => _ end =>
      change (holds st c (fun x st' => advanced s pos x st' /\ ranged s st st')) end.
    repeat wp_step; wp_range.
Qed.

Lemma advance_repeat_ranges {C} s (cx : observer C) pos :
  pos <= last s -> ranging s (advance_repeat s cx) pos.
Proof.
  intros Hpos st. unfold advance_repeat. cbv zeta. repeat wp_step; wp_range.
Qed.

Lemma advance_rulename_ranges {C} s (cx : observer C) pos :
  pos <= last s -> ranging s (advance_rulename s cx) pos.
Proof.
  intros Hpos st. unfold advance_rulename. repeat wp_step; wp_range.
Qed.

Lemma repetition_loop_ranges {C} s (op : advancer C) high pos0 :
  (forall q, pos0 <= q <= last s -> ranging s op q) ->
  forall fuel count p (st0 st : run_state C),
    pos0 <= p <= last s -> last s - p < fuel -> ranged s st0 st ->
    holds st (repetition_loop fuel op high count p)
      (fun x st' =>
         (p <= snd x <= last s /\ (count <= fst x)%Z /\
          ((count < fst x)%Z -> p < snd x)) /\
         ranged s st0 st').
Proof.
  intros Hop.
  induction fuel as [|fuel IH]; intros count p st0 st Hp Hfuel Hg; [lia|].
  cbn [repetition_loop].
  destruct (high <=? count)%Z;
    [apply holds_ret; cbn [fst snd]; split; [lia | assumption]|].
  apply holds_bind.
  eapply holds_weaken; [apply (Hop p); lia|].
  intros [success p'] st1 [[Hb Hm] Hr]. cbn [fst snd] in *.
  assert (Hg1 : ranged s st0 st1) by (apply (ranged_trans _ _ _ _ Hg Hr)).
  destruct success.
  - specialize (Hm eq_refl).
    eapply holds_weaken; [apply (IH _ p' st0); [lia | lia | assumption]|].
    intros x st' [(Hx & Hc & _) Hg']. split; [lia | assumption].
  - apply holds_ret. cbn [fst snd]. split; [lia | assumption].
Qed.

Lemma advance_repetition_by_range_ranges {C} s range (op : advancer C) pos
    (st : run_state C) :
  pos <= last s ->
  (forall q, pos <= q <= last s -> ranging s op q) ->
  holds st (advance_repetition_by_range s pos range op)
    (fun x st' =>
       (pos <= snd x <= last s /\ (fst x = true -> (1 <= fst range)%Z -> pos < snd x)) /\
       ranged s st st').
Proof.
  intros Hpos Hop. unfold advance_repetition_by_range.
  destruct range as [low high]. cbn [fst].
  destruct (high <? low)%Z;
    [apply holds_ret; cbn [fst snd]; split;
     [split; [lia | discriminate] | apply ranged_refl]|].
  apply holds_bind.
  eapply holds_weaken;
    [apply (repetition_loop_ranges s op high pos Hop _ _ _ st st);
     [lia | lia | apply ranged_refl]|].
  intros [count p] st' [(Hp & Hc & Hm) Hr]. cbn [fst snd] in *.
  destruct ((low <=? count)%Z && (count <=? high)%Z) eqn:E.
  - apply andb_true_iff in E as [E _]. apply Z.leb_le in E.
    apply holds_ret. cbn [fst snd]. split; [|assumption].
    split; [lia|]. intros _ Hlow. apply Hm. lia.
  - apply holds_ret. cbn [fst snd]. split; [|apply ranged_trans with st'; [assumption|]].
    + split; [lia | discriminate].
    + apply ranged_refl.
Qed.

Ltac wp_known ::=
  lazymatch goal with
  | |- holds _ (lift (skip_comment_whitespace ?s ?p)) _ =>
      use_always (skip_comment_whitespace_always s p); intros ? ?; cbv beta in *
  | |- holds _ (lift (skip_linear_whitespace ?s ?p)) _ =>
      use_always (skip_linear_whitespace_always s p); intros ? ?; cbv beta in *
  | |- holds _ (lift (advance_comment_whitespace ?s ?p)) _ =>
      use_always (advance_comment_whitespace_stepped s p); intros [? ?] ?
  | |- holds _ (lift (advance_comment_newline ?s ?p)) _ =>
      use_always (advance_comment_newline_stepped s p); intros [? ?] ?
  | |- holds _ (lift (advance_rulename_helper ?s ?p ?a ?b)) _ =>
      use_always (advance_rulename_helper_named s p a b);
      intros [[[? ?] ?] ?] [? ?]; cbv beta iota in *
  | |- holds _ (lift (advance_defined_as ?s ?p)) _ =>
      use_always (advance_defined_as_stepped s p);
      intros [[? ?] ?] ?; cbv beta iota in *
  | |- holds _ (advance_prose ?s ?cx ?p) _ => use_ranging (advance_prose_ranges s cx p)
  | |- holds _ (advance_number ?s ?cx ?p) _ => use_ranging (advance_number_ranges s cx p)
  | |- holds _ (advance_quoted_string ?s ?cx ?p) _ =>
      use_ranging (advance_quoted_string_ranges s cx p)
  | |- holds _ (advance_repeat ?s ?cx ?p) _ => use_ranging (advance_repeat_ranges s cx p)
  | |- holds _ (advance_rulename ?s ?cx ?p) _ =>
      use_ranging (advance_rulename_ranges s cx p)
  | |- holds _ (advance_repetition_by_range ?s ?p ?range ?op) _ =>
      eapply holds_weaken;
      [ apply (advance_repetition_by_range_ranges s range op p);
        [ bounds | unfold ranging; intros ? ? ?; cbv beta ]
      | intros [? ?] ? [[? ?] ?];
        try unfold make_range, unlimited_range in *; cbn [fst snd] in * ]
  | |- holds _ (?a ?p) _ =>
      match goal with
      | H : forall q, _ -> ranging _ a q |- _ => use_ranging (H p)
      end
  end.

Section LevelRanges.

Context {C : Type} (s : list ascii) (cx : observer C).
Variable alternation_inside : advancer C.
Variable pos0 : nat.
Hypothesis inside_ranges :
  forall q, pos0 < q <= last s -> ranging s alternation_inside q.

Lemma advance_group_or_option_with_ranges pos :
  pos0 <= pos <= last s ->
  ranging s (advance_group_or_option_with s alternation_inside) pos.
Proof.
  intros Hpos st. unfold advance_group_or_option_with. cbv zeta.
  repeat wp_step; wp_range.
Qed.

Lemma advance_group_with_ranges pos :
  pos0 <= pos <= last s ->
  ranging s (advance_group_with s cx alternation_inside) pos.
Proof.
  intros Hpos st. unfold advance_group_with. cbv zeta.
  pose proof advance_group_or_option_with_ranges as Hinner.
  repeat wp_step; wp_range.
Qed.

Lemma advance_option_with_ranges pos :
  pos0 <= pos <= last s ->
  ranging s (advance_option_with s cx alternation_inside) pos.
Proof.
  intros Hpos st. unfold advance_option_with. cbv zeta.
  pose proof advance_group_or_option_with_ranges as Hinner.
  repeat wp_step; wp_range.
Qed.

Lemma advance_element_with_ranges pos :
  pos0 <= pos <= last s ->
  ranging s (advance_element_with s cx alternation_inside) pos.
Proof.
  intros Hpos st. unfold advance_element_with.
  pose proof advance_group_with_ranges as Hgroup.
  pose proof advance_option_with_ranges as Hoption.
  repeat wp_step; wp_range.
Qed.

Lemma advance_repetition_with_ranges pos :
  pos0 <= pos <= last s ->
  ranging s (advance_repetition_with s cx alternation_inside) pos.
Proof.
  intros Hpos st. unfold advance_repetition_with.
  pose proof advance_element_with_ranges as Helement.
  repeat wp_step; wp_range.
Qed.

Lemma advance_concatenation_with_ranges pos :
  pos0 <= pos <= last s ->
  ranging s (advance_concatenation_with s cx alternation_inside) pos.
Proof.
  intros Hpos st. unfold advance_concatenation_with. cbv zeta.
  pose proof advance_repetition_with_ranges as Hrepetition.
  repeat wp_step; wp_range.
Qed.

Lemma advance_alternation_with_ranges pos :
  pos0 <= pos <= last s ->
  ranging s (advance_alternation_with s cx alternation_inside) pos.
Proof.
  intros Hpos st. unfold advance_alternation_with. cbv zeta.
  pose proof advance_concatenation_with_ranges as Hconcatenation.
  repeat wp_step; wp_range.
Qed.

End LevelRanges.

Lemma advance_alternation_at_ranges {C} s (cx : observer C) : forall depth pos,
  pos <= last s -> last s - pos < depth ->
  ranging s (advance_alternation_at s cx depth) pos.
Proof.
  induction depth as [|depth IH]; intros pos Hpos Hdepth; [lia|].
  cbn [advance_alternation_at].
  apply (advance_alternation_with_ranges s cx _ pos); [|lia].
  intros q Hq. apply IH; lia.
Qed.

Lemma advance_alternation_ranges {C} s (cx : observer C) pos :
  pos <= last s -> ranging s (advance_alternation s cx) pos.
Proof.
  intros Hpos. apply advance_alternation_at_ranges; [assumption | lia].
Qed.

Lemma advance_alternation_ranges_inside {C} s (cx : observer C) :
  forall q, 0 < q <= last s -> ranging s (advance_alternation s cx) q.
Proof. intros q Hq. apply advance_alternation_ranges. lia. Qed.

Lemma advance_elements_ranges {C} s (cx : observer C) pos :
  pos <= last s -> ranging s (advance_elements s cx) pos.
Proof.
  intros Hpos st. unfold advance_elements. cbv zeta.
  pose proof (advance_alternation_ranges s cx) as Halternation.
  repeat wp_step; wp_range.
Qed.

Lemma advance_rule_ranges {C} s (cx : observer C) pos :
  pos <= last s -> ranging s (advance_rule s cx) pos.
Proof.
  intros Hpos st. unfold advance_rule. cbv zeta.
  pose proof (advance_elements_ranges s cx) as Helements.
  repeat wp_step; wp_range.
Qed.

Lemma advance_rulelist_ranges {C} s (cx : observer C) pos :
  pos <= last s -> ranging s (advance_rulelist s cx) pos.
Proof.
  intros Hpos st. unfold advance_rulelist. cbv zeta.
  pose proof (advance_rule_ranges s cx) as Hrule.
  repeat wp_step; wp_range.
Qed.

Lemma advance_defined_as_run_ranges {C} s pos :
  pos <= last s -> ranging s (@advance_defined_as_run C s) pos.
Proof.
  intros Hpos st. unfold advance_defined_as_run. repeat wp_step; wp_range.
Qed.

(** X20. The positions that the advancers hand to the context are
    positions of the input: for every callback made by a call from a cursor
    within the input, the first position of its span is not after the last
    one, and the last one and the position of an error are not beyond the end
    of the input. *)
Theorem callbacks_within_input {C} (s : list ascii) (cx : observer C) a pos st r pos' st' :
  In a (structural_advancers s cx) ->
  pos <= last s ->
  a pos st = Ret (r, pos', st') ->
  exists delta,
    trace st' = trace st ++ delta /\
    Forall (fun x => spans_within s (fst x) = true) delta.
Proof.
  intros Ha Hpos E.
  assert (Hs : ranging s a pos).
  { cbn [structural_advancers In] in Ha.
    repeat (destruct Ha as [<- | Ha]);
      [ now apply advance_prose_ranges
      | now apply advance_number_ranges
      | now apply advance_quoted_string_ranges
      | now apply advance_repeat_ranges
      | now apply advance_rulename_ranges
      | apply (advance_element_with_ranges s cx _ 0
                 (advance_alternation_ranges_inside s cx)); lia
      | apply (advance_repetition_with_ranges s cx _ 0
                 (advance_alternation_ranges_inside s cx)); lia
      | apply (advance_concatenation_with_ranges s cx _ 0
                 (advance_alternation_ranges_inside s cx)); lia
      | now apply advance_alternation_ranges
      | apply (advance_group_with_ranges s cx _ 0
                 (advance_alternation_ranges_inside s cx)); lia
      | apply (advance_option_with_ranges s cx _ 0
                 (advance_alternation_ranges_inside s cx)); lia
      | now apply advance_defined_as_run_ranges
      | now apply advance_elements_ranges
      | now apply advance_rule_ranges
      | now apply advance_rulelist_ranges
      | contradiction ]. }
  destruct (holds_inv _ _ _ _ _ (Hs st) E) as (_ & delta & Ht & Hall).
  exists delta. split; [exact Ht|].
  apply Forall_forall. intros x Hx. rewrite forallb_forall in Hall. now apply Hall.
Qed.

Lemma callbacks_within_input_witness :
  exists delta,
    trace {| trace := [(ev_error unbalanced_quote 1, true)]; ctx := tt |} =
      trace start ++ delta /\
    Forall (fun x => spans_within (chars (DQUOTE ++ "ab")) (fst x) = true) delta.
Proof.
  apply (callbacks_within_input (chars (DQUOTE ++ "ab")) accept_all
           (advance_quoted_string (chars (DQUOTE ++ "ab")) accept_all)
           0 start false 0 _ ltac:(cbn; tauto) ltac:(cbn; lia)).
  reflexivity.
Defined.

(** * Comments, strings that are not closed, and brackets left open *)

(** ** A comment is recognized and not reported *)

(** C4. A comment that is recognized is not reported. On a line that is a
    comment, a semicolon, any characters other than CR and LF, and CR LF,
    [advance_comment] recognizes the comment and the rule list accepts the
    input; whatever the context is, once it has accepted [begin_document] the
    callbacks of the whole run are [begin_document] and [end_document] with
    true, and no [comment] callback comes between them: [advance_comment] is
    not given the context. *)
Theorem advance_comment_makes_no_callback (body : list ascii) C (cx : observer C)
    (st : run_state C) :
  Forall (fun ch => is_cr_char ch = false /\ is_lf_char ch = false) body ->
  answered cx ev_begin_document st = true ->
  let s := ";"%char :: body ++ chars CRLF in
  let opened := logged cx ev_begin_document st in
  advance_comment s 0 = Ret (true, last s) /\
  advance_rulelist s cx 0 st =
  Ret (answered cx (ev_end_document true) opened, last s,
       logged cx (ev_end_document true) opened).
Proof.
  intros Hbody Hbegin s opened.
  assert (Hlast : last s = S (S (S (List.length body)))).
  { unfold last, s. cbn [List.length]. rewrite length_app. cbn. lia. }
  assert (Hcomment : advance_comment s 0 = Ret (true, last s)).
  { rewrite Hlast.
    replace (S (S (S (List.length body)))) with (0 + 1 + List.length body + 2) by lia.
    exact (advance_comment_recognizes [] body (chars LF) "013"%char Hbody eq_refl). }
  split; [exact Hcomment|].
  assert (Hrule_end : forall st1, advance_rule s cx (last s) st1 = Ret (false, last s, st1)).
  { intros st1. unfold advance_rule. now rewrite Nat.eqb_refl. }
  assert (Hskip_end : skip_comment_whitespace s (last s) = Ret (last s)).
  { unfold skip_comment_whitespace. rewrite Nat.sub_diag.
    cbn [skip_comment_whitespace_from]. unfold advance_comment_whitespace.
    now rewrite Nat.eqb_refl. }
  assert (Hzero : (0 =? last s) = false) by (rewrite Hlast; reflexivity).
  assert (Hrule : forall st1, advance_rule s cx 0 st1 = Ret (false, 0, st1)).
  { intros st1. unfold advance_rule. rewrite Hzero. reflexivity. }
  assert (Hnewline : advance_comment_newline s 0 = Ret (true, last s)).
  { unfold advance_comment_newline. cbn. exact Hcomment. }
  assert (Hskip : skip_comment_whitespace s 0 = Ret 0).
  { unfold skip_comment_whitespace. rewrite Nat.sub_0_r, Hlast.
    cbn [skip_comment_whitespace_from]. unfold advance_comment_whitespace at 1.
    rewrite Hzero. cbn [deref nth_error s res_bind].
    change (is_whitespace_char ";") with false. cbv iota.
    rewrite Hnewline. cbn [res_bind]. rewrite Nat.eqb_refl. reflexivity. }
  unfold advance_rulelist.
  unfold bind at 1. rewrite call_logged, Hbegin. cbn [res_bind fst snd]. fold opened.
  unfold and_then at 1. unfold bind at 1.
  unfold advance_repetition_by_range at 1. unfold make_range.
  change (INT_MAX <? 1)%Z with false. cbv iota.
  rewrite Nat.sub_0_r, Hlast. unfold bind at 1.
  cbn [repetition_loop]. change (INT_MAX <=? 0)%Z with false. cbv iota.
  unfold bind at 1. unfold bind at 1. rewrite Hrule. cbn [res_bind fst snd].
  unfold bind at 1. unfold lift at 1. rewrite Hskip. cbn [res_bind fst snd].
  rewrite <- Hlast, Hzero. cbn [negb].
  unfold bind at 1. unfold lift at 1. rewrite Hnewline. cbn [res_bind fst snd negb].
  unfold ret at 1. unfold compare_and_assign at 1. rewrite Hzero.
  cbn [res_bind fst snd].
  change (INT_MAX <=? 0 + 1)%Z with false. cbv iota.
  unfold bind at 1. unfold bind at 1. rewrite Hrule_end. cbn [res_bind fst snd].
  unfold bind at 1. unfold lift at 1. rewrite Hskip_end. cbn [res_bind fst snd].
  rewrite Nat.eqb_refl. cbn [negb]. unfold ret at 1. unfold compare_and_assign at 1.
  rewrite Nat.eqb_refl. cbn [res_bind fst snd]. unfold ret at 1.
  cbn [res_bind fst snd].
  change ((1 <=? 0 + 1)%Z && (0 + 1 <=? INT_MAX)%Z) with true. cbv iota.
  unfold ret at 1. cbn [res_bind fst snd].
  unfold bind. rewrite call_logged. cbn [res_bind fst snd].
  unfold ret. now rewrite andb_true_r.
Qed.

Lemma advance_comment_makes_no_callback_witness :
  advance_comment (chars ("; name" ++ CRLF)) 0 = Ret (true, 8) /\
  advance_rulelist (chars ("; name" ++ CRLF)) accept_all 0 start =
  Ret (true, 8, {| trace := [(ev_begin_document, true); (ev_end_document true, true)];
                   ctx := tt |}).
Proof.
  apply (advance_comment_makes_no_callback (chars " name") unit accept_all start).
  - repeat constructor.
  - reflexivity.
Defined.

(** ** The errors of a quoted string that is not closed *)

(** C5 (as amended). On the rule of S5 the rule list fails and the one
    error reported is [bad_quoted_char], at the carriage return that ends
    the line. On the same rule without the line end, where the input itself
    ends inside the quoted string, the one error is [unbalanced_quote]. In
    general, after an opening quote and characters that may stand in a quoted
    string, no more than the limit in force, [advance_quoted_string] reports
    [unbalanced_quote], at the character after the opening quote, when the
    input ends there, and [bad_quoted_char], at that character, when a
    character comes that is neither the quote nor VCHAR nor SP; either way it
    fails with the cursor where it was. *)
Theorem unterminated_quote_is_bad_char :
  (exists st,
      advance_rulelist unterminated accept_all 0 start = Ret (false, 0, st) /\
      filter is_error (events st) = [ev_error bad_quoted_char 17]) /\
  (exists st,
      advance_rulelist (chars ("r = " ++ DQUOTE ++ "unterminated")) accept_all 0 start =
        Ret (false, 0, st) /\
      filter is_error (events st) = [ev_error unbalanced_quote 5]) /\
  (forall C (cx : observer C) s pos st body,
      skipn pos s = "034"%char :: body ->
      Forall (fun ch => quotable ch = true) body ->
      (Z.of_nat (List.length body) <= length_limit cx st)%Z ->
      advance_quoted_string s cx pos st =
      failed_with cx unbalanced_quote (S pos) pos st) /\
  (forall C (cx : observer C) s pos st body ch rest,
      skipn pos s = "034"%char :: body ++ ch :: rest ->
      Forall (fun ch => quotable ch = true) body ->
      (Z.of_nat (List.length body) <= length_limit cx st)%Z ->
      is_dquote_char ch = false ->
      is_visible_char ch || is_space_char ch = false ->
      advance_quoted_string s cx pos st =
      failed_with cx bad_quoted_char (S pos + List.length body) pos st).
Proof.
  split; [|split; [|split]].
  - eexists. split; [vm_compute; reflexivity | reflexivity].
  - eexists. split; [vm_compute; reflexivity | reflexivity].
  - intros C cx s pos st body Hs Hbody Hlen.
    destruct (skipn_cons _ _ _ _ Hs) as (_ & Hs1 & Hlt).
    destruct body as [|c body].
    + (* the quote is the last character *)
      unfold advance_quoted_string.
      replace (pos =? last s) with false by (symmetry; apply Nat.eqb_neq; lia).
      unfold bind at 1. unfold lift at 1.
      rewrite (deref_skipn _ _ _ _ Hs). cbn [res_bind fst snd].
      change (is_dquote_char "034") with true. cbn [negb].
      assert (Hend : S pos = last s).
      { pose proof (f_equal (@List.length ascii) Hs1) as Hl.
        rewrite length_skipn_last in Hl. cbn in Hl. lia. }
      rewrite Hend, Nat.eqb_refl. rewrite <- Hend. apply fail_with_failed.
    + rewrite (advance_quoted_string_opened cx s pos _ st Hs) by discriminate.
      rewrite <- (app_nil_r (c :: body)) at 1.
      rewrite quoted_string_from_body by (assumption || lia).
      cbn [quoted_string_from].
      assert (Hend : S pos + List.length (c :: body) = last s).
      { pose proof (f_equal (@List.length ascii) Hs1) as Hl.
        rewrite length_skipn_last in Hl. lia. }
      rewrite Hend, Nat.eqb_refl. apply fail_with_failed.
  - intros C cx s pos st body ch rest Hs Hbody Hlen Hq Hv.
    rewrite (advance_quoted_string_opened cx s pos _ st Hs)
      by (destruct body; discriminate).
    rewrite quoted_string_from_body by (assumption || lia).
    cbn [quoted_string_from]. rewrite Hq, Hv. cbn [negb].
    apply fail_with_failed.
Qed.

(** The rule of S5 from its quote on, with and without its line end. *)
Lemma unterminated_quote_is_bad_char_witness :
  advance_quoted_string (chars ("r = " ++ DQUOTE ++ "unterminated")) accept_all 4 start =
    Ret (false, 4, {| trace := [(ev_error unbalanced_quote 5, true)]; ctx := tt |}) /\
  advance_quoted_string unterminated accept_all 4 start =
    Ret (false, 4, {| trace := [(ev_error bad_quoted_char 17, true)]; ctx := tt |}).
Proof.
  split.
  - apply (proj1 (proj2 (proj2 unterminated_quote_is_bad_char)) unit accept_all
             (chars ("r = " ++ DQUOTE ++ "unterminated")) 4 start (chars "unterminated")).
    + reflexivity.
    + repeat constructor.
    + vm_compute. discriminate.
  - apply (proj2 (proj2 (proj2 unterminated_quote_is_bad_char)) unit accept_all
             unterminated 4 start (chars "unterminated") "013"%char (chars LF)).
    + reflexivity.
    + repeat constructor.
    + vm_compute. discriminate.
    + reflexivity.
    + reflexivity.
Defined.

(** ** Brackets left open by a read through the end iterator *)



(** * Inputs that end with a line

    The reads that lack a test for the end of the input (C8) come after a
    character that is not a line end; where the input ends with CR or LF the
    cursor is then before the end, and every advancer returns. *)

Lemma ends_line_last s :
  ends_line s = true ->
  exists nl, nth_error s (last s - 1) = Some nl /\ is_cr_char nl || is_lf_char nl = true.
Proof.
  unfold ends_line. destruct (nth_error s (last s - 1)) as [nl|]; [eauto | discriminate].
Qed.

(** After a character that is no line end the cursor is before the end. *)
Lemma inside_step s p ch :
  ends_line s = true ->
  nth_error s p = Some ch ->
  is_cr_char ch || is_lf_char ch = false ->
  S p < last s.
Proof.
  intros Hl Hn Hch. destruct (ends_line_last s Hl) as (nl & Hnl & Hc).
  assert (Hp : p < last s) by (apply nth_error_Some; unfold last; congruence).
  destruct (Nat.eq_dec p (last s - 1)) as [->|]; [|lia].
  rewrite Hnl in Hn. inversion Hn; subst. congruence.
Qed.

Lemma within_line_rejects f nl :
  within_line f -> is_cr_char nl || is_lf_char nl = true -> f nl = false.
Proof.
  intros Hf Hnl. destruct (f nl) eqn:E; [|reflexivity].
  apply Hf in E. congruence.
Qed.

(** A run of a class within the line stops before the end. *)
Lemma advance_while_inside s f p :
  ends_line s = true -> within_line f -> p < last s -> advance_while s f p < last s.
Proof.
  intros Hl Hf Hp. destruct (ends_line_last s Hl) as (nl & Hnl & Hc).
  pose proof (advance_while_bounds s f p ltac:(lia)) as Hb.
  destruct (advance_while_spec s f p) as (_ & Hall & _).
  destruct (Nat.eq_dec (advance_while s f p) (last s)) as [E|]; [|lia].
  exfalso. rewrite E in Hall. unfold span in Hall.
  rewrite Forall_forall in Hall.
  assert (Hin : In nl (firstn (last s - p) (skipn p s))).
  { apply (nth_error_In _ (last s - 1 - p)).
    rewrite nth_error_firstn.
    replace (last s - 1 - p <? last s - p) with true
      by (symmetry; apply Nat.ltb_lt; lia).
    rewrite nth_error_skipn.
    replace (p + (last s - 1 - p)) with (last s - 1) by lia. exact Hnl. }
  apply Hall in Hin. rewrite (within_line_rejects f nl Hf Hc) in Hin. discriminate.
Qed.

Lemma advance_chars_kept s f p :
  ends_line s = true -> within_line f -> p <= last s ->
  stepped s p (advance_chars s f p) /\
  (p < last s -> snd (advance_chars s f p) < last s).
Proof.
  intros Hl Hf Hp. split; [now apply advance_chars_stepped|].
  intros Hlt. pose proof (advance_while_inside s f p Hl Hf Hlt) as Hw.
  unfold advance_chars, compare_and_assign.
  destruct (p =? advance_while s f p); cbn [snd]; lia.
Qed.

(** The classes of the grammar lie within the line. *)
Lemma within_line_cases (f : ascii -> bool) :
  (forall ch, f ch = true -> (32 <= code ch)%Z \/ code ch = 9%Z) -> within_line f.
Proof.
  intros H ch Hch. apply H in Hch. unfold is_cr_char, is_lf_char.
  apply orb_false_iff. split; apply Z.eqb_neq; lia.
Qed.

Lemma in_codes_range lo hi ch : in_codes lo hi ch = true -> (lo <= code ch <= hi)%Z.
Proof.
  unfold in_codes. intros H. apply andb_true_iff in H as [H1 H2].
  apply Z.leb_le in H1, H2. lia.
Qed.

Lemma alpha_within_line : within_line is_alpha_char.
Proof.
  apply within_line_cases. intros ch H. unfold is_alpha_char in H.
  apply orb_true_iff in H as [H|H]; apply in_codes_range in H; lia.
Qed.

Lemma digit_within_line : within_line is_digit_char.
Proof.
  apply within_line_cases. intros ch H. unfold is_digit_char in H.
  apply in_codes_range in H. lia.
Qed.

Lemma hexdigit_within_line : within_line is_hexdigit_char.
Proof.
  apply within_line_cases. intros ch H. unfold is_hexdigit_char, is_digit_char in H.
  apply orb_true_iff in H as [H|H]; [apply orb_true_iff in H as [H|H]|];
    apply in_codes_range in H; lia.
Qed.

Lemma bit_within_line : within_line is_bit_char.
Proof.
  apply within_line_cases. intros ch H. unfold is_bit_char in H.
  apply in_codes_range in H. lia.
Qed.

Lemma digit_class_within_line k f flag :
  digit_class k = Some (f, flag) -> within_line f.
Proof.
  unfold digit_class. intros H.
  destruct (Ascii.eqb k "x"); [inversion H; apply hexdigit_within_line|].
  destruct (Ascii.eqb k "d"); [inversion H; apply digit_within_line|].
  destruct (Ascii.eqb k "b"); [inversion H; apply bit_within_line | discriminate].
Qed.

Lemma whitespace_within_line : within_line is_whitespace_char.
Proof.
  apply within_line_cases. intros ch H. unfold is_whitespace_char, is_space_char in H.
  apply orb_true_iff in H as [H|H]; apply Z.eqb_eq in H; lia.
Qed.

Lemma dquote_within_line : within_line is_dquote_char.
Proof.
  apply within_line_cases. intros ch H. unfold is_dquote_char in H.
  apply Z.eqb_eq in H; lia.
Qed.

Lemma rulename_char_within_line :
  within_line (fun ch => is_alpha_char ch || is_digit_char ch || Ascii.eqb ch "-").
Proof.
  intros ch H. apply orb_true_iff in H as [H|H]; [apply orb_true_iff in H as [H|H]|].
  - now apply alpha_within_line.
  - now apply digit_within_line.
  - apply Ascii.eqb_eq in H. subst. reflexivity.
Qed.

Lemma prose_value_within_line : within_line is_prose_value_char.
Proof.
  intros ch H.
  destruct ch as [[] [] [] [] [] [] [] []]; try reflexivity; vm_compute in H; discriminate.
Qed.

Lemma the_char_within_line c :
  is_cr_char c || is_lf_char c = false -> within_line (fun ch => Ascii.eqb ch c).
Proof. intros Hc ch H. apply Ascii.eqb_eq in H. now subst. Qed.

Lemma snd_compare_and_assign pos p : snd (compare_and_assign pos p) = p.
Proof.
  unfold compare_and_assign. destruct (pos =? p) eqn:E; [|reflexivity].
  apply Nat.eqb_eq in E. now subst.
Qed.

(** *** Comments and white space *)

Lemma advance_comment_whitespace_kept s pos :
  ends_line s = true -> pos <= last s ->
  always (advance_comment_whitespace s pos)
    (fun x => stepped s pos x /\ (pos < last s -> snd x < last s)).
Proof.
  intros Hl H. unfold advance_comment_whitespace.
  destruct (pos =? last s) eqn:E;
    [apply always_ret; split; [apply stepped_stay; assumption | auto]|].
  apply Nat.eqb_neq in E.
  apply always_bind, deref_always; [lia|]. intros ch Hn.
  destruct (is_whitespace_char ch) eqn:Hws.
  { pose proof (inside_step s pos ch Hl Hn (whitespace_within_line ch Hws)) as Hin.
    apply always_ret. split; [apply compare_and_assign_stepped; lia|].
    rewrite snd_compare_and_assign. auto. }
  apply always_bind.
  eapply always_weaken; [apply advance_comment_newline_stepped; assumption|].
  intros [cnl p] (Hb & Ht & Hf). cbn [fst snd] in *.
  destruct cnl; [|apply always_ret; split; [apply stepped_stay; assumption | auto]].
  destruct (p =? last s) eqn:E';
    [apply always_ret; split; [apply stepped_stay; assumption | auto]|].
  apply Nat.eqb_neq in E'.
  apply always_bind, deref_always; [lia|]. intros ch' Hn'.
  destruct (is_whitespace_char ch') eqn:Hws'; cbn [negb];
    [|apply always_ret; split; [apply stepped_stay; assumption | auto]].
  pose proof (inside_step s p ch' Hl Hn' (whitespace_within_line ch' Hws')) as Hin.
  apply always_ret. split; [apply compare_and_assign_stepped; lia|].
  rewrite snd_compare_and_assign. auto.
Qed.

Lemma skip_comment_whitespace_from_kept s : ends_line s = true -> forall fuel p,
  p <= last s -> last s - p < fuel ->
  always (skip_comment_whitespace_from s fuel p)
    (fun q => p <= q <= last s /\ (p < last s -> q < last s)).
Proof.
  intros Hl.
  induction fuel as [|fuel IH]; intros p Hp Hfuel; [lia|].
  cbn [skip_comment_whitespace_from].
  apply always_bind.
  eapply always_weaken; [apply advance_comment_whitespace_kept; assumption|].
  intros [more q] ((Hb & Ht & Hf) & Hin). cbn [fst snd] in *.
  destruct more.
  - specialize (Ht eq_refl).
    eapply always_weaken; [apply IH; lia|]. cbn beta. intros; lia.
  - apply always_ret. lia.
Qed.

Lemma skip_comment_whitespace_kept s p :
  ends_line s = true -> p <= last s ->
  always (skip_comment_whitespace s p)
    (fun q => p <= q <= last s /\ (p < last s -> q < last s)).
Proof.
  intros Hl H. apply skip_comment_whitespace_from_kept; [assumption | assumption | lia].
Qed.

Lemma advance_defined_as_kept s pos :
  ends_line s = true -> pos <= last s ->
  always (advance_defined_as s pos)
    (fun x => let '(moved, pos', _) := x in
       stepped s pos (moved, pos') /\ (pos < last s -> pos' < last s)).
Proof.
  intros Hl H. unfold advance_defined_as.
  destruct (pos =? last s) eqn:E;
    [apply always_ret; split; [apply stepped_stay; assumption | auto]|].
  apply always_bind.
  eapply always_weaken; [apply skip_comment_whitespace_kept; assumption|].
  intros p [Hp Hpin].
  destruct (p =? last s) eqn:E';
    [apply always_ret; split; [apply stepped_stay; assumption | auto]|].
  apply Nat.eqb_neq in E'.
  apply always_bind, deref_always; [lia|]. intros ch Hn.
  destruct (Ascii.eqb ch "=") eqn:Heq;
    [|apply always_ret; split; [apply stepped_stay; assumption | auto]].
  apply Ascii.eqb_eq in Heq. subst ch.
  pose proof (inside_step s p _ Hl Hn eq_refl) as Hin.
  apply always_bind.
  apply always_weaken with (Q := fun x => S p <= fst x /\ fst x < last s).
  { destruct (negb (S p =? last s)) eqn:E''.
    - apply always_bind, deref_always; [lia|]. intros ch' Hn'.
      destruct (Ascii.eqb ch' "/") eqn:Hsl; apply always_ret; cbn [fst]; [|lia].
      apply Ascii.eqb_eq in Hsl. subst ch'.
      pose proof (inside_step s (S p) _ Hl Hn' eq_refl). lia.
    - apply always_ret; cbn [fst]; lia. }
  intros [p1 incremental] Hp1. cbn [fst] in Hp1.
  apply always_bind.
  eapply always_weaken; [apply skip_comment_whitespace_kept; [assumption | lia]|].
  intros p2 [Hp2 Hp2in].
  pose proof (compare_and_assign_stepped s pos p2 ltac:(lia)) as Hc.
  pose proof (snd_compare_and_assign pos p2) as Hs.
  destruct (compare_and_assign pos p2) as [moved pos'].
  apply always_ret. cbn [snd] in Hs. subst pos'. split; [exact Hc | lia].
Qed.

(** *** Names, repeat prefixes and quoted strings *)

Lemma advance_rulename_helper_kept s pos first_pos last_pos :
  ends_line s = true -> pos < last s ->
  always (advance_rulename_helper s pos first_pos last_pos)
    (fun x => let '(moved, pos', _, _) := x in
       stepped s pos (moved, pos') /\ pos' < last s).
Proof.
  intros Hl H. unfold advance_rulename_helper.
  apply always_bind, deref_always; [assumption|]. intros ch Hn.
  destruct (is_alpha_char ch) eqn:Ha; cbn [negb];
    [|apply always_ret; split; [apply stepped_stay; lia | assumption]].
  pose proof (inside_step s pos ch Hl Hn (alpha_within_line ch Ha)) as Hin.
  pose proof (advance_while_bounds s
                (fun ch => is_alpha_char ch || is_digit_char ch || Ascii.eqb ch "-")
                (S pos) ltac:(lia)) as Hw.
  pose proof (advance_while_inside s _ (S pos) Hl rulename_char_within_line Hin) as Hq.
  pose proof (compare_and_assign_stepped s pos _ ltac:(split; [|exact (proj2 Hw)]; lia))
    as Hc.
  pose proof (snd_compare_and_assign pos
                (advance_while s
                   (fun ch => is_alpha_char ch || is_digit_char ch || Ascii.eqb ch "-")
                   (S pos))) as Hs.
  destruct (compare_and_assign pos _) as [moved pos'].
  apply always_ret. cbn [snd] in Hs. subst pos'. split; [exact Hc | exact Hq].
Qed.

Lemma repeat_scan_kept s pos :
  ends_line s = true -> pos < last s ->
  always (repeat_scan s pos)
    (fun x => let '(p, _, _, _) := x in pos <= p /\ p < last s).
Proof.
  intros Hl H. unfold repeat_scan.
  apply always_bind, deref_always; [assumption|]. intros ch Hn.
  destruct (advance_chars_kept s is_digit_char pos Hl digit_within_line ltac:(lia))
    as ((Hb & _) & Hin).
  specialize (Hin H).
  fold (advance_digit_chars s pos) in Hb, Hin.
  destruct (is_digit_char ch).
  - destruct (snd (advance_digit_chars s pos) =? last s) eqn:E.
    + apply Nat.eqb_eq in E. exfalso. lia.
    + apply always_bind, deref_always; [lia|]. intros ch' Hn'.
      destruct (Ascii.eqb ch' "*") eqn:Hs; [|apply always_ret; lia].
      apply Ascii.eqb_eq in Hs. subst ch'.
      pose proof (inside_step s _ _ Hl Hn' eq_refl) as Hin'.
      destruct (S (snd (advance_digit_chars s pos)) =? last s) eqn:E'.
      * apply always_ret. lia.
      * apply always_bind, deref_always; [lia|]. intros d _.
        destruct (is_digit_char d); [|apply always_ret; lia].
        destruct (advance_chars_kept s is_digit_char
                    (S (snd (advance_digit_chars s pos))) Hl digit_within_line
                    ltac:(lia)) as ((Hb' & _) & Hin'').
        fold (advance_digit_chars s (S (snd (advance_digit_chars s pos)))) in Hb', Hin''.
        apply always_ret. lia.
  - apply always_bind, deref_always; [lia|]. intros ch' Hn'.
    destruct (Ascii.eqb ch' "*") eqn:Hs; [|apply always_ret; lia].
    apply Ascii.eqb_eq in Hs. subst ch'.
    pose proof (inside_step s _ _ Hl Hn' eq_refl) as Hin'.
    destruct (S pos =? last s) eqn:E'.
    + apply always_ret. lia.
    + apply always_bind, deref_always; [lia|]. intros d _.
      destruct (is_digit_char d); [|apply always_ret; lia].
      destruct (advance_chars_kept s is_digit_char (S pos) Hl digit_within_line
                  ltac:(lia)) as ((Hb' & _) & Hin'').
      fold (advance_digit_chars s (S pos)) in Hb', Hin''.
      apply always_ret. lia.
Qed.

(** The scan of a quoted string stops at the end of the input or at a
    quote. *)
Lemma quoted_string_from_quote rest : forall first_pos p length max_length q,
  quoted_string_from rest first_pos p length max_length = inr q ->
  q < p + List.length rest ->
  exists ch, nth_error rest (q - p) = Some ch /\ is_dquote_char ch = true.
Proof.
  induction rest as [|ch rest IH]; intros first_pos p len max_length q H Hq;
    cbn [quoted_string_from List.length] in *.
  - inversion H; lia.
  - destruct (is_dquote_char ch) eqn:Hd.
    + inversion H; subst. rewrite Nat.sub_diag. exists ch. split; [reflexivity | exact Hd].
    + destruct (negb (is_visible_char ch || is_space_char ch)); [discriminate|].
      destruct (len =? max_length)%Z; [discriminate|].
      pose proof (quoted_string_from_bounds _ _ _ _ _ _ H) as Hb.
      destruct (IH _ _ _ _ _ H ltac:(lia)) as (c & Hc & Hdc).
      exists c. split; [|exact Hdc].
      replace (q - p) with (S (q - S p)) by lia. exact Hc.
Qed.

(** *** Runs that return *)

Lemma surely_weaken {C A} (st : run_state C) (c : M C A) (Q Q' : A -> run_state C -> Prop) :
  surely st c Q -> (forall a st', Q a st' -> Q' a st') -> surely st c Q'.
Proof. intros (a & st' & E & H) HQ. exists a, st'. auto. Qed.

Lemma surely_deref_in {C} s p (st : run_state C) (Q : ascii -> run_state C -> Prop) :
  ends_line s = true ->
  p < last s ->
  (forall ch, nth_error s p = Some ch ->
              (is_cr_char ch || is_lf_char ch = false -> S p < last s) -> Q ch st) ->
  surely st (lift (deref s p)) Q.
Proof.
  intros Hl Hp H. apply surely_lift. apply deref_always; [assumption|].
  intros ch Hn. apply H; [assumption|]. intros Hch. exact (inside_step s p ch Hl Hn Hch).
Qed.

Lemma commit_kept {C} s success pos p (st' : run_state C) :
  pos <= p <= last s -> (pos < last s -> p < last s) ->
  kept s pos (commit success pos p) st'.
Proof.
  intros Hb Hin. split; [now apply commit_advanced|].
  unfold commit. destruct success; [rewrite snd_compare_and_assign|]; auto.
Qed.

Lemma compare_kept {C} s pos p (st' : run_state C) :
  pos <= p <= last s -> (pos < last s -> p < last s) ->
  kept s pos (compare_and_assign pos p) st'.
Proof. apply (commit_kept s true pos p). Qed.

(** What the tests passed so far tell of the characters read: after a
    character that is no line end the cursor is before the end. *)
Ltac fire :=
  nat_facts;
  repeat match goal with
    | H : is_cr_char ?ch || is_lf_char ?ch = false -> _,
      E : Ascii.eqb ?ch _ = true |- _ =>
        apply Ascii.eqb_eq in E; subst ch; specialize (H eq_refl)
    | H : is_cr_char ?ch || is_lf_char ?ch = false -> _,
      E : is_alpha_char ?ch = true |- _ => specialize (H (alpha_within_line ch E))
    | H : is_cr_char ?ch || is_lf_char ?ch = false -> _,
      E : is_whitespace_char ?ch = true |- _ =>
        specialize (H (whitespace_within_line ch E))
    | H : is_cr_char ?ch || is_lf_char ?ch = false -> _,
      E : is_dquote_char ?ch = true |- _ => specialize (H (dquote_within_line ch E))
    | H : is_cr_char ?ch || is_lf_char ?ch = false -> _,
      E : ?f ?ch = true, K : digit_class _ = Some (?f, _) |- _ =>
        specialize (H (digit_class_within_line _ _ _ K ch E))
    end.

Ltac tbounds := fire; cbn [fst snd] in *; subst; nat_facts; lia.

Ltac line_class :=
  first [ eapply digit_class_within_line; eassumption
        | apply digit_within_line
        | apply prose_value_within_line
        | apply rulename_char_within_line ].

Ltac tnote x :=
  lazymatch x with
  | advance_chars ?s ?f ?p =>
      try (assert (stepped s p (advance_chars s f p) /\
                   (p < last s -> snd (advance_chars s f p) < last s))
            by (apply advance_chars_kept; [assumption | line_class | tbounds]))
  | compare_and_assign ?pos ?p =>
      try (match goal with
           | |- context [last ?s] =>
               assert (stepped s pos (compare_and_assign pos p))
                 by (apply compare_and_assign_stepped; tbounds)
           end);
      pose proof (snd_compare_and_assign pos p)
  | _ => note x
  end.

Ltac tp_known := fail.

Ltac tp_step :=
  lazymatch goal with
  | |- surely _ (ret _) _ => apply surely_ret
  | |- surely _ (bind _ _) _ => apply surely_bind
  | |- surely _ (lift (deref ?s ?p)) _ =>
      match goal with
      | Hl : ends_line s = true |- _ =>
          apply (surely_deref_in s p _ _ Hl); [tbounds | intros ? ? ?]
      end
  | |- surely _ (call _ _) _ => apply surely_call; intros ? ?
  | |- surely _ (and_call _ _ _) _ => unfold and_call at 1
  | |- surely _ (fail_with _ _ _ _) _ => unfold fail_with
  | |- surely _ (and_then _ _ _) _ => unfold and_then at 1; cbv beta
  | |- surely _ (or_else _ _ _) _ => unfold or_else at 1; cbv beta
  | |- surely _ (if ?b then _ else _) _ =>
      first [ progress (cbn [negb]; cbv beta iota) | destruct b eqn:? ]
  | |- surely _ (match number_kind ?s ?ch with _ => _ end) _ =>
      rewrite (number_kind_class s ch); destruct (digit_class ch) as [[? ?]|] eqn:?
  | |- surely _ (match ?x with _ => _ end) _ =>
      first [ progress (cbv beta iota) | tnote x; destruct x eqn:? ]
  | |- surely _ _ _ => tp_known
  end.

Ltac tp_done :=
  lazymatch goal with
  | |- kept _ _ (commit _ _ _) _ => apply commit_kept; [tbounds | intros; tbounds]
  | |- kept _ _ (compare_and_assign _ _) _ =>
      apply compare_kept; [tbounds | intros; tbounds]
  | |- kept _ _ (_, _) _ =>
      split; [split|]; cbn [fst snd];
      [ tbounds
      | let H := fresh in
        intros H; try (apply andb_true_iff in H as [? ?]);
        first [discriminate | tbounds]
      | intros; tbounds ]
  end.

Ltac tp := repeat tp_step; tp_done.

(** *** The advancers of tokens *)

Lemma advance_prose_returns_kept {C} s (cx : observer C) pos (st : run_state C) :
  ends_line s = true -> pos <= last s ->
  surely st (advance_prose s cx pos) (kept s pos).
Proof.
  intros Hl Hpos. unfold advance_prose. cbv zeta.
  pose proof (advance_while_bounds s is_prose_value_char (S pos)) as Hw.
  pose proof (advance_while_inside s is_prose_value_char (S pos) Hl
                prose_value_within_line) as Hin.
  tp.
Qed.

Lemma number_sequence_kept {C} s (cx : observer C) k f flag :
  ends_line s = true ->
  digit_class k = Some (f, flag) ->
  forall fuel success p (st : run_state C),
    p < last s -> last s - p < fuel ->
    surely st (number_sequence s cx fuel (advance_chars s f) f flag success p)
      (fun r st' =>
         match r with Some (_, q) => p <= q /\ q < last s | None => True end).
Proof.
  intros Hl Hk.
  induction fuel as [|fuel IH]; intros success p st Hp Hfuel; [lia|].
  cbn [number_sequence].
  repeat tp_step; try (first [exact I | tbounds]).
  all: eapply surely_weaken; [apply IH; tbounds|].
  all: intros [[? ?]|] ? ?; first [exact I | tbounds].
Qed.

Ltac tp_known ::=
  lazymatch goal with
  | |- surely ?st (number_sequence ?s ?cx _ (advance_chars ?s ?f) ?f ?flag _ _) _ =>
      match goal with
      | Hl : ends_line s = true, Hk : digit_class ?k = Some (f, flag) |- _ =>
          eapply surely_weaken;
          [ apply (number_sequence_kept s cx k f flag Hl Hk); tbounds
          | intros [[? ?]|] ? ? ]
      end
  | |- surely _ (lift (repeat_scan ?s ?p)) _ =>
      match goal with
      | Hl : ends_line s = true |- _ =>
          apply surely_lift;
          eapply always_weaken; [ apply (repeat_scan_kept s p Hl); tbounds | ];
          intros [[[? ?] ?] ?] [? ?]
      end
  | |- surely _ (lift (advance_rulename_helper ?s ?p ?a ?b)) _ =>
      match goal with
      | Hl : ends_line s = true |- _ =>
          apply surely_lift;
          eapply always_weaken;
          [ apply (advance_rulename_helper_kept s p a b Hl); tbounds | ];
          intros [[[? ?] ?] ?] [? ?]
      end
  end.

Lemma advance_number_returns_kept {C} s (cx : observer C) pos (st : run_state C) :
  ends_line s = true -> pos <= last s ->
  surely st (advance_number s cx pos) (kept s pos).
Proof.
  intros Hl Hpos. unfold advance_number. cbv zeta. tp.
Qed.

Lemma advance_quoted_string_returns_kept {C} s (cx : observer C) pos (st : run_state C) :
  ends_line s = true -> pos <= last s ->
  surely st (advance_quoted_string s cx pos) (kept s pos).
Proof.
  intros Hl Hpos. unfold advance_quoted_string. cbv zeta.
  tp_step; [tp|]. tp_step. tp_step.
  tp_step; [tp|]. tp_step; [tp|].
  unfold surely at 1.
  destruct (quoted_string_from _ _ _ _ _) as [[ec near_pos]|p] eqn:Hq.
  - change (surely st (fail_with cx ec near_pos pos) (kept s pos)). tp.
  - pose proof (quoted_string_from_bounds _ _ _ _ _ _ Hq) as Hb.
    rewrite length_skipn_last in Hb.
    assert (Hin : p <> last s -> S p < last s).
    { intros Hne.
      destruct (quoted_string_from_quote _ _ _ _ _ _ Hq) as (c & Hc & Hd).
      - rewrite length_skipn_last. bounds.
      - rewrite nth_error_skipn in Hc.
        replace (S pos + (p - S pos)) with p in Hc by bounds.
        exact (inside_step s p c Hl Hc (dquote_within_line c Hd)). }
    match goal with |- exists a st', ?c st = _ /\ _ =>
      change (surely st c (kept s pos)) end.
    tp.
Qed.

Lemma advance_repeat_returns_kept {C} s (cx : observer C) pos (st : run_state C) :
  ends_line s = true -> pos <= last s ->
  surely st (advance_repeat s cx pos) (kept s pos).
Proof.
  intros Hl Hpos. unfold advance_repeat. cbv zeta. tp.
Qed.

Lemma advance_rulename_returns_kept {C} s (cx : observer C) pos (st : run_state C) :
  ends_line s = true -> pos <= last s ->
  surely st (advance_rulename s cx pos) (kept s pos).
Proof.
  intros Hl Hpos. unfold advance_rulename. tp.
Qed.

(** *** The repetition driver *)

Lemma repetition_loop_returns {C} s (op : advancer C) (I : nat -> Prop) high pos0 :
  (forall q st, pos0 <= q <= last s ->
     surely st (op q) (fun x st' => advanced s q x st' /\ (I q -> I (snd x)))) ->
  forall fuel count p (st : run_state C),
    pos0 <= p <= last s -> last s - p < fuel ->
    surely st (repetition_loop fuel op high count p)
      (fun x st' =>
         (p <= snd x <= last s /\ (count <= fst x)%Z /\
          ((count < fst x)%Z -> p < snd x)) /\
         (I p -> I (snd x))).
Proof.
  intros Hop.
  induction fuel as [|fuel IH]; intros count p st Hp Hfuel; [lia|].
  cbn [repetition_loop].
  destruct (high <=? count)%Z;
    [apply surely_ret; cbn [fst snd]; split; [lia | auto]|].
  apply surely_bind.
  eapply surely_weaken; [apply (Hop p); lia|].
  intros [success p'] st1 [[Hb Hm] Hi]. cbn [fst snd] in *.
  destruct success.
  - specialize (Hm eq_refl).
    eapply surely_weaken; [apply (IH _ p'); lia|].
    intros x st' [(Hx & Hc & _) Hi']. split; [lia | auto].
  - apply surely_ret. cbn [fst snd]. split; [lia | auto].
Qed.

Lemma advance_repetition_by_range_returns {C} s range (op : advancer C) (I : nat -> Prop)
    pos (st : run_state C) :
  pos <= last s ->
  (forall q st, pos <= q <= last s ->
     surely st (op q) (fun x st' => advanced s q x st' /\ (I q -> I (snd x)))) ->
  surely st (advance_repetition_by_range s pos range op)
    (fun x st' =>
       (pos <= snd x <= last s /\ (fst x = true -> (1 <= fst range)%Z -> pos < snd x)) /\
       (I pos -> I (snd x))).
Proof.
  intros Hpos Hop. unfold advance_repetition_by_range.
  destruct range as [low high]. cbn [fst].
  destruct (high <? low)%Z;
    [apply surely_ret; cbn [fst snd]; split; [split; [lia | discriminate] | auto]|].
  apply surely_bind.
  eapply surely_weaken;
    [apply (repetition_loop_returns s op I high pos Hop); lia|].
  intros [count p] st' [(Hp & Hc & Hm) Hi]. cbn [fst snd] in *.
  destruct ((low <=? count)%Z && (count <=? high)%Z) eqn:E.
  - apply andb_true_iff in E as [E _]. apply Z.leb_le in E.
    apply surely_ret. cbn [fst snd]. split; [|assumption].
    split; [lia|]. intros _ Hlow. apply Hm. lia.
  - apply surely_ret. cbn [fst snd]. split; [split; [lia | discriminate] | auto].
Qed.

Lemma advance_repetition_by_range_kept {C} s range (op : advancer C) pos
    (st : run_state C) :
  pos <= last s ->
  (forall q, pos <= q <= last s -> returning s op q) ->
  surely st (advance_repetition_by_range s pos range op)
    (fun x st' =>
       (pos <= snd x <= last s /\ (fst x = true -> (1 <= fst range)%Z -> pos < snd x)) /\
       (pos < last s -> snd x < last s)).
Proof.
  intros Hpos Hop.
  apply (advance_repetition_by_range_returns s range op (fun p => p < last s));
    [assumption|].
  intros q st0 Hq. exact (Hop q Hq st0).
Qed.

(** *** The advancers of a level *)

Ltac use_returning H :=
  eapply surely_weaken;
  [ apply H; first [assumption | tbounds]
  | intros [? ?] ? [[? ?] ?]; cbn [fst snd] in * ].

Ltac use_kept H :=
  apply surely_lift;
  eapply always_weaken; [ apply H; first [assumption | tbounds] | ].

Ltac tp_known ::=
  lazymatch goal with
  | |- surely ?st (number_sequence ?s ?cx _ (advance_chars ?s ?f) ?f ?flag _ _) _ =>
      match goal with
      | Hl : ends_line s = true, Hk : digit_class ?k = Some (f, flag) |- _ =>
          eapply surely_weaken;
          [ apply (number_sequence_kept s cx k f flag Hl Hk); tbounds
          | intros [[? ?]|] ? ? ]
      end
  | |- surely _ (lift (skip_comment_whitespace ?s ?p)) _ =>
      use_kept (skip_comment_whitespace_kept s p); intros ? [? ?]
  | |- surely _ (lift (skip_linear_whitespace ?s ?p)) _ =>
      use_kept (skip_linear_whitespace_always s p); intros ? ?; cbv beta in *
  | |- surely _ (lift (advance_comment_whitespace ?s ?p)) _ =>
      use_kept (advance_comment_whitespace_kept s p); intros [? ?] [? ?]
  | |- surely _ (lift (advance_comment_newline ?s ?p)) _ =>
      use_kept (advance_comment_newline_stepped s p); intros [? ?] ?
  | |- surely _ (lift (advance_rulename_helper ?s ?p ?a ?b)) _ =>
      use_kept (advance_rulename_helper_kept s p a b); intros [[[? ?] ?] ?] [? ?]
  | |- surely _ (lift (advance_defined_as ?s ?p)) _ =>
      use_kept (advance_defined_as_kept s p); intros [[? ?] ?] [? ?]
  | |- surely _ (advance_prose ?s ?cx ?p) _ =>
      use_returning (advance_prose_returns_kept s cx p)
  | |- surely _ (advance_number ?s ?cx ?p) _ =>
      use_returning (advance_number_returns_kept s cx p)
  | |- surely _ (advance_quoted_string ?s ?cx ?p) _ =>
      use_returning (advance_quoted_string_returns_kept s cx p)
  | |- surely _ (advance_repeat ?s ?cx ?p) _ =>
      use_returning (advance_repeat_returns_kept s cx p)
  | |- surely _ (advance_rulename ?s ?cx ?p) _ =>
      use_returning (advance_rulename_returns_kept s cx p)
  | |- surely _ (advance_repetition_by_range ?s ?p ?range ?op) _ =>
      eapply surely_weaken;
      [ apply (advance_repetition_by_range_kept s range op p);
        [ tbounds | unfold returning; intros ? ? ?; cbv beta ]
      | intros [? ?] ? [[? ?] ?];
        try unfold make_range, unlimited_range in *; cbn [fst snd] in * ]
  | |- surely _ (?a ?p) _ =>
      match goal with
      | H : forall q, _ -> returning _ a q |- _ => use_returning (H p)
      end
  end.

Section LevelReturns.

Context {C : Type} (s : list ascii) (cx : observer C).
Variable alternation_inside : advancer C.
Variable pos0 : nat.
Hypothesis line_ended : ends_line s = true.
Hypothesis inside_returns :
  forall q, pos0 < q <= last s -> returning s alternation_inside q.








End LevelReturns.




(** *** Rules and the rule list *)






(** *** Every advancer *)



